(** * NEO-6M GPS data parser (Nano R4, interrupt driven): a shallow embedding

    The development follows [GPS_NEO6M_Parse_R4_FSP.ino]: the interrupt-fed
    ring buffer, the sentence framer and XOR checksum validator of
    [getSentence], the positional field scan of [parseSentence], and the
    signed-arithmetic timezone/calendar block of [loop].

    Conventions.
    - A [char] or [byte] is a [Z] in [0, 256) ([char] is unsigned on the
      Renesas/ARM target); conversions to [byte] are written [to_byte].
    - Array indices and the [byte] counters used as indices are [nat]s, with
      their wrap-around written out.
    - A [char *] into the record buffer is the list of bytes from the pointed
      position to the end of the array; a store through the pointer is a
      list update, pointer arithmetic is [drop].
    - [double] values are idealised as exact rationals ([Q]). *)

From Stdlib Require Import ZArith QArith Lia List String Ascii ZifyNat.
From stdpp Require Import base list numbers.

Local Open Scope Z_scope.

(** ** Constants of the sketch *)

Definition GPSBUFR1 : nat := 512.
Definition TZOFFSET : Z := 0.
Definition NMEAMAXLEN : nat := 79.

(** ** Characters *)

Definition chars (s : string) : list Z :=
  map (fun a => Z.of_N (N_of_ascii a)) (list_ascii_of_string s).

Definition NUL : Z := 0.
Definition ch_dollar : Z := 36.
Definition ch_star : Z := 42.
Definition ch_comma : Z := 44.
Definition ch_CR : Z := 13.
Definition ch_LF : Z := 10.

Definition to_byte (x : Z) : Z := x mod 256.

(** [toupper] of the C locale. *)
Definition toupper (c : Z) : Z :=
  if (97 <=? c) && (c <=? 122) then c - 32 else c.

(** [byte htoi(char digit)] *)
Definition htoi (digit : Z) : Z :=
  let digit := toupper digit in
  if (48 <=? digit) && (digit <=? 57) then to_byte (digit - 48)
  else if (65 <=? digit) && (digit <=? 70) then to_byte (digit - 65 + 10)
  else 0.

(** [byte dtoi(char digit)] *)
Definition dtoi (digit : Z) : Z :=
  if (48 <=? digit) && (digit <=? 57) then to_byte (digit - 48) else 0.

(** ** The Fix: the globals written by the parser and the calendar block *)

Record Fix : Type := mkFix {
  gpsValid : bool;
  gpsDateD : Z; gpsDateM : Z; gpsDateY : Z;
  gpsTimeH : Z; gpsTimeM : Z; gpsTimeS : Z;
  gpsLatD : Q; gpsLongD : Q;
  gpsSats : Z
}.

(** Zero-initialised globals at start-up. *)
Definition fix0 : Fix := mkFix false 0 0 0 0 0 0 0%Q 0%Q 0.

Definition set_time (h m s : Z) (f : Fix) : Fix :=
  mkFix (gpsValid f) (gpsDateD f) (gpsDateM f) (gpsDateY f)
        h m s (gpsLatD f) (gpsLongD f) (gpsSats f).
Definition set_date (d m y : Z) (f : Fix) : Fix :=
  mkFix (gpsValid f) d m y
        (gpsTimeH f) (gpsTimeM f) (gpsTimeS f) (gpsLatD f) (gpsLongD f) (gpsSats f).
Definition set_valid (v : bool) (f : Fix) : Fix :=
  mkFix v (gpsDateD f) (gpsDateM f) (gpsDateY f)
        (gpsTimeH f) (gpsTimeM f) (gpsTimeS f) (gpsLatD f) (gpsLongD f) (gpsSats f).
Definition set_lat (x : Q) (f : Fix) : Fix :=
  mkFix (gpsValid f) (gpsDateD f) (gpsDateM f) (gpsDateY f)
        (gpsTimeH f) (gpsTimeM f) (gpsTimeS f) x (gpsLongD f) (gpsSats f).
Definition set_long (x : Q) (f : Fix) : Fix :=
  mkFix (gpsValid f) (gpsDateD f) (gpsDateM f) (gpsDateY f)
        (gpsTimeH f) (gpsTimeM f) (gpsTimeS f) (gpsLatD f) x (gpsSats f).
Definition set_sats (n : Z) (f : Fix) : Fix :=
  mkFix (gpsValid f) (gpsDateD f) (gpsDateM f) (gpsDateY f)
        (gpsTimeH f) (gpsTimeM f) (gpsTimeS f) (gpsLatD f) (gpsLongD f) n.

(** ** C strings in the record buffer *)

Module CString.

(** The string a [char *] designates: the bytes up to the first NUL. *)
Fixpoint cstr (m : list Z) : list Z :=
  match m with
  | [] => []
  | c :: m' => if c =? NUL then [] else c :: cstr m'
  end.

Definition strlen (m : list Z) : nat := length (cstr m).

(** [strchr(m, ch)] for a non-NUL [ch]: the offset of its first occurrence
    in the string, [None] for a NULL result. *)
Fixpoint strchr (m : list Z) (ch : Z) : option nat :=
  match m with
  | [] => None
  | c :: m' =>
      if c =? NUL then None
      else if c =? ch then Some 0%nat
      else S <$> strchr m' ch
  end.

Fixpoint bytes_eqb (a b : list Z) : bool :=
  match a, b with
  | [], [] => true
  | x :: a', y :: b' => (x =? y) && bytes_eqb a' b'
  | _, _ => false
  end.

(** [strcmp(m, lit) == 0] *)
Definition strcmp_eq (m lit : list Z) : bool := bytes_eqb (cstr m) lit.

(** [p[k]]; a read past the end of the array is undefined in C and
    yields 0 here. *)
Definition at_ (p : list Z) (k : nat) : Z := nth k p 0.

Definition isspace (c : Z) : bool := (c =? 32) || ((9 <=? c) && (c <=? 13)).
Definition isdigit (c : Z) : bool := (48 <=? c) && (c <=? 57).

Fixpoint skip_space (s : list Z) : list Z :=
  match s with
  | c :: s' => if isspace c then skip_space s' else s
  | [] => []
  end.

(** The longest prefix of decimal digits: its value on top of [acc], the
    number of digits read, and what follows. *)
Fixpoint digits (acc : Z) (n : nat) (s : list Z) : Z * nat * list Z :=
  match s with
  | c :: s' => if isdigit c then digits (acc * 10 + (c - 48)) (S n) s' else (acc, n, s)
  | [] => (acc, n, [])
  end.

Definition sign (s : list Z) : bool * list Z :=
  match s with
  | c :: s' => if c =? 45 then (true, s') else if c =? 43 then (false, s') else (false, s)
  | [] => (false, [])
  end.

Definition INT_MAX : Z := 2147483647.
Definition INT_MIN : Z := -2147483648.

(** [atoi]: optional white space, optional sign, decimal digits; as in
    newlib's [strtol] the value saturates at the [int] range. *)
Definition atoi (m : list Z) : Z :=
  let '(neg, s) := sign (skip_space (cstr m)) in
  let '(v, _, _) := digits 0 0 s in
  let v := if neg then - v else v in
  Z.max INT_MIN (Z.min INT_MAX v).

(** [atof], on plain decimal notation: white space, sign, digits, an
    optional fraction and an optional decimal exponent. The value is the
    exact rational; [inf], [nan] and hexadecimal floats are not covered. *)
Definition atof (m : list Z) : Q :=
  let '(neg, s) := sign (skip_space (cstr m)) in
  let '(ip, ni, s1) := digits 0 0 s in
  let '(mant, nf, s2) :=
    match s1 with
    | c :: s' => if c =? 46 then digits ip 0 s' else (ip, 0%nat, s1)
    | [] => (ip, 0%nat, s1)
    end in
  let e :=
    match s2 with
    | c :: s' =>
        if (c =? 101) || (c =? 69) then
          let '(eneg, s3) := sign s' in
          let '(ev, ne, _) := digits 0 0 s3 in
          if (0 <? ne)%nat then (if eneg then - ev else ev) else 0
        else 0
    | [] => 0
    end in
  let q := (inject_Z mant / inject_Z (10 ^ Z.of_nat nf) * Qpower 10 e)%Q in
  if (ni + nf =? 0)%nat then 0%Q else if neg then (- q)%Q else q.

(** [strspn(m, "*")]: the number of leading delimiters. *)
Fixpoint span_star (m : list Z) : nat :=
  match m with
  | c :: m' => if c =? ch_star then S (span_star m') else 0%nat
  | [] => 0%nat
  end.

(** [strtok] with the delimiter set ["*"], on the memory [m] its scan starts
    from: [None] for a NULL result, otherwise the offset of the token, the
    memory after the store of the terminating NUL, and the offset the
    saved pointer is left at. *)
Definition strtok (m : list Z) : option (nat * list Z * nat) :=
  let start := span_star m in
  let tok := drop start m in
  if (strlen tok =? 0)%nat then None
  else
    match strchr tok ch_star with
    | Some e => Some (start, <[(start + e)%nat := NUL]> m, S (start + e))
    | None => Some (start, m, (start + strlen tok)%nat)
    end.

End CString.

(** ** [parseSentence] *)

Module Parser.
Import CString.

(** Two decimal digits at [p[k]], [p[k+1]], stored to a [byte]. *)
Definition two_digits (p : list Z) (k : nat) : Z :=
  to_byte (dtoi (at_ p k) * 10 + dtoi (at_ p (S k))).

(** The seven [if (fieldCounter == ...)] statements of the GPRMC scan, run
    on a non-empty field. *)
Definition rmc_field (fieldCounter : nat) (pointer : list Z) (f : Fix) : Fix :=
  let f := if (fieldCounter =? 1)%nat
           then set_time (two_digits pointer 0) (two_digits pointer 2) (two_digits pointer 4) f
           else f in
  let f := if (fieldCounter =? 2)%nat
           then set_valid (strcmp_eq pointer (chars "A")) f else f in
  let f := if (fieldCounter =? 3)%nat
           then set_lat (inject_Z (dtoi (at_ pointer 0) * 10 + dtoi (at_ pointer 1))
                         + atof (drop 2 pointer) / 60)%Q f
           else f in
  let f := if (fieldCounter =? 4)%nat
           then (if strcmp_eq pointer (chars "S") then set_lat (- gpsLatD f)%Q f else f)
           else f in
  let f := if (fieldCounter =? 5)%nat
           then set_long (inject_Z (dtoi (at_ pointer 0) * 100 + dtoi (at_ pointer 1) * 10
                                    + dtoi (at_ pointer 2))
                          + atof (drop 3 pointer) / 60)%Q f
           else f in
  let f := if (fieldCounter =? 6)%nat
           then (if strcmp_eq pointer (chars "W") then set_long (- gpsLongD f)%Q f else f)
           else f in
  let f := if (fieldCounter =? 9)%nat
           then set_date (two_digits pointer 0) (two_digits pointer 2) (two_digits pointer 4) f
           else f in
  f.

(** [*nmeaPart = '\0'] when [nmeaPart] is not NULL. *)
Definition terminate (nmeaPart : option nat) (pointer : list Z) : list Z :=
  match nmeaPart with
  | Some i => <[i := NUL]> pointer
  | None => pointer
  end.

(** The [do ... while (nmeaPart != NULL)] loop of the GPRMC case. [pointer]
    is the memory from the scan pointer on; the result carries that memory
    as the loop leaves it. [pointer] is moved inside the non-empty test. *)
Fixpoint rmc_loop (fuel : nat) (fieldCounter : nat) (pointer : list Z) (f : Fix)
  : option (Fix * list Z) :=
  match fuel with
  | O => None
  | S fuel =>
      let fieldCounter := ((fieldCounter + 1) mod 256)%nat in
      let nmeaPart := strchr pointer ch_comma in
      let pointer := terminate nmeaPart pointer in
      if (0 <? strlen pointer)%nat then
        let f := rmc_field fieldCounter pointer f in
        match nmeaPart with
        | Some i =>
            '(f', rest) ← rmc_loop fuel fieldCounter (drop (S i) pointer) f;
            Some (f', take (S i) pointer ++ rest)
        | None => Some (f, pointer)
        end
      else
        match nmeaPart with
        | Some _ => rmc_loop fuel fieldCounter pointer f
        | None => Some (f, pointer)
        end
  end.

(** The [if (fieldCounter == 7 && strlen(pointer) > 0)] statement of the
    GPGGA scan; the [int] that [atoi] returns is stored to a [byte]. *)
Definition gga_field (fieldCounter : nat) (pointer : list Z) (f : Fix) : Fix :=
  if (fieldCounter =? 7)%nat && (0 <? strlen pointer)%nat
  then set_sats (if gpsValid f then to_byte (atoi pointer) else 0) f
  else f.

(** The loop of the GPGGA case; [pointer] is moved on every pass. *)
Fixpoint gga_loop (fuel : nat) (fieldCounter : nat) (pointer : list Z) (f : Fix)
  : option (Fix * list Z) :=
  match fuel with
  | O => None
  | S fuel =>
      let fieldCounter := ((fieldCounter + 1) mod 256)%nat in
      let nmeaPart := strchr pointer ch_comma in
      let pointer := terminate nmeaPart pointer in
      let f := gga_field fieldCounter pointer f in
      match nmeaPart with
      | Some i =>
          '(f', rest) ← gga_loop fuel fieldCounter (drop (S i) pointer) f;
          Some (f', take (S i) pointer ++ rest)
      | None => Some (f, pointer)
      end
  end.

(** [rest] preceded by the fields [fs], each followed by a comma. *)
Definition fields_then (fs : list (list Z)) (rest : list Z) : list Z :=
  foldr (fun fld acc => fld ++ ch_comma :: acc) rest fs.

(** A field holds neither a comma nor a NUL. *)
Definition field_chars (fld : list Z) : Prop :=
  Forall (fun c => c <> NUL /\ c <> ch_comma) fld.

(** A non-empty field. *)
Definition filled (fld : list Z) : Prop := fld <> [] /\ field_chars fld.

Definition time_of (f : Fix) : Z * Z * Z := (gpsTimeH f, gpsTimeM f, gpsTimeS f).

Definition nmeaType1 : list Z := chars "GPRMC".
Definition nmeaType2 : list Z := chars "GPGGA".

(** [parseSentence] on the record buffer [sentence] and the Fix; the result
    is the new Fix and the buffer with the delimiters overwritten. Every
    pass of a scan loop that is followed by another one overwrites a comma,
    so [length sentence + 1] passes are enough. *)
Definition parseSentence (sentence : list Z) (f : Fix) : option (Fix * list Z) :=
  match strchr sentence ch_comma with
  | Some i =>
      let sentence := <[i := NUL]> sentence in
      if strcmp_eq sentence nmeaType1 then
        '(f', rest) ← rmc_loop (S (length sentence)) 0 (drop (S i) sentence) f;
        Some (f', take (S i) sentence ++ rest)
      else if strcmp_eq sentence nmeaType2 then
        '(f', rest) ← gga_loop (S (length sentence)) 0 (drop (S i) sentence) f;
        Some (f', take (S i) sentence ++ rest)
      else Some (f, sentence)
  | None => Some (f, sentence)
  end.

End Parser.

(** ** The timezone / calendar block of [loop] (lines 150-193) *)

Module Calendar.

Definition daysInMonth : list Z := [0; 31; 28; 31; 30; 31; 30; 31; 31; 30; 31; 30; 31].

(** [daysInMonth[m]]; the table has 13 entries, a read outside it is
    undefined in C and yields 0 here. *)
Definition table (m : Z) : Z :=
  if m <? 0 then 0 else nth (Z.to_nat m) daysInMonth 0.

(** The hour rollover: [(h, d)] after the first [if]. *)
Definition hour_rollover (h d : Z) : Z * Z :=
  if 24 <=? h then (h - 24, d + 1)
  else if h <? 0 then (h + 24, d - 1)
  else (h, d).

(** The day/month/year rollover on the signed locals. *)
Definition date_rollover (isLeap : bool) (d m y : Z) : Z * Z * Z :=
  if 0 <? d then
    let maxDays := to_byte (if (m =? 2) && isLeap then 29 else table m) in
    if maxDays <? d then
      let d := 1 in
      let m := m + 1 in
      if 12 <? m then
        let m := 1 in
        let y := y + 1 in
        if 99 <? y then (d, m, 0) else (d, m, y)
      else (d, m, y)
    else (d, m, y)
  else
    let m := m - 1 in
    let '(m, y) :=
      if m <? 1 then (12, if y - 1 <? 0 then 99 else y - 1) else (m, y) in
    let d := if (m =? 2) && isLeap then 29 else table m in
    (d, m, y).

(** The whole block, for a timezone offset [tz] (the macro [TZOFFSET]). *)
Definition tz_adjust (tz : Z) (f : Fix) : Fix :=
  let h := gpsTimeH f + tz in
  let d := gpsDateD f in
  let m := gpsDateM f in
  let y := gpsDateY f in
  let '(h, d) := hour_rollover h d in
  let isLeap := Z.rem y 4 =? 0 in
  let '(d, m, y) := date_rollover isLeap d m y in
  set_time (to_byte h) (gpsTimeM f) (gpsTimeS f)
    (set_date (to_byte d) (to_byte m) (to_byte y) f).

(** *** The calendar in the words of the specification *)

Definition days_in_month (y m : Z) : Z :=
  if m =? 2 then (if y mod 4 =? 0 then 29 else 28)
  else if (m =? 4) || (m =? 6) || (m =? 9) || (m =? 11) then 30
  else 31.

Definition valid_date (f : Fix) : Prop :=
  1 <= gpsDateM f <= 12 /\
  1 <= gpsDateD f <= days_in_month (gpsDateY f) (gpsDateM f) /\
  0 <= gpsDateY f <= 99.

(** One calendar day forward: [(day, month, year)]. *)
Definition next_day (d m y : Z) : Z * Z * Z :=
  if d + 1 <=? days_in_month y m then (d + 1, m, y)
  else if m + 1 <=? 12 then (1, m + 1, y)
  else if y + 1 <=? 99 then (1, 1, y + 1)
  else (1, 1, 0).

(** One calendar day back. *)
Definition prev_day (d m y : Z) : Z * Z * Z :=
  if 1 <=? d - 1 then (d - 1, m, y)
  else if 1 <=? m - 1 then (days_in_month y (m - 1), m - 1, y)
  else if 0 <=? y - 1 then (days_in_month (y - 1) 12, 12, y - 1)
  else (days_in_month 99 12, 12, 99).

Definition date_of (f : Fix) : Z * Z * Z := (gpsDateD f, gpsDateM f, gpsDateY f).

Definition with_date (dmy : Z * Z * Z) (f : Fix) : Fix :=
  let '(d, m, y) := dmy in set_date d m y f.

Definition with_hour (h : Z) (f : Fix) : Fix :=
  set_time h (gpsTimeM f) (gpsTimeS f) f.

End Calendar.

(** ** The ring buffer and the interrupt service routine *)

Record Ring : Type := mkRing {
  gpsDataBuffer : list Z;
  bufferHead : nat;
  bufferTail : nat;
  bufferOverflow : bool
}.

Module RingBuffer.

Definition ring0 : Ring := mkRing (replicate GPSBUFR1 0) 0 0 false.

(** One pass of the [while (Serial1.available() > 0)] loop of
    [gpsDataReadISR], for the byte [c] that [Serial1.read()] returns. *)
Definition push (c : Z) (r : Ring) : Ring :=
  let newBufferHead := ((bufferHead r + 1) mod GPSBUFR1)%nat in
  if (newBufferHead =? bufferTail r)%nat then
    mkRing (gpsDataBuffer r) (bufferHead r) (bufferTail r) true
  else
    mkRing (<[bufferHead r := to_byte c]> (gpsDataBuffer r)) newBufferHead
           (bufferTail r) (bufferOverflow r).

(** The data part of [gpsDataReadISR]: every byte the UART holds. *)
Definition gpsDataReadISR (incoming : list Z) (r : Ring) : Ring :=
  fold_left (fun r c => push c r) incoming r.

(** [bufferTail = (bufferTail + 1) % GPSBUFR1] *)
Definition advance_tail (r : Ring) : Ring :=
  mkRing (gpsDataBuffer r) (bufferHead r) ((bufferTail r + 1) mod GPSBUFR1)%nat
         (bufferOverflow r).

(** [gpsDataBuffer[bufferTail]] *)
Definition at_tail (r : Ring) : Z := nth (bufferTail r) (gpsDataBuffer r) 0.

Definition full (r : Ring) : Prop :=
  ((bufferHead r + 1) mod GPSBUFR1)%nat = bufferTail r.


(** The number of slots from index [a] up to index [b], going round. *)
Definition dist (a b : nat) : nat := ((b + GPSBUFR1 - a) mod GPSBUFR1)%nat.

(** The bytes stored and not yet read, oldest first. *)
Definition pending (r : Ring) : list Z :=
  map (fun i => nth ((bufferTail r + i) mod GPSBUFR1)%nat (gpsDataBuffer r) 0)
      (seq 0 (dist (bufferTail r) (bufferHead r))).

Definition wf (r : Ring) : Prop :=
  length (gpsDataBuffer r) = GPSBUFR1 /\
  (bufferHead r < GPSBUFR1)%nat /\ (bufferTail r < GPSBUFR1)%nat.

End RingBuffer.

(** ** Producer and consumer as interleaved atomic steps

    The consumer side is the drain loop of [getSentence], cut at every point
    where the timer interrupt can come in: the snapshot of [bufferHead]
    (taken with interrupts off), the loop test with the read of
    [gpsDataBuffer[bufferTail]], the store to [bufferTail], and the exit from
    the loop. *)

Module Interleaving.
Import RingBuffer.

Inductive pc : Type :=
| Idle                      (* outside the drain loop *)
| Looping                   (* at the test of the [while] *)
| Holding (character : Z).  (* [character] read, [bufferTail] not yet moved *)

Inductive event : Type :=
| Push (c : Z)              (* the ISR stores or drops one byte *)
| Snapshot                  (* [bufferHeadCopy = bufferHead] *)
| Fetch                     (* loop test and [character = gpsDataBuffer[bufferTail]] *)
| Advance                   (* [bufferTail = (bufferTail + 1) % GPSBUFR1] *)
| Leave.                    (* [break] *)

Record Sys : Type := mkSys {
  sring : Ring;
  bufferHeadCopy : nat;
  at_pc : pc;
  observed : list Z         (* the values [character] took, in order *)
}.


(** An event that is not enabled at the consumer's program point leaves
    the system as it is. *)
Definition step (s : Sys) (e : event) : Sys :=
  match e, at_pc s with
  | Push c, _ => mkSys (push c (sring s)) (bufferHeadCopy s) (at_pc s) (observed s)
  | Snapshot, Idle => mkSys (sring s) (bufferHead (sring s)) Looping (observed s)
  | Fetch, Looping =>
      if (bufferTail (sring s) =? bufferHeadCopy s)%nat
      then mkSys (sring s) (bufferHeadCopy s) Idle (observed s)
      else mkSys (sring s) (bufferHeadCopy s) (Holding (at_tail (sring s))) (observed s)
  | Advance, Holding c =>
      mkSys (advance_tail (sring s)) (bufferHeadCopy s) Looping (observed s ++ [c])
  | Leave, Looping => mkSys (sring s) (bufferHeadCopy s) Idle (observed s)
  | _, _ => s
  end.

Definition run (s : Sys) (sched : list event) : Sys := fold_left step sched s.

(** The bytes handed to the ISR, in order, as the [char]s it stores. *)
Fixpoint pushes (sched : list event) : list Z :=
  match sched with
  | Push c :: sched' => to_byte c :: pushes sched'
  | _ :: sched' => pushes sched'
  | [] => []
  end.








End Interleaving.

(** ** [getSentence] and [loop] *)

Inductive SerialMsg : Type :=
| MsgBufferOverflow              (* "SYSTEM ERROR: GPS Buffer Overflow ..." *)
| MsgCrcErrorCount (count : Z).  (* "CRC Error Count: " and the counter *)

Record Framer : Type := mkFramer {
  sentence : list Z;
  dataStart : bool;
  dataStop : bool;
  dataCounter : nat
}.

Record Diag : Type := mkDiag {
  checksumErrors : Z;
  lastFixMillis : Z;
  serial : list SerialMsg
}.

Record State : Type := mkState {
  ring : Ring;
  framer : Framer;
  gps : Fix;
  diag : Diag
}.

Module Acquisition.
Import CString RingBuffer.

Definition framer0 : Framer := mkFramer (replicate (S NMEAMAXLEN) 0) false false 0.
Definition diag0 : Diag := mkDiag 0 0 [].
Definition state0 : State := mkState ring0 framer0 fix0 diag0.

(** The body of the drain loop below the two ring-buffer statements, for
    the byte [character]; the flag tells whether [break] was taken. *)
Definition frame_char (character : Z) (fr : Framer) : Framer * bool :=
  if character =? ch_dollar then
    (mkFramer (sentence fr) true false 0, false)
  else if dataStart fr then
    if (character =? ch_CR) || (character =? ch_LF)
       || (dataCounter fr =? NMEAMAXLEN)%nat then
      (mkFramer (<[dataCounter fr := NUL]> (sentence fr)) (dataStart fr) true
                (dataCounter fr), true)
    else
      (mkFramer (<[dataCounter fr := character]> (sentence fr)) (dataStart fr)
                (dataStop fr) ((dataCounter fr + 1) mod 256)%nat, false)
  else (fr, false).

(** [while (bufferTail != bufferHeadCopy) { ... }] *)
Fixpoint drain (fuel : nat) (bufferHeadCopy : nat) (r : Ring) (fr : Framer)
  : option (Ring * Framer) :=
  match fuel with
  | O => None
  | S fuel =>
      if (bufferTail r =? bufferHeadCopy)%nat then Some (r, fr)
      else
        let character := at_tail r in
        let r := advance_tail r in
        let '(fr, stop) := frame_char character fr in
        if stop then Some (r, fr) else drain fuel bufferHeadCopy r fr
  end.

(** The XOR of the bytes of the data part, in a [byte]. *)
Definition xor_bytes (s : list Z) : Z :=
  fold_left (fun ck c => to_byte (Z.lxor ck (to_byte c))) s 0.

(** What the validation block decides. *)
Inductive verdict : Type :=
| Accepted        (* checksums agree: [dataValid = true] *)
| CrcMismatch     (* checksums differ: the error branch *)
| NoChecksum.     (* a NULL token or a checksum of fewer than two characters *)

(** The validation block of [getSentence] on the record buffer: the two
    [strtok] calls, the length test and the comparison. The result carries
    the buffer as [strtok] leaves it. *)
Definition validate (sentence : list Z) : verdict * list Z :=
  match strtok sentence with
  | Some (d, mem1, next) =>
      match strtok (drop next mem1) with
      | Some (c, rest, _) =>
          let mem2 := take next mem1 ++ rest in
          let nmeaData := drop d mem2 in
          let nmeaCkSum := drop c rest in
          if (2 <=? strlen nmeaCkSum)%nat then
            let ckSumCalc := xor_bytes (cstr nmeaData) in
            let ckSumComp :=
              to_byte (Z.shiftl (htoi (at_ nmeaCkSum 0)) 4 + htoi (at_ nmeaCkSum 1)) in
            if ckSumCalc =? ckSumComp then (Accepted, mem2) else (CrcMismatch, mem2)
          else (NoChecksum, mem2)
      | None => (NoChecksum, mem1)
      end
  | None => (NoChecksum, sentence)
  end.

(** The effect of a verdict on the counters and the serial port; [now] is
    what [millis()] returns. *)
Definition record_verdict (now : Z) (v : verdict) (dg : Diag) : Diag :=
  match v with
  | Accepted => mkDiag (checksumErrors dg) now (serial dg)
  | CrcMismatch =>
      let n := (checksumErrors dg + 1) mod 2 ^ 32 in
      mkDiag n (lastFixMillis dg) (serial dg ++ [MsgCrcErrorCount n])
  | NoChecksum => dg
  end.

Definition is_accepted (v : verdict) : bool :=
  match v with Accepted => true | _ => false end.

(** [bool getSentence()]; the ring buffer has [GPSBUFR1] slots, so the
    drain loop makes fewer than [GPSBUFR1] passes. *)
Definition getSentence (now : Z) (st : State) : option (bool * State) :=
  let bufferHeadCopy := bufferHead (ring st) in
  '(r, fr) ← drain (S GPSBUFR1) bufferHeadCopy (ring st) (framer st);
  if dataStart fr && dataStop fr then
    let '(v, mem) := validate (sentence fr) in
    Some (is_accepted v,
          mkState r (mkFramer mem false false 0) (gps st)
                  (record_verdict now v (diag st)))
  else Some (false, mkState r fr (gps st) (diag st)).

(** The framing phase of [getSentence]: the snapshot and the drain loop. *)
Definition framed (st : State) : option (Ring * Framer) :=
  drain (S GPSBUFR1) (bufferHead (ring st)) (ring st) (framer st).

(** The framer holds a complete record: [dataStart && dataStop]. *)
Definition complete (fr : Framer) : bool := dataStart fr && dataStop fr.

(** Step 1 of [loop()]: the overflow flag is read and cleared with
    interrupts off, and reported. *)
Definition take_overflow (st : State) : State :=
  if bufferOverflow (ring st) then
    mkState (mkRing (gpsDataBuffer (ring st)) (bufferHead (ring st))
                    (bufferTail (ring st)) false)
            (framer st) (gps st)
            (mkDiag (checksumErrors (diag st)) (lastFixMillis (diag st))
                    (serial (diag st) ++ [MsgBufferOverflow]))
  else st.

(** Steps 1 and 2 of [loop()], for the timezone offset [tz] (the macro
    [TZOFFSET]). The two display routines and the no-data banner of step 3
    read these globals and write none of them; they are left out. *)
Definition loop (tz now : Z) (st : State) : option State :=
  let st := take_overflow st in
  '(ok, st) ← getSentence now st;
  if ok : bool then
    '(f, mem) ← Parser.parseSentence (sentence (framer st)) (gps st);
    Some (mkState (ring st)
                  (mkFramer mem (dataStart (framer st)) (dataStop (framer st))
                            (dataCounter (framer st)))
                  (Calendar.tz_adjust tz f) (diag st))
  else Some st.

(** The ISR delivers [incoming], then [loop()] runs once. *)
Definition feed_then_loop (tz now : Z) (incoming : list Z) (st : State) : option State :=
  loop tz now (mkState (gpsDataReadISR incoming (ring st)) (framer st) (gps st) (diag st)).

(** *** The record format in the words of the specification *)

(** The characters [0-9], [A-F] and [a-f]. *)
Definition is_hex_char (c : Z) : bool :=
  ((48 <=? c) && (c <=? 57)) || ((65 <=? c) && (c <=? 70)) || ((97 <=? c) && (c <=? 102)).

(** A string without NUL and without the checksum delimiter. *)
Definition plain (s : list Z) : Prop :=
  Forall (fun c => c <> NUL /\ c <> ch_star) s.

(** The value of the two checksum characters [c0 c1]. *)
Definition decode_hex (c0 c1 : Z) : Z := to_byte (htoi c0 * 16 + htoi c1).

(** A nibble as an upper-case or lower-case hexadecimal digit. *)
Definition hex_digit (upper : bool) (n : Z) : Z :=
  if n <? 10 then 48 + n else (if upper then 65 else 97) + (n - 10).

(** [payload*HH] followed by the terminating NUL of the record buffer. *)
Definition record_of (upper : bool) (payload : list Z) : list Z :=
  let ck := xor_bytes payload in
  payload ++ [ch_star; hex_digit upper (ck / 16); hex_digit upper (ck mod 16)] ++ [NUL].

End Acquisition.

(** ** Sample records and the vocabulary of the statements *)

Module Samples.
Import Parser Calendar Acquisition.

(** The payload of the specification's example record. *)
Definition rmc_example : list Z :=
  chars "GPRMC,123519,A,4807.038,N,01131.000,E,,,230394,,,A".

Definition rmc_full_example : list Z :=
  chars "GPRMC,123519,A,4807.038,N,01131.000,E,022.4,084.4,230394,003.1,W".

Definition gga_example : list Z :=
  chars "GPGGA,123519,4807.038,N,01131.000,E,1,08,0.9,545.4,M,46.9,M,,".

(** [$payload*HH<CR><LF>] as the receiver sends it. *)
Definition wire (payload : list Z) : list Z :=
  ch_dollar :: removelast (record_of true payload) ++ [ch_CR; ch_LF].

(** The outputs of the GPRMC fields at the positions after [k] are in [f']
    what they are in [f]: the time comes from field 1, the validity flag
    from field 2, the latitude from fields 3 and 4, the longitude from
    fields 5 and 6, the date from field 9; no GPRMC field gives the
    satellite count. *)
Definition unchanged_after (k : nat) (f f' : Fix) : Prop :=
  ((k < 9)%nat -> date_of f' = date_of f) /\
  ((k < 5)%nat -> gpsLongD f' = gpsLongD f) /\
  ((k < 3)%nat -> gpsLatD f' = gpsLatD f) /\
  ((k < 2)%nat -> gpsValid f' = gpsValid f) /\
  ((k < 1)%nat -> time_of f' = time_of f) /\
  gpsSats f' = gpsSats f.

End Samples.

(** ** The byte stream between the interrupt routine and the framer *)

Module Stream.
Import CString RingBuffer Acquisition.

(** The free slots of the ring buffer: one slot of the array stays empty. *)
Definition room (r : Ring) : nat :=
  (GPSBUFR1 - 1 - dist (bufferTail r) (bufferHead r))%nat.

(** The drain loop of [getSentence] on the list of the bytes it reads: the
    framer the loop leaves and the bytes it has not read. *)
Fixpoint frame_list (bs : list Z) (fr : Framer) : Framer * list Z :=
  match bs with
  | [] => (fr, [])
  | character :: bs' =>
      let '(fr', stop) := frame_char character fr in
      if stop then (fr', bs') else frame_list bs' fr'
  end.

(** The record buffer has its [NMEAMAXLEN + 1] bytes and the framer's cursor
    is inside it. *)
Definition framer_ok (fr : Framer) : Prop :=
  length (sentence fr) = S NMEAMAXLEN /\ (dataCounter fr <= NMEAMAXLEN)%nat.

(** The indices of the ring buffer and the cursor of the framer are inside
    their arrays, which have their declared sizes. *)
Definition state_ok (st : State) : Prop := wf (ring st) /\ framer_ok (framer st).

(** A byte the framer stores: not the start marker, not a line end. *)
Definition storable (c : Z) : Prop := c <> ch_dollar /\ c <> ch_CR /\ c <> ch_LF.

(** A value a [char] can hold. *)
Definition is_byte (c : Z) : Prop := 0 <= c < 256.

End Stream.

(** ** The accesses by index, bounds-checked

    The interrupt routine stores to [gpsDataBuffer[bufferHead]]; the drain
    loop of [getSentence] reads [gpsDataBuffer[bufferTail]] and stores to
    [sentence[dataCounter]]. Here these accesses fail when the index is
    outside the array; everything else is as in [RingBuffer] and
    [Acquisition]. *)

Module Checked.
Import CString RingBuffer Acquisition.

(** [a[i] = x]; [None] when [i] is outside the array [a]. *)
Definition store (i : nat) (x : Z) (a : list Z) : option (list Z) :=
  if (i <? length a)%nat then Some (<[i := x]> a) else None.

(** [a[i]]; [None] when [i] is outside the array [a]. *)
Definition load (i : nat) (a : list Z) : option Z := a !! i.

(** One pass of the [while (Serial1.available() > 0)] loop. *)
Definition push_checked (c : Z) (r : Ring) : option Ring :=
  let newBufferHead := ((bufferHead r + 1) mod GPSBUFR1)%nat in
  if (newBufferHead =? bufferTail r)%nat then
    Some (mkRing (gpsDataBuffer r) (bufferHead r) (bufferTail r) true)
  else
    buffer ← store (bufferHead r) (to_byte c) (gpsDataBuffer r);
    Some (mkRing buffer newBufferHead (bufferTail r) (bufferOverflow r)).

(** The data part of [gpsDataReadISR]. *)
Fixpoint gpsDataReadISR_checked (incoming : list Z) (r : Ring) : option Ring :=
  match incoming with
  | [] => Some r
  | c :: incoming' => r' ← push_checked c r; gpsDataReadISR_checked incoming' r'
  end.

(** The body of the drain loop below the two ring-buffer statements. *)
Definition frame_char_checked (character : Z) (fr : Framer) : option (Framer * bool) :=
  if character =? ch_dollar then
    Some (mkFramer (sentence fr) true false 0, false)
  else if dataStart fr then
    if (character =? ch_CR) || (character =? ch_LF)
       || (dataCounter fr =? NMEAMAXLEN)%nat then
      buffer ← store (dataCounter fr) NUL (sentence fr);
      Some (mkFramer buffer (dataStart fr) true (dataCounter fr), true)
    else
      buffer ← store (dataCounter fr) character (sentence fr);
      Some (mkFramer buffer (dataStart fr) (dataStop fr)
                     ((dataCounter fr + 1) mod 256)%nat, false)
  else Some (fr, false).

(** [while (bufferTail != bufferHeadCopy) { ... }] *)
Fixpoint drain_checked (fuel : nat) (bufferHeadCopy : nat) (r : Ring) (fr : Framer)
  : option (Ring * Framer) :=
  match fuel with
  | O => None
  | S fuel =>
      if (bufferTail r =? bufferHeadCopy)%nat then Some (r, fr)
      else
        character ← load (bufferTail r) (gpsDataBuffer r);
        let r := advance_tail r in
        '(fr, stop) ← frame_char_checked character fr;
        if stop : bool then Some (r, fr) else drain_checked fuel bufferHeadCopy r fr
  end.

(** The framing phase of [getSentence]: the snapshot and the drain loop. *)
Definition framed_checked (st : State) : option (Ring * Framer) :=
  drain_checked (S GPSBUFR1) (bufferHead (ring st)) (ring st) (framer st).

End Checked.

(** ** Stores into the record buffer *)

Module Memory.

(** [m'] is [m] with some occurrences of the byte [ch] overwritten by NUL. *)
Definition overwritten (ch : Z) (m m' : list Z) : Prop :=
  Forall2 (fun a b => b = a \/ (a = ch /\ b = NUL)) m m'.

End Memory.

(** ** What the fields of a GPRMC record stand for *)

Module RmcRecord.
Import CString Parser.

(** Field 3 read as [DDMM.MMMM]: two degree digits and the minutes over 60
    (line 341). *)
Definition latitude_of (fld : list Z) : Q :=
  (inject_Z (dtoi (at_ fld 0) * 10 + dtoi (at_ fld 1)) + atof (drop 2 fld) / 60)%Q.

(** Field 5 read as [DDDMM.MMMM]: three degree digits and the minutes over
    60 (line 350). *)
Definition longitude_of (fld : list Z) : Q :=
  (inject_Z (dtoi (at_ fld 0) * 100 + dtoi (at_ fld 1) * 10 + dtoi (at_ fld 2))
   + atof (drop 3 fld) / 60)%Q.

(** A character of plain decimal notation: a decimal digit or the point. *)
Definition decimal_char (c : Z) : Prop := 48 <= c <= 57 \/ c = 46.

(** Three two-digit numbers at the head of a field: [HHMMSS] or [DDMMYY]. *)
Definition triple_of (fld : list Z) : Z * Z * Z :=
  (two_digits fld 0, two_digits fld 2, two_digits fld 4).

End RmcRecord.

(** ** Ranges of the Fix *)

Module Ranges.
Import Calendar.

(** The two-digit fields of the Fix hold two decimal digits and the
    satellite count a byte. *)
Definition fix_in_range (f : Fix) : Prop :=
  0 <= gpsTimeH f <= 99 /\ 0 <= gpsTimeM f <= 99 /\ 0 <= gpsTimeS f <= 99 /\
  0 <= gpsDateD f <= 99 /\ 0 <= gpsDateM f <= 99 /\ 0 <= gpsDateY f <= 99 /\
  0 <= gpsSats f <= 255.

(** A calendar date of the years 2000 to 2099, as a triple. *)
Definition valid_dmy (dmy : Z * Z * Z) : Prop :=
  let '(d, m, y) := dmy in
  1 <= m <= 12 /\ 1 <= d <= days_in_month y m /\ 0 <= y <= 99.

End Ranges.

(** ** The heartbeat LED (lines 66-74 of [gpsDataReadISR]) *)

Module Heartbeat.

Definition HBCOUNTER : nat := 250.

(** The two statics of the routine. *)
Record Led : Type := mkLed { hbCounter : nat; ledStatus : bool }.

(** [hbCounter = 0] and [ledStatus = LOW] *)
Definition led0 : Led := mkLed 0 false.

(** One call of the routine: the statics it leaves and what it hands to
    [digitalWrite], if anything. *)
Definition beat (l : Led) : Led * list bool :=
  let hbCounter := ((hbCounter l + 1) mod HBCOUNTER)%nat in
  if (hbCounter =? 0)%nat then
    let ledStatus := negb (ledStatus l) in
    (mkLed hbCounter ledStatus, [ledStatus])
  else (mkLed hbCounter (ledStatus l), []).

(** [n] calls in a row. *)
Fixpoint beats (n : nat) (l : Led) : Led * list bool :=
  match n with
  | O => (l, [])
  | S n' =>
      let '(l1, w1) := beat l in
      let '(l2, w2) := beats n' l1 in
      (l2, w1 ++ w2)
  end.

End Heartbeat.

(** ** The serial monitor: [serPrint2d] and [showGPSDateTime] *)

(** What a [Print] device is handed: characters, or a [double] to be
    printed with five decimals. *)
Inductive PrintOut : Type :=
| Chars (cs : list Z)
| Real (x : Q).

Module Console.
Import CString Parser.

(** [Print::printNumber] in base 10: the digits are produced from the last
    one, at least one of them; a [byte] has at most three. *)
Fixpoint printNumber (fuel : nat) (n : Z) (str : list Z) : list Z :=
  match fuel with
  | O => str
  | S fuel' =>
      let str := (n mod 10 + 48) :: str in
      if n / 10 =? 0 then str else printNumber fuel' (n / 10) str
  end.

(** [print] of a string literal, [print] of a [byte], and the line end that
    [println] adds. *)
Definition say (s : string) : PrintOut := Chars (chars s).
Definition num (n : Z) : PrintOut := Chars (printNumber 3 n []).
Definition newline : PrintOut := Chars [ch_CR; ch_LF].

(** The degree sign of the source file, two bytes of UTF-8. *)
Definition degree : string := String "194" (String "176" EmptyString).

(** [void serPrint2d(byte number)]: the characters sent. *)
Definition serPrint2d (number : Z) : list Z :=
  (if number <? 10 then chars "0" else []) ++ printNumber 3 number [].

(** [void serPrint2dln(byte number)] *)
Definition serPrint2dln (number : Z) : list Z := serPrint2d number ++ [ch_CR; ch_LF].

(** The statics of [showGPSDateTime]. *)
Record Shown : Type := mkShown { noSignal : bool; pastTimeS : Z; pastSats : Z }.

Definition shown0 : Shown := mkShown false 255 0.

(** [void showGPSDateTime(void)]: the statics it leaves and what it sends
    to the serial monitor. *)
Definition showGPSDateTime (f : Fix) (sh : Shown) : Shown * list PrintOut :=
  if gpsValid f then
    if negb (gpsTimeS f =? pastTimeS sh) then
      (mkShown false (gpsTimeS f) (gpsSats f),
       [say "Sats: "; num (gpsSats f)]
         ++ (if negb (pastSats sh =? gpsSats f)
             then [say "  (Was: "; num (pastSats sh); say ")"; newline]
             else [newline])
         ++ [say "Date: "; Chars (serPrint2d (gpsDateD f)); say "/";
             Chars (serPrint2d (gpsDateM f)); say "/20";
             Chars (serPrint2d (gpsDateY f));
             say "  Time: "; Chars (serPrint2d (gpsTimeH f)); say ":";
             Chars (serPrint2d (gpsTimeM f)); say ":";
             Chars (serPrint2dln (gpsTimeS f));
             say " Lat: "; Real (gpsLatD f);
             say (degree ++ "  Long: "); Real (gpsLongD f);
             say degree; newline])
    else (mkShown false (pastTimeS sh) (pastSats sh), [])
  else
    if negb (noSignal sh) then
      (mkShown true 255 0, [say "No signal!"; newline])
    else (sh, []).

(** [showGPSDateTime] called for one Fix after the other. *)
Fixpoint show_run (fs : list Fix) (sh : Shown) : Shown * list PrintOut :=
  match fs with
  | [] => (sh, [])
  | f :: fs' =>
      let '(sh1, out1) := showGPSDateTime f sh in
      let '(sh2, out2) := show_run fs' sh1 in
      (sh2, out1 ++ out2)
  end.

(** An ASCII decimal digit. *)
Definition is_digit (c : Z) : Prop := 48 <= c <= 57.

End Console.

(** ** The OLED display: [oledPrint2d] and [displayGPSDateTime] *)

Inductive Color : Type := SSD1306_WHITE | SSD1306_BLACK.

(** The calls made on [myDisplay]. *)
Inductive OledCall : Type :=
| clearDisplay
| fillTriangle (x0 y0 x1 y1 x2 y2 : Z) (color : Color)
| drawRect (x y w h : Z) (color : Color)
| fillRect (x y w h : Z) (color : Color)
| drawFastHLine (x y w : Z) (color : Color)
| setTextColor (c bg : Color)
| setTextSize (s : Z)
| setCursor (x y : Z)
| print (o : PrintOut)
| write (c : Z)
| display.

Module Oled.
Import Console.

(** [void oledPrint2d(byte number)]: the characters sent. *)
Definition oledPrint2d (number : Z) : list Z :=
  (if number <? 10 then chars "0" else []) ++ printNumber 3 number [].

(** [void oledPrint2dln(byte number)] *)
Definition oledPrint2dln (number : Z) : list Z := oledPrint2d number ++ [ch_CR; ch_LF].

(** The statics of [displayGPSDateTime]. *)
Record Drawn : Type := mkDrawn { noSignal : bool; pastTimeS : Z }.

Definition drawn0 : Drawn := mkDrawn false 255.

(** The heartbeat triangle: left on even seconds, right on odd ones. *)
Definition triangle (gpsTimeS : Z) : OledCall :=
  if gpsTimeS mod 2 =? 0 then fillTriangle 0 0 5 0 0 5 SSD1306_WHITE
  else fillTriangle 127 0 122 0 127 5 SSD1306_WHITE.

(** The satellite count in the margin (lines 501-513). *)
Definition sats_cell (gpsSats : Z) : list OledCall :=
  if (0 <=? gpsSats) && (gpsSats <? 10) then
    [setCursor 108 40; print (num gpsSats)]
  else if (10 <=? gpsSats) && (gpsSats <? 100) then
    [setCursor 102 40; print (num gpsSats)]
  else
    [setCursor 108 40; print (say "+")].

(** [void displayGPSDateTime(void)]: the statics it leaves and the calls it
    makes on the display. *)
Definition displayGPSDateTime (f : Fix) (dr : Drawn) : Drawn * list OledCall :=
  if gpsValid f then
    if negb (gpsTimeS f =? pastTimeS dr) then
      (mkDrawn false (gpsTimeS f),
       [clearDisplay; triangle (gpsTimeS f);
        setTextColor SSD1306_WHITE SSD1306_BLACK;
        setTextSize 2; setCursor 16 0; print (say "GPS DATA"); print newline;
        drawFastHLine 0 18 128 SSD1306_WHITE;
        setTextSize 1; setCursor 0 22;
        print (say "Date: "); print (Chars (oledPrint2d (gpsDateD f)));
        print (say "/"); print (Chars (oledPrint2d (gpsDateM f)));
        print (say "/20"); print (Chars (oledPrint2dln (gpsDateY f)));
        print (say "Time:  "); print (Chars (oledPrint2d (gpsTimeH f)));
        print (say ":"); print (Chars (oledPrint2d (gpsTimeM f)));
        print (say ":"); print (Chars (oledPrint2dln (gpsTimeS f)));
        print newline;
        print (say " Lat: "); print (Real (gpsLatD f)); write 248; print newline;
        print (say "Long: "); print (Real (gpsLongD f)); write 248; print newline;
        setTextSize 1; setCursor 102 30; print (say "SATS"); setTextSize 2]
         ++ sats_cell (gpsSats f)
         ++ [drawFastHLine 0 63 128 SSD1306_WHITE; display])
    else (mkDrawn false (pastTimeS dr), [])
  else
    if negb (noSignal dr) then
      (mkDrawn true (pastTimeS dr),
       [clearDisplay; triangle (gpsTimeS f);
        drawRect 6 20 116 24 SSD1306_WHITE; fillRect 6 20 116 24 SSD1306_WHITE;
        setTextSize 2; setCursor 10 24;
        setTextColor SSD1306_BLACK SSD1306_WHITE;
        print (say "NO SIGNAL"); print newline; display])
    else (dr, []).

(** [displayGPSDateTime] called for one Fix after the other. *)
Fixpoint display_run (fs : list Fix) (dr : Drawn) : Drawn * list OledCall :=
  match fs with
  | [] => (dr, [])
  | f :: fs' =>
      let '(dr1, out1) := displayGPSDateTime f dr in
      let '(dr2, out2) := display_run fs' dr1 in
      (dr2, out1 ++ out2)
  end.

(** The width in pixels of [n] characters of size-2 text (12 pixels each,
    line 466) and the width of the display. *)
Definition width2 (n : nat) : Z := 12 * Z.of_nat n.
Definition SCRNWDTH : Z := 128.

End Oled.

(** ** Step 3 of [loop]: the lost-stream check *)

Module Watchdog.
Import Console.

Definition GPSLOST : Z := 2000.

(** [millis() - lastFixMillis] in [unsigned long], 32 bits on the target. *)
Definition elapsed (now lastFixMillis : Z) : Z := (now - lastFixMillis) mod 2 ^ 32.

(** Lines 199-217, for the value [now] of [millis()]: the flag
    [signalWarning] it leaves, the calls on the display and what goes to
    the serial monitor. *)
Definition check_signal (now lastFixMillis : Z) (signalWarning : bool)
  : bool * list OledCall * list PrintOut :=
  if GPSLOST <? elapsed now lastFixMillis then
    if negb signalWarning then
      (true,
       [clearDisplay;
        drawRect 6 20 116 24 SSD1306_WHITE; fillRect 6 20 116 24 SSD1306_WHITE;
        setTextSize 2; setTextColor SSD1306_BLACK SSD1306_WHITE;
        setCursor 22 24; print (say "NO DATA"); print newline; display],
       [say "No GPS data!"])
    else (true, [], [])
  else (false, [], []).

(** Step 3 at the end of one pass after the other, at the clock values
    [nows], while no record is accepted. *)
Fixpoint watch_run (nows : list Z) (lastFixMillis : Z) (signalWarning : bool)
  : bool * list OledCall * list PrintOut :=
  match nows with
  | [] => (signalWarning, [], [])
  | now :: nows' =>
      let '(w1, oled1, ser1) := check_signal now lastFixMillis signalWarning in
      let '(w2, oled2, ser2) := watch_run nows' lastFixMillis w1 in
      (w2, oled1 ++ oled2, ser1 ++ ser2)
  end.

End Watchdog.

(** ** Theorems *)

Module CStringFacts.
Import CString.

Lemma cstr_app_nul (s rest : list Z) :
  Forall (fun c => c <> NUL) s -> cstr (s ++ NUL :: rest) = s.
Proof.
  induction 1 as [| c s Hc _ IH]; simpl; [reflexivity |].
  destruct (Z.eqb_spec c NUL); [contradiction | now rewrite IH].
Qed.

Lemma strlen_app_nul (s rest : list Z) :
  Forall (fun c => c <> NUL) s -> strlen (s ++ NUL :: rest) = length s.
Proof. intros H. unfold strlen. now rewrite cstr_app_nul. Qed.

Lemma strchr_app_found (s rest : list Z) (ch : Z) :
  Forall (fun c => c <> NUL /\ c <> ch) s -> ch <> NUL ->
  strchr (s ++ ch :: rest) ch = Some (length s).
Proof.
  intros Hs Hch. induction Hs as [| c s [Hc1 Hc2] _ IH]; simpl.
  - destruct (Z.eqb_spec ch NUL); [contradiction |]. now rewrite Z.eqb_refl.
  - destruct (Z.eqb_spec c NUL); [contradiction |].
    destruct (Z.eqb_spec c ch); [contradiction |]. now rewrite IH.
Qed.

Lemma strchr_app_nul (s rest : list Z) (ch : Z) :
  Forall (fun c => c <> NUL /\ c <> ch) s ->
  strchr (s ++ NUL :: rest) ch = None.
Proof.
  induction 1 as [| c s [Hc1 Hc2] _ IH]; simpl; [reflexivity |].
  destruct (Z.eqb_spec c NUL); [contradiction |].
  destruct (Z.eqb_spec c ch); [contradiction |]. now rewrite IH.
Qed.

Lemma strchr_lt (m : list Z) (ch : Z) (i : nat) :
  strchr m ch = Some i -> (i < length m)%nat.
Proof.
  revert i. induction m as [| c m IH]; simpl; intros i; [discriminate |].
  destruct (c =? NUL); [discriminate |].
  destruct (c =? ch); [intros [= <-]; lia |].
  destruct (strchr m ch) as [j |]; simpl; [| discriminate].
  intros [= <-]. specialize (IH j eq_refl). lia.
Qed.

Lemma insert_middle (s rest : list Z) (x y : Z) :
  <[length s := y]> (s ++ x :: rest) = s ++ y :: rest.
Proof. induction s as [| c s IH]; simpl; [reflexivity | now rewrite IH]. Qed.

Lemma drop_middle (s rest : list Z) (x : Z) :
  drop (S (length s)) (s ++ x :: rest) = rest.
Proof. induction s as [| c s IH]; simpl; [reflexivity | exact IH]. Qed.

Lemma bytes_eqb_refl (a : list Z) : bytes_eqb a a = true.
Proof. induction a as [| x a IH]; simpl; [reflexivity |]. now rewrite Z.eqb_refl. Qed.

End CStringFacts.

Module CalendarFacts.
Import Calendar.

Ltac month_cases m :=
  assert (m = 1 \/ m = 2 \/ m = 3 \/ m = 4 \/ m = 5 \/ m = 6 \/
          m = 7 \/ m = 8 \/ m = 9 \/ m = 10 \/ m = 11 \/ m = 12) as Hm_cases by lia;
  repeat (destruct Hm_cases as [Hm_cases | Hm_cases]); subst m.

Ltac split_tests :=
  repeat match goal with
    | |- context [(?x =? ?y)%Z] => destruct (Z.eqb_spec x y)
    | |- context [(?x <? ?y)%Z] => destruct (Z.ltb_spec x y)
    | |- context [(?x <=? ?y)%Z] => destruct (Z.leb_spec x y)
    end; simpl in *.

Ltac eval_table :=
  repeat match goal with
    | |- context [to_byte (table ?k)] =>
        let v := eval vm_compute in (to_byte (table k)) in
        change (to_byte (table k)) with v
    | |- context [table ?k] =>
        let v := eval vm_compute in (table k) in change (table k) with v
    | |- context [to_byte 29] => change (to_byte 29) with 29
    | |- context [to_byte 28] => change (to_byte 28) with 28
    end.

Lemma to_byte_small x : 0 <= x < 256 -> to_byte x = x.
Proof. intros H. unfold to_byte. apply Z.mod_small; lia. Qed.

Lemma rem_mod_nonneg y : 0 <= y -> Z.rem y 4 = y mod 4.
Proof. intros H. apply Z.rem_mod_nonneg; lia. Qed.

Ltac by_eval := vm_compute; intuition (discriminate || congruence).

Ltac calendar_cases m Hleap :=
  month_cases m; unfold days_in_month in *; simpl in *;
  rewrite ?Hleap in *; eval_table;
  split_tests; unfold with_hour, set_time, set_date; simpl;
  rewrite ?to_byte_small by lia; try reflexivity; try lia.

Lemma tz_forward (tz : Z) (f : Fix) :
  valid_date f -> 0 <= gpsTimeH f <= 23 -> -24 < tz < 24 ->
  24 <= gpsTimeH f + tz ->
  tz_adjust tz f =
    with_date (next_day (gpsDateD f) (gpsDateM f) (gpsDateY f))
              (with_hour (gpsTimeH f + tz - 24) f).
Proof.
  destruct f as [v d m y h mi s la lo sa]; unfold valid_date; simpl.
  intros (Hm & Hd & Hy) Hh Htz Hsum.
  unfold tz_adjust, hour_rollover, next_day, with_date; simpl.
  destruct (Z.leb_spec 24 (h + tz)); [| lia].
  rewrite rem_mod_nonneg by lia.
  unfold date_rollover.
  destruct (y mod 4 =? 0) eqn:Hleap; calendar_cases m Hleap.
Qed.

Lemma tz_backward (tz : Z) (f : Fix) :
  valid_date f -> 0 <= gpsTimeH f <= 23 ->
  -24 <= gpsTimeH f + tz < 0 ->
  tz_adjust tz f =
    with_date (prev_day (gpsDateD f) (gpsDateM f) (gpsDateY f))
              (with_hour (gpsTimeH f + tz + 24) f).
Proof.
  destruct f as [v d m y h mi s la lo sa]; unfold valid_date; simpl.
  intros (Hm & Hd & Hy) Hh Hsum.
  unfold tz_adjust, hour_rollover, prev_day, with_date; simpl.
  destruct (Z.leb_spec 24 (h + tz)); [lia |].
  destruct (Z.ltb_spec (h + tz) 0); [| lia].
  rewrite rem_mod_nonneg by lia.
  unfold date_rollover.
  destruct (y mod 4 =? 0) eqn:Hleap; calendar_cases m Hleap.
Qed.

(** C2: for a valid calendar date, an hour in 0..23 and an offset of
    magnitude below 24 with hour + offset >= 24, the calendar block stores
    hour + offset - 24 and the next calendar day ([next_day]: past the end
    of the month to day 1 of the next month, past December to January of the
    next year, past year 99 to year 0, February having 29 days exactly
    when year mod 4 = 0) and leaves the rest of the Fix alone; 23:00 with
    offset +2 on 31/12/99 gives 01:00 on 01/01/00, and February 28 of a
    year divisible by 4 is followed by February 29. *)
Theorem tz_forward_next_day (tz : Z) (f : Fix) :
  valid_date f -> 0 <= gpsTimeH f <= 23 -> -24 < tz < 24 ->
  24 <= gpsTimeH f + tz ->
  tz_adjust tz f =
    with_date (next_day (gpsDateD f) (gpsDateM f) (gpsDateY f))
              (with_hour (gpsTimeH f + tz - 24) f)
  /\ (gpsTimeH f = 23 -> tz = 2 -> date_of f = (31, 12, 99) ->
      gpsTimeH (tz_adjust tz f) = 1 /\ date_of (tz_adjust tz f) = (1, 1, 0))
  /\ (gpsDateD f = 28 -> gpsDateM f = 2 -> gpsDateY f mod 4 = 0 ->
      date_of (tz_adjust tz f) = (29, 2, gpsDateY f)).
Proof.
  intros Hv Hh Htz Hsum.
  pose proof (tz_forward tz f Hv Hh Htz Hsum) as E.
  split; [exact E |]. rewrite E. clear E.
  destruct f as [v d m y h mi s la lo sa]; unfold date_of; simpl in *.
  split.
  - intros -> -> [= -> -> ->]. split; reflexivity.
  - intros -> -> Hy. unfold next_day, days_in_month. simpl. rewrite Hy. reflexivity.
Qed.

Lemma tz_forward_next_day_witness :
  let f := mkFix true 31 12 99 23 59 58 0 0 7 in
  valid_date f /\ tz_adjust 2 f = mkFix true 1 1 0 1 59 58 0 0 7.
Proof.
  split; [by_eval |].
  apply (tz_forward_next_day 2 (mkFix true 31 12 99 23 59 58 0 0 7)); by_eval.
Defined.

(** C3, as stated, fails: with hour 0 and offset -30 the block adds 24 once
    and stores -6 in a byte, so the hour becomes 250. *)
Lemma tz_backward_unbounded_offset :
  let f := mkFix true 15 6 20 0 0 0 0 0 7 in
  valid_date f /\ 0 <= gpsTimeH f <= 23 /\ gpsTimeH f + -30 < 0 /\
  gpsTimeH (tz_adjust (-30) f) = 250 /\
  tz_adjust (-30) f <>
    with_date (prev_day (gpsDateD f) (gpsDateM f) (gpsDateY f))
              (with_hour (gpsTimeH f + -30 + 24) f).
Proof.
  repeat split; try by_eval.
Qed.

(** C3, amended: for a valid calendar date, an hour in 0..23 and an offset
    with -24 <= hour + offset < 0, the calendar block stores
    hour + offset + 24 and the previous calendar day ([prev_day]: before
    day 1 to the last day of the previous month, before January to December
    of the previous year, before year 0 to year 99, February having 29
    days exactly when year mod 4 = 0) and leaves the rest of the Fix
    alone; 00:00 with offset -5 on 01/01/00 gives 19:00 on 31/12/99. *)
Theorem tz_backward_prev_day (tz : Z) (f : Fix) :
  valid_date f -> 0 <= gpsTimeH f <= 23 ->
  -24 <= gpsTimeH f + tz < 0 ->
  tz_adjust tz f =
    with_date (prev_day (gpsDateD f) (gpsDateM f) (gpsDateY f))
              (with_hour (gpsTimeH f + tz + 24) f)
  /\ (gpsTimeH f = 0 -> tz = -5 -> date_of f = (1, 1, 0) ->
      gpsTimeH (tz_adjust tz f) = 19 /\ date_of (tz_adjust tz f) = (31, 12, 99)).
Proof.
  intros Hv Hh Hsum.
  pose proof (tz_backward tz f Hv Hh Hsum) as E.
  split; [exact E |]. rewrite E. clear E.
  destruct f as [v d m y h mi s la lo sa]; unfold date_of; simpl in *.
  intros -> -> [= -> -> ->]. split; reflexivity.
Qed.

Lemma tz_backward_prev_day_witness :
  let f := mkFix true 1 1 0 0 30 15 0 0 7 in
  valid_date f /\ tz_adjust (-5) f = mkFix true 31 12 99 19 30 15 0 0 7.
Proof.
  split; [by_eval |].
  apply (tz_backward_prev_day (-5) (mkFix true 1 1 0 0 30 15 0 0 7)); by_eval.
Defined.

End CalendarFacts.

Module ParserFacts.
Import CString Parser Calendar Samples CStringFacts.

(** C1: on the example payload [parseSentence] sets 12:35:19, the validity
    flag, latitude 48.1173 and longitude 11.5167 (to four decimals), but
    the scan stops at the empty field 7 and the date keeps the value it
    had: field 9, 230394, is never read. From the start-up Fix the date
    stays 0/0/0. *)
Theorem rmc_example_parse (f : Fix) (after : list Z) :
  (exists f',
      fst <$> parseSentence (rmc_example ++ NUL :: after) f = Some f' /\
      time_of f' = (12, 35, 19) /\
      gpsValid f' = true /\
      (gpsLatD f' == 48.1173)%Q /\
      (11.5166 < gpsLongD f')%Q /\ (gpsLongD f' < 11.5168)%Q /\
      date_of f' = date_of f) /\
  (date_of ∘ fst) <$> parseSentence (rmc_example ++ [NUL]) fix0 = Some (0, 0, 0).
Proof.
  split; [| vm_compute; reflexivity].
  eexists. split; [vm_compute; reflexivity |].
  repeat split; vm_compute; congruence.
Qed.

Lemma comma_not_nul : ch_comma <> NUL.
Proof. discriminate. Qed.

Lemma field_chars_no_nul fld : field_chars fld -> Forall (fun c => c <> NUL) fld.
Proof. unfold field_chars. apply Forall_impl. tauto. Qed.

Lemma rmc_loop_unfold fuel fc pointer f :
  rmc_loop (S fuel) fc pointer f =
    let fieldCounter := ((fc + 1) mod 256)%nat in
    let nmeaPart := strchr pointer ch_comma in
    let pointer := terminate nmeaPart pointer in
    if (0 <? strlen pointer)%nat then
      let f := rmc_field fieldCounter pointer f in
      match nmeaPart with
      | Some i =>
          '(f', rest) ← rmc_loop fuel fieldCounter (drop (S i) pointer) f;
          Some (f', take (S i) pointer ++ rest)
      | None => Some (f, pointer)
      end
    else
      match nmeaPart with
      | Some _ => rmc_loop fuel fieldCounter pointer f
      | None => Some (f, pointer)
      end.
Proof. reflexivity. Qed.

Lemma gga_loop_unfold fuel fc pointer f :
  gga_loop (S fuel) fc pointer f =
    let fieldCounter := ((fc + 1) mod 256)%nat in
    let nmeaPart := strchr pointer ch_comma in
    let pointer := terminate nmeaPart pointer in
    let f := gga_field fieldCounter pointer f in
    match nmeaPart with
    | Some i =>
        '(f', rest) ← gga_loop fuel fieldCounter (drop (S i) pointer) f;
        Some (f', take (S i) pointer ++ rest)
    | None => Some (f, pointer)
    end.
Proof. reflexivity. Qed.

(** An empty field followed by a delimiter ends the GPRMC scan. *)
Lemma rmc_loop_stuck fuel fc rest f :
  rmc_loop (S (S fuel)) fc (ch_comma :: rest) f = Some (f, NUL :: rest).
Proof. reflexivity. Qed.

(** A non-empty field followed by a delimiter: one pass of the GPRMC scan. *)
Lemma rmc_loop_field fuel fc fld rest f :
  field_chars fld -> fld <> [] ->
  fst <$> rmc_loop (S fuel) fc (fld ++ ch_comma :: rest) f =
  fst <$> rmc_loop fuel ((fc + 1) mod 256)%nat rest
            (rmc_field ((fc + 1) mod 256)%nat (fld ++ NUL :: rest) f).
Proof.
  intros Hf Hne. rewrite rmc_loop_unfold. cbv zeta.
  rewrite strchr_app_found by (assumption || apply comma_not_nul).
  unfold terminate. rewrite insert_middle, drop_middle.
  rewrite strlen_app_nul by now apply field_chars_no_nul.
  destruct fld as [| c fld]; [contradiction |].
  change (0 <? length (c :: fld))%nat with true. cbv iota.
  destruct (rmc_loop fuel _ rest _) as [[f' r] |]; reflexivity.
Qed.

Lemma rmc_field_frame fc p f : unchanged_after fc f (rmc_field fc p f).
Proof.
  unfold rmc_field, unchanged_after.
  destruct f as [v d m y h mi s la lo sa].
  repeat match goal with
    | |- context [Nat.eqb fc ?n] => destruct (Nat.eqb_spec fc n); [subst fc |]
    end; simpl;
  repeat match goal with
    | |- context [strcmp_eq ?a ?b] => destruct (strcmp_eq a b)
    end; simpl; repeat split; intros; try reflexivity; lia.
Qed.

Lemma unchanged_after_trans k1 k2 k f1 f2 f3 :
  (k1 <= k)%nat -> (k2 <= k)%nat ->
  unchanged_after k1 f1 f2 -> unchanged_after k2 f2 f3 -> unchanged_after k f1 f3.
Proof.
  unfold unchanged_after.
  intros H1 H2 (A1 & A2 & A3 & A4 & A5 & A6) (B1 & B2 & B3 & B4 & B5 & B6).
  repeat split; intros;
    try (etransitivity; [ (apply B1 || apply B2 || apply B3 || apply B4 || apply B5); lia
                        | (apply A1 || apply A2 || apply A3 || apply A4 || apply A5); lia ]).
  congruence.
Qed.

Lemma unchanged_after_refl k f : unchanged_after k f f.
Proof. unfold unchanged_after. tauto. Qed.

(** The GPRMC scan over non-empty fields followed by an empty one. *)
Lemma rmc_loop_until_empty (fs : list (list Z)) :
  forall fuel fc f later,
    Forall filled fs -> (length fs + 2 <= fuel)%nat ->
    exists f',
      fst <$> rmc_loop fuel fc (fields_then fs (ch_comma :: later)) f = Some f' /\
      unchanged_after (fc + length fs) f f'.
Proof.
  induction fs as [| fld fs IH]; intros fuel fc f later Hfs Hfuel; simpl in *.
  - destruct fuel as [| [| fuel]]; try lia.
    exists f. rewrite rmc_loop_stuck. split; [reflexivity | apply unchanged_after_refl].
  - destruct fuel as [| fuel]; [lia |].
    inversion Hfs as [| ? ? [Hne Hch] Hfs']; subst.
    rewrite rmc_loop_field by assumption.
    destruct (IH fuel ((fc + 1) mod 256)%nat
                (rmc_field ((fc + 1) mod 256)%nat
                           (fld ++ NUL :: fields_then fs (ch_comma :: later)) f)
                later Hfs' ltac:(lia)) as (f' & E & U).
    exists f'. split; [exact E |].
    pose proof (Nat.Div0.mod_le (fc + 1) 256).
    eapply unchanged_after_trans; [| | apply rmc_field_frame | exact U]; lia.
Qed.

Lemma fst_bind_pair {A B C : Type} (x : option (A * B)) (g : B -> C) :
  fst <$> (x ≫= (fun '(a, b) => Some (a, g b))) = fst <$> x.
Proof. destruct x as [[a b] |]; reflexivity. Qed.

Lemma parse_rmc body f :
  fst <$> parseSentence (nmeaType1 ++ ch_comma :: body) f =
  fst <$> rmc_loop (S (length (nmeaType1 ++ ch_comma :: body))) 0 body f.
Proof.
  unfold parseSentence.
  change (strchr (nmeaType1 ++ ch_comma :: body) ch_comma) with (Some 5%nat).
  cbv iota beta zeta.
  change (<[5%nat := NUL]> (nmeaType1 ++ ch_comma :: body)) with (nmeaType1 ++ NUL :: body).
  change (strcmp_eq (nmeaType1 ++ NUL :: body) nmeaType1) with true.
  cbv iota.
  change (drop 6 (nmeaType1 ++ NUL :: body)) with body.
  rewrite length_app. simpl length.
  apply fst_bind_pair.
Qed.

Lemma parse_gga body f :
  fst <$> parseSentence (nmeaType2 ++ ch_comma :: body) f =
  fst <$> gga_loop (S (length (nmeaType2 ++ ch_comma :: body))) 0 body f.
Proof.
  unfold parseSentence.
  change (strchr (nmeaType2 ++ ch_comma :: body) ch_comma) with (Some 5%nat).
  cbv iota beta zeta.
  change (<[5%nat := NUL]> (nmeaType2 ++ ch_comma :: body)) with (nmeaType2 ++ NUL :: body).
  change (strcmp_eq (nmeaType2 ++ NUL :: body) nmeaType1) with false.
  change (strcmp_eq (nmeaType2 ++ NUL :: body) nmeaType2) with true.
  cbv iota.
  change (drop 6 (nmeaType2 ++ NUL :: body)) with body.
  rewrite length_app. simpl length.
  apply fst_bind_pair.
Qed.

Lemma fields_then_length fs rest :
  (length fs + length rest <= length (fields_then fs rest))%nat.
Proof.
  induction fs as [| fld fs IH]; simpl; [lia |].
  rewrite length_app. simpl. lia.
Qed.

(** C10: in a GPRMC payload whose first [length fs] fields are non-empty and
    whose next field is empty and followed by a delimiter, the scan ends at
    that empty field: [parseSentence] returns, and every output whose
    field position lies after it (and the satellite count) keeps its
    previous value, whatever follows in the buffer. *)
Theorem rmc_scan_stops_at_empty_field (fs : list (list Z)) (later : list Z) (f : Fix) :
  Forall filled fs ->
  exists f',
    fst <$> parseSentence
              (nmeaType1 ++ ch_comma :: fields_then fs (ch_comma :: later)) f
      = Some f' /\
    unchanged_after (length fs) f f'.
Proof.
  intros Hfs. rewrite parse_rmc.
  apply (rmc_loop_until_empty fs _ 0%nat f later Hfs).
  rewrite length_app. simpl.
  pose proof (fields_then_length fs (ch_comma :: later)). simpl in *. lia.
Qed.

Lemma cstr_id (s : list Z) : Forall (fun c => c <> NUL) s -> cstr s = s.
Proof.
  induction 1 as [| c s Hc _ IH]; simpl; [reflexivity |].
  destruct (Z.eqb_spec c NUL); [contradiction | now rewrite IH].
Qed.

Lemma atoi_app_nul (s rest : list Z) :
  Forall (fun c => c <> NUL) s -> atoi (s ++ NUL :: rest) = atoi s.
Proof. intros H. unfold atoi. now rewrite cstr_app_nul, cstr_id. Qed.

Lemma gga_loop_field fuel fc fld rest f :
  field_chars fld ->
  fst <$> gga_loop (S fuel) fc (fld ++ ch_comma :: rest) f =
  fst <$> gga_loop fuel ((fc + 1) mod 256)%nat rest
            (gga_field ((fc + 1) mod 256)%nat (fld ++ NUL :: rest) f).
Proof.
  intros Hf. rewrite gga_loop_unfold. cbv zeta.
  rewrite strchr_app_found by (assumption || apply comma_not_nul).
  unfold terminate. rewrite insert_middle, drop_middle.
  apply fst_bind_pair.
Qed.

Lemma gga_loop_last fuel fc fld rest f :
  field_chars fld ->
  fst <$> gga_loop (S fuel) fc (fld ++ NUL :: rest) f =
  Some (gga_field ((fc + 1) mod 256)%nat (fld ++ NUL :: rest) f).
Proof.
  intros Hf. rewrite gga_loop_unfold. cbv zeta.
  rewrite strchr_app_nul by assumption. reflexivity.
Qed.

Lemma gga_field_other fc p f : fc <> 7%nat -> gga_field fc p f = f.
Proof.
  intros H. unfold gga_field. destruct (Nat.eqb_spec fc 7); [contradiction | reflexivity].
Qed.

Lemma gga_field_seven fld rest f :
  field_chars fld -> fld <> [] ->
  gga_field 7 (fld ++ NUL :: rest) f =
    set_sats (if gpsValid f then to_byte (atoi fld) else 0) f.
Proof.
  intros Hf Hne. unfold gga_field.
  rewrite strlen_app_nul, atoi_app_nul by now apply field_chars_no_nul.
  destruct fld; [contradiction | reflexivity].
Qed.

(** Past field 7 the GPGGA scan changes nothing, as long as the [byte]
    field counter does not come round to 7 again. *)
Lemma gga_loop_tail fuel :
  forall fc p f,
    (7 <= fc)%nat -> (fc + length p < 255)%nat -> (length p < fuel)%nat ->
    fst <$> gga_loop fuel fc p f = Some f.
Proof.
  induction fuel as [| fuel IH]; intros fc p f Hfc Hlen Hfuel; [lia |].
  rewrite gga_loop_unfold. cbv zeta.
  rewrite (Nat.mod_small (fc + 1) 256) by lia.
  rewrite gga_field_other by lia.
  destruct (strchr p ch_comma) as [i |] eqn:E; [| reflexivity].
  apply strchr_lt in E. unfold terminate.
  rewrite fst_bind_pair. apply IH; rewrite ?length_drop, ?length_insert; lia.
Qed.

Lemma gga_loop_head (fs : list (list Z)) :
  forall fc fuel f rest,
    Forall field_chars fs -> (fc + length fs < 7)%nat ->
    fst <$> gga_loop (length fs + fuel) fc (fields_then fs rest) f =
    fst <$> gga_loop fuel (fc + length fs) rest f.
Proof.
  induction fs as [| fld fs IH]; intros fc fuel f rest Hfs Hfc.
  - simpl. now rewrite Nat.add_0_r.
  - inversion Hfs as [| ? ? Hch Hfs']; subst.
    change (fields_then (fld :: fs) rest) with (fld ++ ch_comma :: fields_then fs rest).
    change (length (fld :: fs) + fuel)%nat with (S (length fs + fuel)).
    simpl length in *.
    rewrite gga_loop_field by assumption.
    rewrite (Nat.mod_small (fc + 1) 256) by lia.
    rewrite gga_field_other by lia.
    rewrite IH by (assumption || lia). f_equal. f_equal. lia.
Qed.

(** C9, amended: for a GPGGA payload in the record buffer whose field 7 is
    non-empty, [parseSentence] changes the satellite count only: to the
    [atoi] value of field 7 reduced modulo 256 (the count is one byte)
    when the validity flag is set, hence to that value itself when it lies
    in 0..255 (08 gives 8), and to 0 when the flag is clear. *)
Theorem gga_satellite_count (fs : list (list Z)) (f7 rest : list Z) (sep : Z) (f : Fix) :
  let sentence := nmeaType2 ++ ch_comma :: fields_then fs (f7 ++ sep :: rest) in
  length fs = 6%nat -> Forall field_chars fs ->
  field_chars f7 -> f7 <> [] -> sep = ch_comma \/ sep = NUL ->
  (length sentence <= S NMEAMAXLEN)%nat ->
  exists f',
    fst <$> parseSentence sentence f = Some f' /\
    f' = set_sats (gpsSats f') f /\
    gpsSats f' = (if gpsValid f then atoi f7 mod 256 else 0) /\
    (gpsValid f = true -> 0 <= atoi f7 < 256 -> gpsSats f' = atoi f7) /\
    (gpsValid f = true -> f7 = chars "08" -> gpsSats f' = 8).
Proof.
  intros sentence Hlen Hfs Hf7 Hne Hsep Hfit.
  exists (set_sats (if gpsValid f then to_byte (atoi f7) else 0) f).
  split.
  - subst sentence. rewrite parse_gga.
    rewrite length_app in *. simpl length in *.
    pose proof (fields_then_length fs (f7 ++ sep :: rest)) as Hl.
    rewrite length_app in Hl. simpl length in Hl.
    set (n := length (fields_then fs (f7 ++ sep :: rest))) in *.
    unfold NMEAMAXLEN in Hfit.
    replace (S (5 + S n)) with (length fs + S n)%nat by lia.
    rewrite gga_loop_head by (assumption || lia).
    rewrite Hlen. simpl Nat.add.
    destruct Hsep as [-> | ->].
    + rewrite gga_loop_field by assumption.
      change ((6 + 1) mod 256)%nat with 7%nat.
      rewrite gga_field_seven by assumption.
      apply gga_loop_tail; lia.
    + rewrite gga_loop_last by assumption.
      change ((6 + 1) mod 256)%nat with 7%nat.
      now rewrite gga_field_seven by assumption.
  - unfold to_byte. destruct f as [v d m y h mi s la lo sa]; simpl.
    repeat split.
    + intros -> Hr. apply Z.mod_small; lia.
    + intros -> ->. reflexivity.
Qed.

Ltac fields_ok :=
  vm_compute; repeat (constructor || split); discriminate.

Lemma rmc_scan_stops_at_empty_field_witness :
  let fs := [chars "123519"; chars "A"; chars "4807.038"; chars "N";
             chars "01131.000"; chars "E"] in
  Forall filled fs /\
  exists f',
    fst <$> parseSentence
              (nmeaType1 ++ ch_comma
                 :: fields_then fs (ch_comma :: chars ",230394,,,A" ++ [NUL])) fix0
      = Some f' /\
    unchanged_after 6 fix0 f'.
Proof.
  assert (Forall filled [chars "123519"; chars "A"; chars "4807.038"; chars "N";
                         chars "01131.000"; chars "E"]) as H by fields_ok.
  split; [exact H |].
  exact (rmc_scan_stops_at_empty_field _ (chars ",230394,,,A" ++ [NUL]) fix0 H).
Defined.

(** C9, as stated, fails: field 7 = 300 parses to 300, the count becomes 44. *)
Lemma gga_count_wraps_in_byte :
  let sentence :=
    chars "GPGGA,123519,4807.038,N,01131.000,E,1,300,0.9,545.4,M,46.9,M,," ++ [NUL] in
  gpsValid (set_valid true fix0) = true /\
  atoi (chars "300") = 300 /\
  (gpsSats ∘ fst) <$> parseSentence sentence (set_valid true fix0) = Some 44 /\
  (gpsSats ∘ fst) <$> parseSentence sentence (set_valid true fix0)
    <> Some (atoi (chars "300")).
Proof. repeat split; vm_compute; congruence. Qed.

Lemma gga_satellite_count_witness :
  let fs := [chars "123519"; chars "4807.038"; chars "N"; chars "01131.000";
             chars "E"; chars "1"] in
  let f := set_valid true fix0 in
  exists f',
    fst <$> parseSentence
              (nmeaType2 ++ ch_comma
                 :: fields_then fs (chars "08" ++ ch_comma :: chars "0.9,545.4,M,46.9,M,,"
                                      ++ [NUL])) f
      = Some f' /\
    gpsSats f' = 8.
Proof.
  destruct (gga_satellite_count
              [chars "123519"; chars "4807.038"; chars "N"; chars "01131.000";
               chars "E"; chars "1"]
              (chars "08") (chars "0.9,545.4,M,46.9,M,," ++ [NUL]) ch_comma
              (set_valid true fix0))
    as (f' & E & _ & _ & _ & H8).
  - reflexivity.
  - fields_ok.
  - fields_ok.
  - discriminate.
  - left; reflexivity.
  - vm_compute. lia.
  - exists f'. split; [exact E | apply H8; reflexivity].
Defined.

End ParserFacts.

Module RingFacts.
Import RingBuffer Interleaving.
Local Open Scope nat_scope.

Ltac modlia := unfold GPSBUFR1 in *; lia.

Lemma dist_push h t :
  h < GPSBUFR1 -> t < GPSBUFR1 -> (h + 1) mod GPSBUFR1 <> t ->
  dist t ((h + 1) mod GPSBUFR1) = dist t h + 1.
Proof. unfold dist. intros. modlia. Qed.

Lemma dist_advance h t :
  h < GPSBUFR1 -> t < GPSBUFR1 -> 1 <= dist t h ->
  dist ((t + 1) mod GPSBUFR1) h = dist t h - 1.
Proof. unfold dist. intros. modlia. Qed.

Lemma dist_zero h t :
  h < GPSBUFR1 -> t < GPSBUFR1 -> dist t h = 0 -> t = h.
Proof. unfold dist. intros. modlia. Qed.

Lemma dist_end h t :
  h < GPSBUFR1 -> t < GPSBUFR1 -> (t + dist t h) mod GPSBUFR1 = h.
Proof. unfold dist. intros. modlia. Qed.

Lemma dist_before h t i :
  h < GPSBUFR1 -> t < GPSBUFR1 -> i < dist t h -> (t + i) mod GPSBUFR1 <> h.
Proof. unfold dist. intros. modlia. Qed.

Lemma index_shift t i :
  ((t + 1) mod GPSBUFR1 + i) mod GPSBUFR1 = (t + S i) mod GPSBUFR1.
Proof. modlia. Qed.

Lemma mod_bound x : x mod GPSBUFR1 < GPSBUFR1.
Proof. modlia. Qed.

Lemma nth_insert_ne (l : list Z) (i j : nat) (x : Z) :
  i <> j -> nth j (<[i := x]> l) 0%Z = nth j l 0%Z.
Proof. intros H. rewrite !nth_lookup, list_lookup_insert_ne by assumption. reflexivity. Qed.

Lemma nth_insert_eq (l : list Z) (i : nat) (x : Z) :
  i < length l -> nth i (<[i := x]> l) 0%Z = x.
Proof. intros H. rewrite nth_lookup, list_lookup_insert_eq by assumption. reflexivity. Qed.

Lemma pending_dist r : length (pending r) = dist (bufferTail r) (bufferHead r).
Proof. unfold pending, dist. now rewrite length_map, length_seq. Qed.

(** A byte stored by the ISR goes to the end of the pending bytes. *)
Lemma pending_push c r :
  wf r -> ~ full r -> pending (push c r) = pending r ++ [to_byte c].
Proof.
  intros (Hlen & Hh & Ht) Hfull. unfold full in Hfull. unfold push.
  destruct (Nat.eqb_spec ((bufferHead r + 1) mod GPSBUFR1) (bufferTail r)) as [E | E];
    [contradiction |].
  unfold pending. cbn [bufferHead bufferTail gpsDataBuffer].
  fold (dist (bufferTail r) ((bufferHead r + 1) mod GPSBUFR1)).
  fold (dist (bufferTail r) (bufferHead r)).
  rewrite dist_push by assumption.
  rewrite seq_app, map_app. cbn [seq map Nat.add]. f_equal.
  - apply map_ext_in. intros i Hi. apply in_seq in Hi.
    apply nth_insert_ne. apply not_eq_sym, dist_before; (assumption || lia).
  - rewrite dist_end by assumption. f_equal. apply nth_insert_eq. lia.
Qed.

(** The byte at the tail is the oldest pending byte. *)
Lemma pending_advance r :
  wf r -> 1 <= dist (bufferTail r) (bufferHead r) ->
  pending r = at_tail r :: pending (advance_tail r).
Proof.
  intros (Hlen & Hh & Ht) Hd. unfold pending, advance_tail, at_tail.
  cbn [bufferHead bufferTail gpsDataBuffer].
  fold (dist (bufferTail r) (bufferHead r)).
  fold (dist ((bufferTail r + 1) mod GPSBUFR1) (bufferHead r)).
  rewrite dist_advance by assumption.
  destruct (dist (bufferTail r) (bufferHead r)) as [| d]; [lia |].
  replace (S d - 1) with d by lia.
  cbn [seq map]. rewrite <- seq_shift, map_map. f_equal.
  - f_equal. rewrite Nat.add_0_r. apply Nat.mod_small. assumption.
  - apply map_ext. intros i. now rewrite index_shift.
Qed.

Lemma wf_push c r : wf r -> wf (push c r).
Proof.
  intros (Hlen & Hh & Ht). unfold push.
  destruct (Nat.eqb_spec ((bufferHead r + 1) mod GPSBUFR1) (bufferTail r));
    repeat split; cbn [gpsDataBuffer bufferHead bufferTail];
    rewrite ?length_insert; try assumption; apply mod_bound.
Qed.

Lemma wf_advance r : wf r -> wf (advance_tail r).
Proof.
  intros (Hlen & Hh & Ht). repeat split; cbn [advance_tail gpsDataBuffer bufferHead bufferTail];
    try assumption; apply mod_bound.
Qed.

Lemma push_stored c r :
  wf r -> ~ full r ->
  bufferTail (push c r) = bufferTail r /\
  bufferHead (push c r) = (bufferHead r + 1) mod GPSBUFR1 /\
  (bufferHead r <> bufferTail r -> at_tail (push c r) = at_tail r).
Proof.
  intros (Hlen & Hh & Ht) Hfull. unfold full in Hfull. unfold push, at_tail.
  destruct (Nat.eqb_spec ((bufferHead r + 1) mod GPSBUFR1) (bufferTail r)); [contradiction |].
  cbn [gpsDataBuffer bufferHead bufferTail]. repeat split.
  intros Hne. now apply nth_insert_ne.
Qed.

Lemma dist_self t : t < GPSBUFR1 -> dist t t = 0.
Proof. unfold dist. intros. modlia. Qed.






Lemma pending_ring0 : pending ring0 = [].
Proof. reflexivity. Qed.


Lemma pending_empty r :
  wf r -> bufferTail r = bufferHead r -> pending r = [].
Proof.
  intros (_ & Hh & _) E. unfold pending. rewrite E.
  fold (dist (bufferHead r) (bufferHead r)). now rewrite dist_self.
Qed.








End RingFacts.

Module ValidatorFacts.
Import CString RingBuffer Acquisition Samples CStringFacts.

Lemma star_not_nul : ch_star <> NUL.
Proof. discriminate. Qed.

Lemma plain_no_nul s : plain s -> Forall (fun c => c <> NUL) s.
Proof. unfold plain. apply Forall_impl. tauto. Qed.

Lemma strtok_nul rest : strtok (NUL :: rest) = None.
Proof. reflexivity. Qed.

Lemma strtok_empty : strtok [] = None.
Proof. reflexivity. Qed.

Lemma span_star_plain c s rest : c <> ch_star -> span_star (c :: s ++ rest) = 0%nat.
Proof. intros H. simpl. destruct (Z.eqb_spec c ch_star); [contradiction | reflexivity]. Qed.

(** The first [strtok] on a record with a non-empty data part and a [*]. *)
Lemma strtok_token s rest :
  plain s -> s <> [] ->
  strtok (s ++ ch_star :: rest) = Some (0%nat, s ++ NUL :: rest, S (length s)).
Proof.
  intros Hs Hne. unfold strtok.
  destruct s as [| c s]; [contradiction |].
  inversion Hs as [| ? ? [Hc1 Hc2] Hs']; subst.
  change ((c :: s) ++ ch_star :: rest) with (c :: s ++ ch_star :: rest).
  rewrite span_star_plain by assumption. rewrite drop_0.
  change (c :: s ++ ch_star :: rest) with ((c :: s) ++ ch_star :: rest).
  rewrite strchr_app_found by (assumption || apply star_not_nul).
  rewrite !Nat.add_0_l, insert_middle.
  unfold strlen. simpl cstr. destruct (Z.eqb_spec c NUL); [contradiction |].
  reflexivity.
Qed.

(** [strtok] on a string without [*]. *)
Lemma strtok_whole s rest :
  plain s -> s <> [] ->
  strtok (s ++ NUL :: rest) = Some (0%nat, s ++ NUL :: rest, length s).
Proof.
  intros Hs Hne. unfold strtok.
  destruct s as [| c s]; [contradiction |].
  inversion Hs as [| ? ? [Hc1 Hc2] Hs']; subst.
  change ((c :: s) ++ NUL :: rest) with (c :: s ++ NUL :: rest).
  rewrite span_star_plain by assumption. rewrite drop_0.
  change (c :: s ++ NUL :: rest) with ((c :: s) ++ NUL :: rest).
  rewrite strchr_app_nul by assumption.
  rewrite strlen_app_nul by (apply plain_no_nul; assumption).
  rewrite !Nat.add_0_l. reflexivity.
Qed.

Lemma drop_length_app (s rest : list Z) : drop (length s) (s ++ rest) = rest.
Proof. induction s; simpl; auto. Qed.

Lemma take_middle (s rest : list Z) (x : Z) :
  take (S (length s)) (s ++ x :: rest) = s ++ [x].
Proof. induction s as [| c s IH]; simpl; [now rewrite take_0 | now rewrite IH]. Qed.

(** The second [strtok] when two checksum characters follow the [*]. *)
Lemma strtok_checksum c0 c1 rest :
  c0 <> NUL -> c0 <> ch_star -> c1 <> NUL -> c1 <> ch_star ->
  exists rest' next,
    strtok (c0 :: c1 :: rest) = Some (0%nat, c0 :: c1 :: rest', next).
Proof.
  intros H0 H0' H1 H1'. unfold strtok. simpl span_star.
  destruct (Z.eqb_spec c0 ch_star); [contradiction |]. rewrite drop_0.
  unfold strlen. simpl.
  destruct (Z.eqb_spec c0 NUL); [contradiction |].
  destruct (Z.eqb_spec c1 NUL); [contradiction |].
  destruct (Z.eqb_spec c1 ch_star); [contradiction |].
  simpl. destruct (strchr rest ch_star) as [e |]; simpl;
    (destruct (Z.eqb_spec c0 ch_star); [contradiction |]); simpl; eauto.
Qed.

(** The verdict on a record with a non-empty data part, a [*] and two
    checksum characters. *)
Lemma validate_wellformed payload c0 c1 rest :
  plain payload -> payload <> [] ->
  c0 <> NUL -> c0 <> ch_star -> c1 <> NUL -> c1 <> ch_star ->
  fst (validate (payload ++ ch_star :: c0 :: c1 :: rest)) =
    if xor_bytes payload =? decode_hex c0 c1 then Accepted else CrcMismatch.
Proof.
  intros Hp Hne H0 H0' H1 H1'. unfold validate.
  rewrite strtok_token by assumption.
  rewrite drop_middle, take_middle.
  destruct (strtok_checksum c0 c1 rest H0 H0' H1 H1') as (rest' & next & ->).
  rewrite !drop_0.
  replace ((2 <=? strlen (c0 :: c1 :: rest'))%nat) with true.
  2:{ unfold strlen. simpl.
      destruct (Z.eqb_spec c0 NUL); [contradiction |].
      destruct (Z.eqb_spec c1 NUL); [contradiction |]. reflexivity. }
  rewrite <- app_assoc. simpl app.
  rewrite cstr_app_nul by (apply plain_no_nul; assumption).
  unfold at_, decode_hex. simpl nth.
  rewrite Z.shiftl_mul_pow2 by lia. change (2 ^ 4) with 16.
  destruct (xor_bytes payload =? to_byte (htoi c0 * 16 + htoi c1)); reflexivity.
Qed.

(** A record without [*] has no checksum token. *)
Lemma validate_no_star record rest :
  plain record -> fst (validate (record ++ NUL :: rest)) = NoChecksum.
Proof.
  intros Hp. unfold validate.
  destruct record as [| c record].
  - reflexivity.
  - rewrite strtok_whole by (assumption || discriminate).
    rewrite drop_length_app, strtok_nul. reflexivity.
Qed.

(** Fewer than two characters after the first [*]. *)
Lemma validate_short_checksum payload cks rest :
  plain payload -> Forall (fun c => c <> NUL) cks -> (length cks < 2)%nat ->
  fst (validate (payload ++ ch_star :: cks ++ NUL :: rest)) = NoChecksum.
Proof.
  intros Hp Hc Hlen.
  destruct cks as [| c [| c' cks]]; simpl in Hlen; try lia; clear Hlen.
  - destruct payload as [| p payload].
    + reflexivity.
    + unfold validate. rewrite strtok_token by (assumption || discriminate).
      rewrite drop_middle. reflexivity.
  - inversion Hc as [| ? ? Hc0 _]; subst.
    destruct payload as [| p payload].
    + unfold validate, strtok. simpl.
      destruct (Z.eqb_spec c ch_star) as [-> | Hs]; [reflexivity |].
      unfold strlen. simpl.
      destruct (Z.eqb_spec c NUL); [contradiction |]. simpl.
      destruct (Z.eqb_spec c ch_star); [contradiction |]. reflexivity.
    + unfold validate. rewrite strtok_token by (assumption || discriminate).
      rewrite drop_middle. unfold strtok. simpl.
      destruct (Z.eqb_spec c ch_star) as [-> | Hs]; [reflexivity |].
      unfold strlen. simpl.
      destruct (Z.eqb_spec c NUL); [contradiction |]. simpl.
      destruct (Z.eqb_spec c ch_star); [contradiction |]. simpl.
      destruct (Z.eqb_spec c NUL); [contradiction |]. reflexivity.
Qed.

Lemma xor_bytes_range_from (s : list Z) :
  forall ck, 0 <= ck < 256 ->
    0 <= fold_left (fun ck c => to_byte (Z.lxor ck (to_byte c))) s ck < 256.
Proof.
  induction s as [| c s IH]; intros ck Hck; simpl; [exact Hck |].
  apply IH. unfold to_byte. apply Z.mod_pos_bound. lia.
Qed.

Lemma xor_bytes_range (s : list Z) : 0 <= xor_bytes s < 256.
Proof. apply xor_bytes_range_from. lia. Qed.

Ltac peel k fuel :=
  lazymatch fuel with
  | O => exfalso; lia
  | S ?fuel' => destruct k as [| k]; [| peel k fuel']
  end.

(** A fact about every nibble, by running through the sixteen of them. *)
Ltac nibble_cases n H :=
  let k := fresh "k" in
  let Hk := fresh "Hk" in
  let En := fresh "En" in
  set (k := Z.to_nat n);
  assert (En : n = Z.of_nat k) by lia;
  assert (Hk : (k < 16)%nat) by lia;
  clearbody k; subst n; clear H;
  peel k 16%nat.

Lemma htoi_hex_digit (upper : bool) (n : Z) :
  0 <= n < 16 -> htoi (hex_digit upper n) = n.
Proof. intros H. nibble_cases n H; destruct upper; reflexivity. Qed.

Lemma hex_digit_plain (upper : bool) (n : Z) :
  0 <= n < 16 -> hex_digit upper n <> NUL /\ hex_digit upper n <> ch_star.
Proof. intros H. nibble_cases n H; destruct upper; split; discriminate. Qed.

Lemma htoi_non_hex (c : Z) : is_hex_char c = false -> htoi c = 0.
Proof.
  unfold is_hex_char, htoi, toupper, to_byte.
  repeat match goal with
    | |- context [(?x <=? ?y)%Z] => destruct (Z.leb_spec x y)
    end; simpl in *; intros; try reflexivity; try discriminate; lia.
Qed.

Lemma decode_hex_digits (upper : bool) (ck : Z) :
  0 <= ck < 256 ->
  decode_hex (hex_digit upper (ck / 16)) (hex_digit upper (ck mod 16)) = ck.
Proof.
  intros H. unfold decode_hex.
  rewrite !htoi_hex_digit by (try apply Z.mod_pos_bound; try split;
    try apply Z.div_pos; try apply Z.div_lt_upper_bound; lia).
  unfold to_byte. rewrite Z.mod_small; [| pose proof (Z.div_mod ck 16); pose proof (Z.mod_pos_bound ck 16); lia].
  pose proof (Z.div_mod ck 16). lia.
Qed.

Lemma validate_record_of (upper : bool) (payload rest : list Z) :
  payload <> [] -> plain payload ->
  fst (validate (record_of upper payload ++ rest)) = Accepted.
Proof.
  intros Hne Hp. unfold record_of.
  pose proof (xor_bytes_range payload) as Hr.
  assert (0 <= xor_bytes payload / 16 < 16) as Hhi
    by (split; [apply Z.div_pos | apply Z.div_lt_upper_bound]; lia).
  assert (0 <= xor_bytes payload mod 16 < 16) as Hlo by (apply Z.mod_pos_bound; lia).
  destruct (hex_digit_plain upper _ Hhi) as [A1 A2].
  destruct (hex_digit_plain upper _ Hlo) as [B1 B2].
  rewrite <- app_assoc. simpl app.
  rewrite validate_wellformed by assumption.
  rewrite decode_hex_digits by assumption.
  now rewrite Z.eqb_refl.
Qed.

Lemma getSentence_complete now st r fr :
  framed st = Some (r, fr) -> complete fr = true ->
  getSentence now st =
    Some (is_accepted (fst (validate (sentence fr))),
          mkState r (mkFramer (snd (validate (sentence fr))) false false 0) (gps st)
                  (record_verdict now (fst (validate (sentence fr))) (diag st))).
Proof.
  unfold framed, complete, getSentence. intros -> H. simpl. rewrite H.
  destruct (validate (sentence fr)); reflexivity.
Qed.

Lemma take_overflow_gps st : gps (take_overflow st) = gps st.
Proof. unfold take_overflow. destruct (bufferOverflow (ring st)); reflexivity. Qed.

Lemma loop_rejected tz now st r fr :
  framed (take_overflow st) = Some (r, fr) -> complete fr = true ->
  fst (validate (sentence fr)) <> Accepted ->
  loop tz now st =
    Some (mkState r (mkFramer (snd (validate (sentence fr))) false false 0) (gps st)
            (record_verdict now (fst (validate (sentence fr))) (diag (take_overflow st)))).
Proof.
  intros Hf Hc Hv. unfold loop. cbv zeta.
  rewrite (getSentence_complete now _ r fr Hf Hc). simpl.
  rewrite take_overflow_gps.
  destruct (fst (validate (sentence fr))); [contradiction | reflexivity | reflexivity].
Qed.

(** C6, as stated, fails: for the empty payload and for a payload that holds
    a [*] the record built from the payload's own checksum is rejected. *)
Lemma roundtrip_rejects_unusual_payloads :
  fst (validate (record_of true [])) = NoChecksum /\
  fst (validate (record_of true [])) <> Accepted /\
  fst (validate (record_of true (chars "A*B"))) = NoChecksum /\
  fst (validate (record_of true (chars "A*B"))) <> Accepted.
Proof. repeat split; vm_compute; congruence. Qed.

(** C6, amended: for every non-empty payload without [*] and NUL that fits
    the record buffer with its checksum, the record made of the payload, a
    [*] and the XOR of the payload's bytes as two hexadecimal digits, of
    either case, is accepted; [htoi] inverts both the upper-case and the
    lower-case digit, and gives 0 on every character that is not a
    hexadecimal digit. *)
Theorem checksum_roundtrip (upper : bool) (payload rest : list Z) :
  payload <> [] -> plain payload -> (length payload + 3 <= NMEAMAXLEN)%nat ->
  fst (validate (record_of upper payload ++ rest)) = Accepted /\
  (forall n, 0 <= n < 16 -> htoi (hex_digit true n) = n /\ htoi (hex_digit false n) = n) /\
  (forall c, is_hex_char c = false -> htoi c = 0).
Proof.
  intros Hne Hp _. split; [now apply validate_record_of |].
  split; [| exact htoi_non_hex].
  intros n Hn. split; now apply htoi_hex_digit.
Qed.

Ltac plain_ok := vm_compute; repeat (constructor || split); discriminate.

Lemma checksum_roundtrip_witness :
  fst (validate (record_of false rmc_example ++ [])) = Accepted.
Proof.
  apply (checksum_roundtrip false rmc_example []).
  - discriminate.
  - plain_ok.
  - vm_compute. lia.
Defined.

(** C5, as stated, fails twice. The record ABC, without [*], is rejected
    with the error counter and the serial port untouched. The record
    ABC**40 is accepted although the XOR of ABC, 0x40, differs from the
    value 0x04 of the two characters after the first [*]: [strtok] skips
    the second [*]. *)
Lemma rejection_not_always_counted :
  let st := mkState (gpsDataReadISR (ch_dollar :: chars "ABC" ++ [ch_CR]) ring0)
                    framer0 fix0 diag0 in
  fst <$> getSentence 1000 (take_overflow st) = Some false /\
  (complete ∘ snd) <$> framed (take_overflow st) = Some true /\
  diag <$> loop TZOFFSET 1000 st = Some diag0 /\
  xor_bytes (chars "ABC") = 64 /\ decode_hex ch_star 52 = 4 /\
  fst (validate (chars "ABC**40" ++ [NUL])) = Accepted.
Proof. repeat split; vm_compute; reflexivity. Qed.

(** C5, amended: the validator rejects a record without [*] and a record
    with fewer than two characters after its first [*], and neither of
    these rejections counts or prints anything; it rejects a record with a
    non-empty data part and two characters other than [*] after the first
    [*] when the XOR of the data part differs from the value of these two
    characters, and this rejection increments the error counter (modulo
    2^32) and prints it; after any rejection [loop] returns with the Fix
    as it was: the record is not parsed. *)
Theorem rejections (tz now : Z) :
  (forall record rest,
      plain record -> fst (validate (record ++ NUL :: rest)) = NoChecksum) /\
  (forall payload cks rest,
      plain payload -> Forall (fun c => c <> NUL) cks -> (length cks < 2)%nat ->
      fst (validate (payload ++ ch_star :: cks ++ NUL :: rest)) = NoChecksum) /\
  (forall payload c0 c1 rest,
      plain payload -> payload <> [] ->
      c0 <> NUL -> c0 <> ch_star -> c1 <> NUL -> c1 <> ch_star ->
      xor_bytes payload <> decode_hex c0 c1 ->
      fst (validate (payload ++ ch_star :: c0 :: c1 :: rest)) = CrcMismatch) /\
  (forall dg, record_verdict now NoChecksum dg = dg) /\
  (forall dg,
      checksumErrors (record_verdict now CrcMismatch dg)
        = (checksumErrors dg + 1) mod 2 ^ 32 /\
      serial (record_verdict now CrcMismatch dg)
        = serial dg ++ [MsgCrcErrorCount ((checksumErrors dg + 1) mod 2 ^ 32)]) /\
  (forall st r fr,
      framed (take_overflow st) = Some (r, fr) -> complete fr = true ->
      fst (validate (sentence fr)) <> Accepted ->
      exists st',
        loop tz now st = Some st' /\
        gps st' = gps st /\
        diag st' = record_verdict now (fst (validate (sentence fr)))
                                  (diag (take_overflow st))).
Proof.
  split; [exact validate_no_star |].
  split; [exact validate_short_checksum |].
  split.
  { intros payload c0 c1 rest Hp Hne H0 H0' H1 H1' Hx.
    rewrite validate_wellformed by assumption.
    destruct (Z.eqb_spec (xor_bytes payload) (decode_hex c0 c1)); [contradiction | reflexivity]. }
  split; [reflexivity |].
  split; [intros dg; split; reflexivity |].
  intros st r fr Hf Hc Hv.
  eexists. split; [apply (loop_rejected tz now st r fr Hf Hc Hv) |].
  split; reflexivity.
Qed.

Lemma rejections_witness :
  fst (validate (chars "GPGGA,1" ++ NUL :: [])) = NoChecksum /\
  fst (validate (chars "GPGGA,1" ++ ch_star :: [52] ++ NUL :: [])) = NoChecksum /\
  fst (validate (chars "ABC" ++ ch_star :: 52 :: 49 :: [NUL])) = CrcMismatch.
Proof.
  pose proof (rejections TZOFFSET 1000) as (H1 & H2 & H3 & _).
  split; [apply H1; plain_ok |].
  split; [apply H2; [plain_ok | repeat constructor; discriminate | simpl; lia] |].
  apply H3; try discriminate; try plain_ok.
Defined.

(** C8, as stated, fails: a framed record that fails validation is not
    always counted. The record ABC*4, with a single checksum character, is
    complete and rejected, and the Fix is what it was, but the error
    counter is not incremented and nothing is printed; the same holds for
    the record ABC, without [*]. *)
Lemma rejected_record_not_counted :
  let fx := mkFix true 23 3 94 12 35 19 0 0 8 in
  let st := mkState (gpsDataReadISR (ch_dollar :: chars "ABC*4" ++ [ch_CR]) ring0)
                    framer0 fx diag0 in
  let st2 := mkState (gpsDataReadISR (ch_dollar :: chars "ABC" ++ [ch_CR]) ring0)
                     framer0 fx diag0 in
  (complete ∘ snd) <$> framed (take_overflow st) = Some true /\
  fst <$> getSentence 1000 (take_overflow st) = Some false /\
  gps <$> loop TZOFFSET 1000 st = Some fx /\
  (checksumErrors ∘ diag) <$> loop TZOFFSET 1000 st = Some (checksumErrors (diag st)) /\
  (checksumErrors ∘ diag) <$> loop TZOFFSET 1000 st
    <> Some ((checksumErrors (diag st) + 1) mod 2 ^ 32) /\
  (serial ∘ diag) <$> loop TZOFFSET 1000 st = Some [] /\
  (complete ∘ snd) <$> framed (take_overflow st2) = Some true /\
  fst <$> getSentence 1000 (take_overflow st2) = Some false /\
  (checksumErrors ∘ diag) <$> loop TZOFFSET 1000 st2 = Some (checksumErrors (diag st2)) /\
  (serial ∘ diag) <$> loop TZOFFSET 1000 st2 = Some [].
Proof. repeat split; vm_compute; congruence. Qed.

(** C8, amended: when the framer completes a record that fails validation,
    whatever the reason, [loop] returns with the record discarded (the
    framer reset for the next one), the time stamp kept and the Fix equal
    to what it was before. The record is counted, the error counter
    incremented (modulo 2^32) and printed, when the failure is a checksum
    mismatch; it is neither counted nor logged when the record has no
    checksum. A record with a non-empty data part and two characters other
    than [*] after its [*] whose value differs from the XOR of the data part
    is a checksum mismatch; a record without [*] and a record with fewer
    than two characters after its [*] have no checksum. *)
Theorem rejected_record_keeps_fix (tz now : Z) :
  (forall st r fr,
      framed (take_overflow st) = Some (r, fr) -> complete fr = true ->
      fst (validate (sentence fr)) <> Accepted ->
      exists st',
        loop tz now st = Some st' /\
        gps st' = gps st /\
        (dataStart (framer st'), dataStop (framer st'), dataCounter (framer st'))
          = (false, false, 0%nat) /\
        lastFixMillis (diag st') = lastFixMillis (diag st) /\
        (fst (validate (sentence fr)) = CrcMismatch ->
         checksumErrors (diag st') = (checksumErrors (diag st) + 1) mod 2 ^ 32 /\
         serial (diag st')
           = serial (diag (take_overflow st))
               ++ [MsgCrcErrorCount ((checksumErrors (diag st) + 1) mod 2 ^ 32)]) /\
        (fst (validate (sentence fr)) = NoChecksum ->
         checksumErrors (diag st') = checksumErrors (diag st) /\
         serial (diag st') = serial (diag (take_overflow st)))) /\
  (forall payload c0 c1 rest,
      plain payload -> payload <> [] ->
      c0 <> NUL -> c0 <> ch_star -> c1 <> NUL -> c1 <> ch_star ->
      xor_bytes payload <> decode_hex c0 c1 ->
      fst (validate (payload ++ ch_star :: c0 :: c1 :: rest)) = CrcMismatch) /\
  (forall record rest,
      plain record -> fst (validate (record ++ NUL :: rest)) = NoChecksum) /\
  (forall payload cks rest,
      plain payload -> Forall (fun c => c <> NUL) cks -> (length cks < 2)%nat ->
      fst (validate (payload ++ ch_star :: cks ++ NUL :: rest)) = NoChecksum).
Proof.
  split; [| split; [| split; [exact validate_no_star | exact validate_short_checksum]]].
  - intros st r fr Hf Hc Hv.
    eexists. split; [apply (loop_rejected tz now st r fr Hf Hc Hv) |].
    cbn [gps framer diag dataStart dataStop dataCounter].
    assert (checksumErrors (diag (take_overflow st)) = checksumErrors (diag st)
            /\ lastFixMillis (diag (take_overflow st)) = lastFixMillis (diag st)) as [Ec El]
      by (unfold take_overflow; destruct (bufferOverflow (ring st)); split; reflexivity).
    split; [reflexivity |]. split; [reflexivity |].
    destruct (fst (validate (sentence fr))); [contradiction | |];
      cbn [record_verdict lastFixMillis checksumErrors serial].
    + rewrite Ec. split; [exact El |]. split; [auto | discriminate].
    + split; [exact El |]. split; [discriminate | auto].
  - intros payload c0 c1 rest Hp Hne H0 H0' H1 H1' Hx.
    rewrite validate_wellformed by assumption.
    destruct (Z.eqb_spec (xor_bytes payload) (decode_hex c0 c1));
      [contradiction | reflexivity].
Qed.

Lemma rejected_record_keeps_fix_witness :
  let st := mkState (gpsDataReadISR (ch_dollar :: chars "ABC*41" ++ [ch_CR]) ring0)
                    framer0 (mkFix true 23 3 94 12 35 19 0 0 8) diag0 in
  (exists st',
      loop TZOFFSET 1000 st = Some st' /\
      gps st' = gps st /\
      checksumErrors (diag st') = (checksumErrors (diag st) + 1) mod 2 ^ 32 /\
      lastFixMillis (diag st') = lastFixMillis (diag st)) /\
  fst (validate (chars "ABC" ++ ch_star :: 52 :: 49 :: [NUL])) = CrcMismatch /\
  fst (validate (chars "ABC" ++ NUL :: [])) = NoChecksum /\
  fst (validate (chars "ABC" ++ ch_star :: [52] ++ NUL :: [])) = NoChecksum.
Proof.
  intros st.
  destruct (rejected_record_keeps_fix TZOFFSET 1000) as (H1 & H2 & H3 & H4).
  split; [| split; [| split]].
  - edestruct (H1 st) as (st' & Hl & Hg & _ & Ht & Hc & _);
      [lazy; reflexivity | lazy; reflexivity | lazy; discriminate |].
    exists st'. split; [exact Hl |]. split; [exact Hg |].
    split; [apply Hc; lazy; reflexivity | exact Ht].
  - apply H2; try discriminate; plain_ok.
  - apply H3. plain_ok.
  - apply H4; [plain_ok | repeat constructor; discriminate | simpl; lia].
Defined.

End ValidatorFacts.

Module Totality.
Import CString Parser RingBuffer Interleaving Acquisition CStringFacts ParserFacts RingFacts ValidatorFacts.
Local Open Scope nat_scope.

Lemma terminate_length nmeaPart p : length (terminate nmeaPart p) = length p.
Proof. destruct nmeaPart; simpl; [apply length_insert | reflexivity]. Qed.

Lemma strchr_nul_head rest ch : strchr (NUL :: rest) ch = None.
Proof. reflexivity. Qed.

Lemma strlen_zero_head p : strlen p = 0 -> p = [] \/ exists rest, p = NUL :: rest.
Proof.
  destruct p as [| c p]; [now left |]. unfold strlen. simpl.
  destruct (Z.eqb_spec c NUL) as [-> | _]; [right; eauto | discriminate].
Qed.

(** The GPRMC scan ends: [length pointer + 1] passes are enough. *)
Lemma rmc_loop_total fuel :
  forall fc p f, length p < fuel -> is_Some (rmc_loop fuel fc p f).
Proof.
  induction fuel as [| fuel IH]; intros fc p f Hlen; [lia |].
  rewrite rmc_loop_unfold. cbv zeta.
  destruct (strchr p ch_comma) as [i |] eqn:E.
  2:{ destruct (0 <? strlen (terminate None p)); eauto. }
  pose proof (strchr_lt _ _ _ E) as Hi.
  destruct (0 <? strlen (terminate (Some i) p)) eqn:Hs.
  - destruct (IH ((fc + 1) mod 256) (drop (S i) (terminate (Some i) p))
                (rmc_field ((fc + 1) mod 256) (terminate (Some i) p) f)) as [[f' r] ->].
    + rewrite length_drop, terminate_length. lia.
    + simpl. eauto.
  - apply Nat.ltb_ge in Hs.
    destruct (strlen_zero_head (terminate (Some i) p) ltac:(lia)) as [E0 | [rest E0]].
    + apply (f_equal length) in E0. rewrite terminate_length in E0. simpl in E0. lia.
    + rewrite E0. destruct fuel as [| fuel]; [lia |].
      rewrite rmc_loop_unfold. cbv zeta. rewrite strchr_nul_head. simpl. eauto.
Qed.

(** The GPGGA scan ends. *)
Lemma gga_loop_total fuel :
  forall fc p f, length p < fuel -> is_Some (gga_loop fuel fc p f).
Proof.
  induction fuel as [| fuel IH]; intros fc p f Hlen; [lia |].
  rewrite gga_loop_unfold. cbv zeta.
  destruct (strchr p ch_comma) as [i |] eqn:E; [| eauto].
  pose proof (strchr_lt _ _ _ E) as Hi.
  destruct (IH ((fc + 1) mod 256) (drop (S i) (terminate (Some i) p))
              (gga_field ((fc + 1) mod 256) (terminate (Some i) p) f)) as [[f' r] ->].
  - rewrite length_drop, terminate_length. lia.
  - simpl. eauto.
Qed.

(** [parseSentence] returns on every buffer. *)
Lemma parseSentence_total sentence f : is_Some (parseSentence sentence f).
Proof.
  unfold parseSentence.
  destruct (strchr sentence ch_comma) as [i |] eqn:E; [| eauto].
  destruct (strcmp_eq _ nmeaType1).
  - destruct (rmc_loop_total (S (length (<[i:=NUL]> sentence))) 0
                (drop (S i) (<[i:=NUL]> sentence)) f) as [[f' r] ->]; [| simpl; eauto].
    rewrite length_drop. lia.
  - destruct (strcmp_eq _ nmeaType2); [| eauto].
    destruct (gga_loop_total (S (length (<[i:=NUL]> sentence))) 0
                (drop (S i) (<[i:=NUL]> sentence)) f) as [[f' r] ->]; [| simpl; eauto].
    rewrite length_drop. lia.
Qed.

(** The drain loop ends before its index has gone round the buffer. *)
Lemma drain_total fuel :
  forall hc r fr,
    wf r -> hc < GPSBUFR1 -> dist (bufferTail r) hc < fuel ->
    is_Some (drain fuel hc r fr).
Proof.
  induction fuel as [| fuel IH]; intros hc r fr Hwf Hhc Hd; [lia |].
  simpl. destruct (Nat.eqb_spec (bufferTail r) hc) as [E | E]; [eauto |].
  destruct (frame_char (at_tail r) fr) as [fr' stop].
  destruct stop; [eauto |].
  pose proof Hwf as (_ & _ & Ht).
  apply IH; [now apply wf_advance | assumption |].
  cbn [advance_tail bufferTail].
  destruct (dist (bufferTail r) hc) eqn:Ed.
  - apply dist_zero in Ed; (assumption || congruence).
  - rewrite dist_advance by (assumption || lia). lia.
Qed.

Lemma wf_take_overflow st : wf (ring st) -> wf (ring (take_overflow st)).
Proof. unfold take_overflow. destruct (bufferOverflow (ring st)); intros H; exact H. Qed.

Lemma framed_total st : wf (ring st) -> is_Some (framed st).
Proof.
  intros Hwf. pose proof Hwf as (_ & Hh & _).
  apply drain_total; try assumption. unfold dist. modlia.
Qed.

(** [loop] returns from every state whose ring-buffer indices are in range. *)
Lemma loop_total tz now st : wf (ring st) -> is_Some (loop tz now st).
Proof.
  intros Hwf. apply wf_take_overflow in Hwf.
  unfold loop. cbv zeta. unfold getSentence.
  destruct (framed_total _ Hwf) as [[r fr] E]. unfold framed in E. rewrite E. simpl.
  destruct (dataStart fr && dataStop fr).
  - destruct (validate (sentence fr)) as [v mem]. simpl.
    destruct (is_accepted v); [| eauto]. simpl.
    destruct (parseSentence_total mem (gps (take_overflow st))) as [[f' m'] ->].
    simpl. eauto.
  - simpl. eauto.
Qed.

(** The drain loop of [getSentence] is a run of the consumer's steps with no
    push in between: from the loop test it reaches the exit with the ring
    buffer that [drain] returns, having read some bytes in order. *)
Lemma drain_is_a_run fuel :
  forall hc r fr r' fr',
    drain fuel hc r fr = Some (r', fr') ->
    exists sched read,
      pushes sched = [] /\
      forall obs, run (mkSys r hc Looping obs) sched = mkSys r' hc Idle (obs ++ read).
Proof.
  induction fuel as [| fuel IH]; intros hc r fr r' fr' H; [discriminate |].
  simpl in H.
  destruct (Nat.eqb_spec (bufferTail r) hc) as [E | E].
  - injection H as <- <-. exists [Fetch], []. split; [reflexivity |].
    intros obs. simpl. destruct (Nat.eqb_spec (bufferTail r) hc); [| contradiction].
    now rewrite app_nil_r.
  - destruct (frame_char (at_tail r) fr) as [fr1 stop]. destruct stop.
    + injection H as <- <-. exists [Fetch; Advance; Leave], [at_tail r].
      split; [reflexivity |]. intros obs. simpl.
      destruct (Nat.eqb_spec (bufferTail r) hc); [contradiction | reflexivity].
    + destruct (IH _ _ _ _ _ H) as (sched & read & Hp & Hrun).
      exists (Fetch :: Advance :: sched), (at_tail r :: read).
      split; [exact Hp |]. intros obs. simpl.
      destruct (Nat.eqb_spec (bufferTail r) hc); [contradiction |]. simpl.
      fold (run (mkSys (advance_tail r) hc Looping (obs ++ [at_tail r])) sched).
      rewrite Hrun. now rewrite <- app_assoc.
Qed.

End Totality.

Module LoopFacts.
Import CString Parser Calendar RingBuffer Acquisition Samples.

(** C4: the calendar block runs after every accepted sentence, not only
    after a GPRMC one. With the offset as shipped, a GPGGA record received
    at start-up turns the date 0/0/0 into 31/12/99; with the offset set to
    +1, a GPGGA record that follows a GPRMC record moves the hour, already
    converted to 13, on to 14. *)
Theorem gga_record_runs_calendar :
  date_of (gps state0) = (0, 0, 0) /\
  (date_of ∘ gps) <$> feed_then_loop TZOFFSET 1000 (wire gga_example) state0
    = Some (31, 12, 99) /\
  (gpsTimeH ∘ gps) <$> feed_then_loop 1 1000 (wire rmc_full_example) state0
    = Some 13 /\
  (gpsTimeH ∘ gps) <$> (feed_then_loop 1 1000 (wire rmc_full_example) state0
                        ≫= feed_then_loop 1 1200 (wire gga_example))
    = Some 14.
Proof. repeat split; vm_compute; reflexivity. Qed.

End LoopFacts.

Module MemoryFacts.
Import CString Parser RingBuffer Acquisition Samples Memory.
Import CStringFacts ParserFacts ValidatorFacts Totality.
Local Open Scope nat_scope.

Lemma overwritten_refl ch m : overwritten ch m m.
Proof. induction m; constructor; auto. Qed.

Lemma overwritten_trans ch m1 :
  forall m2 m3, overwritten ch m1 m2 -> overwritten ch m2 m3 -> overwritten ch m1 m3.
Proof.
  intros m2 m3 H12. revert m3.
  induction H12 as [| a b m1 m2 Hab _ IH]; intros m3 H23;
    inversion H23 as [| ? c ? m3' Hbc H23']; subst; constructor; [| now apply IH].
  destruct Hab as [-> | [-> ->]]; destruct Hbc as [-> | [E ->]]; auto.
Qed.

Lemma overwritten_app ch a a' b b' :
  overwritten ch a a' -> overwritten ch b b' -> overwritten ch (a ++ b) (a' ++ b').
Proof. intros Ha Hb. induction Ha; simpl; [assumption | constructor; assumption]. Qed.

Lemma overwritten_length ch m m' : overwritten ch m m' -> length m' = length m.
Proof. induction 1; simpl; congruence. Qed.

Lemma overwritten_strchr ch m :
  forall i, strchr m ch = Some i -> overwritten ch m (<[i := NUL]> m).
Proof.
  induction m as [| c m IH]; intros i H; simpl in H; [discriminate |].
  destruct (c =? NUL)%Z; [discriminate |].
  destruct (Z.eqb_spec c ch) as [-> | _].
  - injection H as <-. simpl. constructor; [auto | apply overwritten_refl].
  - destruct (strchr m ch) as [j |]; [| discriminate]. injection H as <-.
    simpl. constructor; [auto | now apply IH].
Qed.

Lemma overwritten_drop ch m : forall k m',
  overwritten ch (drop k m) m' -> overwritten ch m (take k m ++ m').
Proof.
  intros k m' H. rewrite <- (take_drop k m) at 1.
  apply overwritten_app; [apply overwritten_refl | assumption].
Qed.

Lemma overwritten_terminate p nmeaPart :
  nmeaPart = strchr p ch_comma -> overwritten ch_comma p (terminate nmeaPart p).
Proof.
  intros ->. destruct (strchr p ch_comma) as [i |] eqn:E; simpl;
    [now apply overwritten_strchr | apply overwritten_refl].
Qed.

Lemma rmc_loop_overwrites fuel :
  forall fc p f f' p',
    rmc_loop fuel fc p f = Some (f', p') -> overwritten ch_comma p p'.
Proof.
  induction fuel as [| fuel IH]; intros fc p f f' p' H; [discriminate |].
  rewrite rmc_loop_unfold in H. cbv zeta in H.
  pose proof (overwritten_terminate p _ eq_refl) as Ht.
  set (p1 := terminate (strchr p ch_comma) p) in *.
  apply (overwritten_trans _ _ _ _ Ht).
  destruct (0 <? strlen p1); destruct (strchr p ch_comma) as [i |].
  - destruct (rmc_loop fuel _ (drop (S i) p1) _) as [[f1 r] |] eqn:E; [| discriminate].
    injection H as <- <-. apply overwritten_drop. eapply IH, E.
  - injection H as <- <-. apply overwritten_refl.
  - eapply IH, H.
  - injection H as <- <-. apply overwritten_refl.
Qed.

Lemma gga_loop_overwrites fuel :
  forall fc p f f' p',
    gga_loop fuel fc p f = Some (f', p') -> overwritten ch_comma p p'.
Proof.
  induction fuel as [| fuel IH]; intros fc p f f' p' H; [discriminate |].
  rewrite gga_loop_unfold in H. cbv zeta in H.
  pose proof (overwritten_terminate p _ eq_refl) as Ht.
  set (p1 := terminate (strchr p ch_comma) p) in *.
  apply (overwritten_trans _ _ _ _ Ht).
  destruct (strchr p ch_comma) as [i |].
  - destruct (gga_loop fuel _ (drop (S i) p1) _) as [[f1 r] |] eqn:E; [| discriminate].
    injection H as <- <-. apply overwritten_drop. eapply IH, E.
  - injection H as <- <-. apply overwritten_refl.
Qed.

Lemma parseSentence_overwrites sentence f f' sentence' :
  parseSentence sentence f = Some (f', sentence') ->
  overwritten ch_comma sentence sentence'.
Proof.
  intros E. unfold parseSentence in E.
  destruct (strchr sentence ch_comma) as [i |] eqn:Ei.
  2:{ injection E as <- <-. apply overwritten_refl. }
  pose proof (overwritten_strchr _ _ _ Ei) as H1.
  apply (overwritten_trans _ _ _ _ H1).
  destruct (strcmp_eq _ nmeaType1).
  - destruct (rmc_loop _ _ _ _) as [[f1 r] |] eqn:El; [| discriminate].
    injection E as <- <-. apply overwritten_drop. eapply rmc_loop_overwrites, El.
  - destruct (strcmp_eq _ nmeaType2).
    + destruct (gga_loop _ _ _ _) as [[f1 r] |] eqn:El; [| discriminate].
      injection E as <- <-. apply overwritten_drop. eapply gga_loop_overwrites, El.
    + injection E as <- <-. apply overwritten_refl.
Qed.

Lemma parseSentence_length sentence f f' sentence' :
  parseSentence sentence f = Some (f', sentence') -> length sentence' = length sentence.
Proof. intros E. eapply overwritten_length, parseSentence_overwrites, E. Qed.

(** X11: [parseSentence] returns for every content of the record buffer and
    every Fix, and writes to the buffer only by overwriting commas with
    NUL: the buffer keeps its length and every other byte. *)
Theorem parseSentence_overwrites_commas (sentence : list Z) (f : Fix) :
  exists f' sentence',
    parseSentence sentence f = Some (f', sentence') /\
    overwritten ch_comma sentence sentence' /\
    length sentence' = length sentence.
Proof.
  destruct (parseSentence_total sentence f) as [[f' m'] E].
  exists f', m'. split; [exact E |].
  split; [eapply parseSentence_overwrites, E | eapply parseSentence_length, E].
Qed.

Lemma strchr_drop_insert ch m k e :
  strchr (drop k m) ch = Some e -> overwritten ch m (<[k + e := NUL]> m).
Proof.
  revert k. induction m as [| c m IH]; intros k H.
  - rewrite drop_nil in H. discriminate.
  - destruct k as [| k].
    + rewrite drop_0 in H. now apply overwritten_strchr.
    + simpl in *. constructor; [auto | now apply IH].
Qed.

Lemma strtok_overwrites m d m' next :
  strtok m = Some (d, m', next) -> overwritten ch_star m m'.
Proof.
  unfold strtok. destruct (strlen (drop (span_star m) m) =? 0); [discriminate |].
  destruct (strchr (drop (span_star m) m) ch_star) as [e |] eqn:E; intros [= <- <- <-].
  - now apply strchr_drop_insert.
  - apply overwritten_refl.
Qed.

Lemma validate_overwrites (sentence : list Z) :
  overwritten ch_star sentence (snd (validate sentence)).
Proof.
  unfold validate.
  destruct (strtok sentence) as [[[d mem1] next] |] eqn:E1; [| apply overwritten_refl].
  apply strtok_overwrites in E1.
  apply (overwritten_trans _ _ _ _ E1).
  destruct (strtok (drop next mem1)) as [[[c rest] n2] |] eqn:E2; [| apply overwritten_refl].
  apply strtok_overwrites in E2.
  assert (overwritten ch_star mem1 (take next mem1 ++ rest)) as H3
    by now apply overwritten_drop.
  destruct (2 <=? strlen (drop c rest)); [| exact H3].
  destruct (_ =? _)%Z; exact H3.
Qed.

Lemma validate_length (sentence : list Z) :
  length (snd (validate sentence)) = length sentence.
Proof. eapply overwritten_length, validate_overwrites. Qed.

(** X10: whatever the verdict, the validation block of [getSentence] writes
    to the record buffer only by overwriting [*] with NUL (the two [strtok]
    calls); the buffer keeps its length and every other byte. *)
Theorem validate_overwrites_stars (sentence : list Z) :
  overwritten ch_star sentence (snd (validate sentence)) /\
  length (snd (validate sentence)) = length sentence.
Proof. split; [apply validate_overwrites | apply validate_length]. Qed.

End MemoryFacts.

Module StreamFacts.
Import CString Parser Calendar RingBuffer Interleaving Acquisition Samples Stream Memory.
Import CStringFacts ParserFacts RingFacts ValidatorFacts Totality MemoryFacts.
Local Open Scope nat_scope.

Lemma full_no_room r : wf r -> (full r <-> room r = 0).
Proof. intros (_ & Hh & Ht). unfold full, room, dist. split; intros; modlia. Qed.

Lemma room_push c r : wf r -> ~ full r -> room (push c r) = room r - 1.
Proof.
  intros Hwf Hfull. destruct (push_stored c r Hwf Hfull) as (Et & Eh & _).
  pose proof Hwf as (_ & Hh & Ht). unfold room. rewrite Et, Eh.
  unfold full in Hfull. rewrite dist_push by assumption. lia.
Qed.

Lemma push_full c r :
  full r ->
  push c r = mkRing (gpsDataBuffer r) (bufferHead r) (bufferTail r) true.
Proof.
  unfold full, push. intros E.
  destruct (Nat.eqb_spec ((bufferHead r + 1) mod GPSBUFR1) (bufferTail r));
    [reflexivity | contradiction].
Qed.

Lemma push_overflow c r : ~ full r -> bufferOverflow (push c r) = bufferOverflow r.
Proof.
  unfold full, push. intros E.
  destruct (Nat.eqb_spec ((bufferHead r + 1) mod GPSBUFR1) (bufferTail r));
    [contradiction | reflexivity].
Qed.

Lemma isr_spec (incoming : list Z) :
  forall r,
    wf r ->
    wf (gpsDataReadISR incoming r) /\
    bufferTail (gpsDataReadISR incoming r) = bufferTail r /\
    pending (gpsDataReadISR incoming r)
      = pending r ++ map to_byte (take (room r) incoming) /\
    bufferOverflow (gpsDataReadISR incoming r)
      = bufferOverflow r || (room r <? length incoming).
Proof.
  induction incoming as [| c incoming IH]; intros r Hwf.
  - simpl. rewrite take_nil, app_nil_r, orb_false_r. auto.
  - change (gpsDataReadISR (c :: incoming) r) with (gpsDataReadISR incoming (push c r)).
    destruct (IH (push c r) (wf_push c r Hwf)) as (W & T & P & O).
    destruct (Nat.eq_dec (room r) 0) as [E0 | E0].
    + assert (full r) as Hf by now apply full_no_room.
      rewrite (push_full c r Hf) in *. rewrite E0.
      assert (room (mkRing (gpsDataBuffer r) (bufferHead r) (bufferTail r) true) = 0) as E1
        by exact E0.
      rewrite E1 in P, O. cbn [bufferTail bufferOverflow] in *.
      split; [exact W |]. split; [exact T |]. split; [exact P |].
      rewrite O. simpl. now rewrite orb_true_r.
    + assert (~ full r) as Hf by (rewrite full_no_room by assumption; assumption).
      destruct (push_stored c r Hwf Hf) as (Et & _ & _).
      rewrite room_push, pending_push, push_overflow in * by assumption.
      split; [exact W |]. split; [congruence |]. split.
      * rewrite P. destruct (room r) as [| k]; [lia |].
        replace (S k - 1) with k by lia. cbn [take map]. now rewrite <- app_assoc.
      * rewrite O. f_equal. simpl length.
        destruct (Nat.ltb_spec (room r - 1) (length incoming));
          destruct (Nat.ltb_spec (room r) (S (length incoming))); (reflexivity || lia).
Qed.

(** X1: the interrupt routine stores the bytes that fit, in order, as
    [char]s, and drops the others; it keeps the indices in range, never
    moves the tail, and raises the overflow flag exactly when a byte is
    dropped (it never clears it). *)
Theorem isr_stores_what_fits (incoming : list Z) (r : Ring) :
  wf r ->
  let r' := gpsDataReadISR incoming r in
  wf r' /\
  bufferTail r' = bufferTail r /\
  pending r' = pending r ++ map to_byte (take (room r) incoming) /\
  bufferOverflow r' = bufferOverflow r || (room r <? length incoming).
Proof. intros Hwf. cbv zeta. now apply isr_spec. Qed.

Lemma isr_stores_what_fits_witness :
  let r' := gpsDataReadISR (chars "$GPGGA") ring0 in
  wf r' /\
  bufferTail r' = bufferTail ring0 /\
  pending r' = pending ring0 ++ map to_byte (take (room ring0) (chars "$GPGGA")) /\
  bufferOverflow r' = bufferOverflow ring0 || (room ring0 <? length (chars "$GPGGA")).
Proof.
  apply (isr_stores_what_fits (chars "$GPGGA") ring0).
  repeat split; vm_compute; lia.
Defined.

(** X2: however many bytes were dropped since the last pass, step 1 of
    [loop] reports the overflow once and clears the flag, and reports
    nothing when no byte was dropped; the stored bytes stay pending. *)
Theorem overflow_reported_once (incoming : list Z) (st : State) :
  wf (ring st) -> bufferOverflow (ring st) = false ->
  let st' := take_overflow (mkState (gpsDataReadISR incoming (ring st))
                                    (framer st) (gps st) (diag st)) in
  serial (diag st') =
    serial (diag st) ++ (if room (ring st) <? length incoming then [MsgBufferOverflow] else []) /\
  bufferOverflow (ring st') = false /\
  pending (ring st') = pending (ring st) ++ map to_byte (take (room (ring st)) incoming) /\
  take_overflow st' = st'.
Proof.
  intros Hwf Hov.
  destruct (isr_spec incoming (ring st) Hwf) as (_ & _ & P & O).
  cbv zeta. rewrite Hov in O. simpl in O. unfold take_overflow.
  cbn [ring diag framer gps]. rewrite O.
  destruct (room (ring st) <? length incoming); cbn [ring diag bufferOverflow serial].
  - repeat split; try reflexivity. exact P.
  - rewrite O, app_nil_r. repeat split; try reflexivity; assumption.
Qed.

Lemma overflow_reported_once_witness :
  let st' := take_overflow (mkState (gpsDataReadISR (replicate 600 ch_comma) (ring state0))
                                    (framer state0) (gps state0) (diag state0)) in
  serial (diag st') =
    serial (diag state0)
      ++ (if room (ring state0) <? length (replicate 600 ch_comma)
          then [MsgBufferOverflow] else []) /\
  bufferOverflow (ring st') = false /\
  pending (ring st') =
    pending (ring state0)
      ++ map to_byte (take (room (ring state0)) (replicate 600 ch_comma)) /\
  take_overflow st' = st'.
Proof.
  apply (overflow_reported_once (replicate 600 ch_comma) state0).
  - repeat split; vm_compute; lia.
  - reflexivity.
Defined.

Lemma frame_char_ok c fr : framer_ok fr -> framer_ok (fst (frame_char c fr)).
Proof.
  intros [Hlen Hdc]. unfold frame_char, framer_ok, NMEAMAXLEN in *.
  destruct (c =? ch_dollar)%Z; [cbn [fst sentence dataCounter]; lia |].
  destruct (dataStart fr); [| cbn [fst sentence dataCounter]; lia].
  destruct ((c =? ch_CR)%Z || (c =? ch_LF)%Z); cbn [orb].
  - cbn [fst sentence dataCounter]. rewrite length_insert. lia.
  - destruct (Nat.eqb_spec (dataCounter fr) 79); cbn [fst sentence dataCounter];
      rewrite length_insert; lia.
Qed.

Lemma frame_list_ok bs : forall fr, framer_ok fr -> framer_ok (fst (frame_list bs fr)).
Proof.
  induction bs as [| c bs IH]; intros fr H; simpl; [exact H |].
  pose proof (frame_char_ok c fr H) as H1.
  destruct (frame_char c fr) as [fr1 stop]. destruct stop; [exact H1 | now apply IH].
Qed.

(** The drain loop reads the pending bytes in order, up to the end of a
    record, and leaves the others pending; it writes neither the buffer
    nor the head. *)
Lemma drain_reads_pending fuel :
  forall r fr,
    wf r -> dist (bufferTail r) (bufferHead r) < fuel ->
    exists r',
      drain fuel (bufferHead r) r fr = Some (r', fst (frame_list (pending r) fr)) /\
      pending r' = snd (frame_list (pending r) fr) /\
      wf r' /\
      gpsDataBuffer r' = gpsDataBuffer r /\ bufferHead r' = bufferHead r /\
      bufferOverflow r' = bufferOverflow r.
Proof.
  induction fuel as [| fuel IH]; intros r fr Hwf Hd; [lia |].
  pose proof Hwf as (Hlen & Hh & Ht).
  simpl. destruct (Nat.eqb_spec (bufferTail r) (bufferHead r)) as [E | E].
  - exists r. rewrite (pending_empty r Hwf E). simpl. auto 10.
  - assert (1 <= dist (bufferTail r) (bufferHead r)) as Hd1.
    { destruct (dist (bufferTail r) (bufferHead r)) eqn:Ed; [| lia].
      apply dist_zero in Ed; (assumption || congruence). }
    rewrite (pending_advance r Hwf Hd1). cbn [frame_list].
    destruct (frame_char (at_tail r) fr) as [fr1 stop]. destruct stop.
    + exists (advance_tail r). simpl. repeat split; try assumption; apply mod_bound.
    + destruct (IH (advance_tail r) fr1 (wf_advance r Hwf)) as (r' & E1 & E2 & W & B & H & O).
      { cbn [advance_tail bufferTail bufferHead]. rewrite dist_advance by assumption. lia. }
      exists r'. cbn [advance_tail bufferHead] in E1. auto 10.
Qed.

Lemma framed_spec (st : State) :
  wf (ring st) ->
  exists r',
    framed st = Some (r', fst (frame_list (pending (ring st)) (framer st))) /\
    pending r' = snd (frame_list (pending (ring st)) (framer st)) /\
    wf r' /\
    gpsDataBuffer r' = gpsDataBuffer (ring st) /\ bufferHead r' = bufferHead (ring st) /\
    bufferOverflow r' = bufferOverflow (ring st).
Proof.
  intros Hwf. apply drain_reads_pending; [assumption |].
  destruct Hwf as (_ & Hh & Ht). unfold dist. modlia.
Qed.

(** X3: [getSentence] returns; it reads the pending bytes oldest first, up
    to the byte that ends a record, and leaves the later ones pending; it
    writes neither the ring-buffer array, nor the head, nor the overflow
    flag, nor the Fix; and when the bytes read do not complete a record it
    returns false and changes neither the counters nor the serial port. *)
Theorem getSentence_reads_pending (now : Z) (st : State) :
  wf (ring st) ->
  let read := frame_list (pending (ring st)) (framer st) in
  exists ok st',
    getSentence now st = Some (ok, st') /\
    pending (ring st') = snd read /\
    wf (ring st') /\
    gpsDataBuffer (ring st') = gpsDataBuffer (ring st) /\
    bufferHead (ring st') = bufferHead (ring st) /\
    bufferOverflow (ring st') = bufferOverflow (ring st) /\
    gps st' = gps st /\
    (complete (fst read) = false ->
     ok = false /\ framer st' = fst read /\ diag st' = diag st).
Proof.
  intros Hwf. cbv zeta.
  destruct (framed_spec st Hwf) as (r' & Efr & P & W & B & H & O).
  set (fr' := fst (frame_list (pending (ring st)) (framer st))) in *.
  unfold getSentence. unfold framed in Efr. rewrite Efr. cbn [mbind option_bind].
  unfold complete. destruct (dataStart fr' && dataStop fr').
  - destruct (validate (sentence fr')) as [v mem].
    eexists _, _. split; [reflexivity |]. cbn [ring gps].
    repeat (split; [assumption || reflexivity |]). discriminate.
  - eexists _, _. split; [reflexivity |]. cbn [ring gps framer diag].
    repeat (split; [assumption || reflexivity |]). auto.
Qed.

Lemma getSentence_reads_pending_witness :
  let st := mkState (gpsDataReadISR (chars "$GPGGA,12") ring0) framer0 fix0 diag0 in
  let read := frame_list (pending (ring st)) (framer st) in
  exists ok st',
    getSentence 1000 st = Some (ok, st') /\
    pending (ring st') = snd read /\
    wf (ring st') /\
    gpsDataBuffer (ring st') = gpsDataBuffer (ring st) /\
    bufferHead (ring st') = bufferHead (ring st) /\
    bufferOverflow (ring st') = bufferOverflow (ring st) /\
    gps st' = gps st /\
    (complete (fst read) = false ->
     ok = false /\ framer st' = fst read /\ diag st' = diag st).
Proof.
  apply (getSentence_reads_pending 1000
           (mkState (gpsDataReadISR (chars "$GPGGA,12") ring0) framer0 fix0 diag0)).
  repeat split; vm_compute; lia.
Defined.

Lemma take_insert_next (s : list Z) (c : Z) :
  forall i, i < length s -> take (i + 1) (<[i := c]> s) = take i s ++ [c].
Proof.
  induction s as [| x s IH]; intros i H; simpl in *; [lia |].
  destruct i as [| i]; simpl; [now rewrite take_0 |]. rewrite IH by lia. reflexivity.
Qed.

Lemma drop_insert_before (s : list Z) (c : Z) :
  forall i j, i < j -> drop j (<[i := c]> s) = drop j s.
Proof.
  induction s as [| x s IH]; intros i j H; simpl; [reflexivity |].
  destruct j as [| j]; [lia |]. destruct i as [| i]; simpl; [reflexivity |].
  apply IH. lia.
Qed.

(** Storable bytes go to the record buffer one after the other. *)
Lemma frame_list_accumulates (body : list Z) :
  forall rest fr,
    dataStart fr = true -> Forall storable body ->
    dataCounter fr + length body <= NMEAMAXLEN -> length (sentence fr) = S NMEAMAXLEN ->
    frame_list (body ++ rest) fr =
      frame_list rest
        (mkFramer (take (dataCounter fr) (sentence fr) ++ body
                     ++ drop (dataCounter fr + length body) (sentence fr))
                  true (dataStop fr) (dataCounter fr + length body)).
Proof.
  induction body as [| c body IH]; intros rest fr Hs Hb Hn Hlen.
  - simpl. rewrite !Nat.add_0_r, take_drop. destruct fr; simpl in *. now subst.
  - inversion Hb as [| ? ? (H1 & H2 & H3) Hb']; subst.
    simpl length in *. cbn [app frame_list]. unfold frame_char. rewrite Hs.
    destruct (Z.eqb_spec c ch_dollar); [contradiction |].
    destruct (Z.eqb_spec c ch_CR); [contradiction |].
    destruct (Z.eqb_spec c ch_LF); [contradiction |].
    unfold NMEAMAXLEN in *.
    destruct (Nat.eqb_spec (dataCounter fr) 79); [lia |]. cbn [orb].
    rewrite IH; cbn [dataStart dataStop dataCounter sentence];
      rewrite ?length_insert, ?(Nat.mod_small (dataCounter fr + 1) 256) by lia;
      try assumption; try lia.
    rewrite take_insert_next, drop_insert_before by lia.
    rewrite <- app_assoc. cbn [app].
    replace (dataCounter fr + 1 + length body) with (dataCounter fr + S (length body)) by lia.
    reflexivity.
Qed.

Lemma drop_cons_nth (s : list Z) :
  forall n, n < length s -> exists x, drop n s = x :: drop (S n) s.
Proof.
  induction s as [| y s IH]; intros n H; simpl in *; [lia |].
  destruct n as [| n]; [eauto |]. apply IH. lia.
Qed.

Lemma frame_list_record_at (fr : Framer) (record more : list Z) (term : Z) :
  length (sentence fr) = S NMEAMAXLEN ->
  Forall storable record -> length record <= NMEAMAXLEN ->
  (term = ch_CR \/ term = ch_LF) \/ (length record = NMEAMAXLEN /\ term <> ch_dollar) ->
  let tail := drop (S (length record)) (sentence fr) in
  frame_list (ch_dollar :: record ++ term :: more) fr =
    (mkFramer (record ++ NUL :: tail) true true (length record), more) /\
  length (record ++ NUL :: tail) = S NMEAMAXLEN.
Proof.
  intros Hlen Hrec Hn Hterm. cbv zeta.
  destruct (drop_cons_nth (sentence fr) (length record)) as [x Ex];
    [unfold NMEAMAXLEN in *; lia |].
  split.
  - change (frame_list (ch_dollar :: record ++ term :: more) fr)
      with (frame_list (record ++ term :: more) (mkFramer (sentence fr) true false 0)).
    rewrite frame_list_accumulates by (cbn [dataStart dataCounter sentence]; auto).
    cbn [dataStart dataStop dataCounter sentence Nat.add take app].
    rewrite Ex. cbn [frame_list]. unfold frame_char.
    cbn [dataStart dataStop dataCounter sentence].
    assert (term <> ch_dollar) as Hd
      by (destruct Hterm as [[-> | ->] | [_ H]]; [discriminate.. | exact H]).
    destruct (Z.eqb_spec term ch_dollar); [contradiction |].
    replace ((term =? ch_CR)%Z || (term =? ch_LF)%Z || (length record =? NMEAMAXLEN)) with true.
    + rewrite take_0. cbn [app]. now rewrite insert_middle.
    + destruct Hterm as [[-> | ->] | [-> _]]; [reflexivity | reflexivity |].
      now rewrite Nat.eqb_refl, orb_true_r.
  - rewrite length_app. cbn [length]. rewrite length_drop.
    unfold NMEAMAXLEN in *. lia.
Qed.

Lemma frame_list_record (fr : Framer) (record more : list Z) (term : Z) :
  length (sentence fr) = S NMEAMAXLEN ->
  Forall storable record -> length record <= NMEAMAXLEN ->
  (term = ch_CR \/ term = ch_LF) \/ (length record = NMEAMAXLEN /\ term <> ch_dollar) ->
  exists tail,
    frame_list (ch_dollar :: record ++ term :: more) fr =
      (mkFramer (record ++ NUL :: tail) true true (length record), more) /\
    length (record ++ NUL :: tail) = S NMEAMAXLEN.
Proof.
  intros Hlen Hrec Hn Hterm. eexists. now apply frame_list_record_at.
Qed.

(** X4: a start marker, a record of at most [NMEAMAXLEN] bytes and a line
    end leave the framer with the complete, NUL-terminated record, whatever
    it held before; after [NMEAMAXLEN] bytes the next byte ends the record
    in the same way and is itself dropped. The bytes after the terminating
    byte stay unread. *)
Theorem frame_record (fr : Framer) (record more : list Z) (term : Z) :
  length (sentence fr) = S NMEAMAXLEN ->
  Forall storable record -> length record <= NMEAMAXLEN ->
  (term = ch_CR \/ term = ch_LF) \/ (length record = NMEAMAXLEN /\ term <> ch_dollar) ->
  exists tail,
    frame_list (ch_dollar :: record ++ term :: more) fr =
      (mkFramer (record ++ NUL :: tail) true true (length record), more) /\
    length (record ++ NUL :: tail) = S NMEAMAXLEN.
Proof. apply frame_list_record. Qed.

Ltac storable_ok := vm_compute; repeat (constructor || split); discriminate.

Lemma frame_record_witness :
  exists tail,
    frame_list (ch_dollar :: chars "GPGGA,1" ++ ch_CR :: [ch_LF]) framer0 =
      (mkFramer (chars "GPGGA,1" ++ NUL :: tail) true true (length (chars "GPGGA,1")),
       [ch_LF]) /\
    length (chars "GPGGA,1" ++ NUL :: tail) = S NMEAMAXLEN.
Proof.
  apply (frame_record framer0 (chars "GPGGA,1") [ch_LF] ch_CR).
  - reflexivity.
  - storable_ok.
  - vm_compute. lia.
  - left. left. reflexivity.
Defined.

(** Before a start marker has been seen, bytes are read and dropped. *)
Lemma frame_list_idle (junk : list Z) :
  forall rest fr, dataStart fr = false -> Forall (fun c => c <> ch_dollar) junk ->
    frame_list (junk ++ rest) fr = frame_list rest fr.
Proof.
  induction junk as [| c junk IH]; intros rest fr Hs Hj; [reflexivity |].
  inversion Hj as [| ? ? Hc Hj']; subst. cbn [app frame_list]. unfold frame_char.
  destruct (Z.eqb_spec c ch_dollar); [contradiction |]. rewrite Hs. now apply IH.
Qed.

Lemma strtok_two_chars c0 c1 rest :
  c0 <> NUL -> c0 <> ch_star -> c1 <> NUL -> c1 <> ch_star ->
  strtok (c0 :: c1 :: NUL :: rest) = Some (0, c0 :: c1 :: NUL :: rest, 2).
Proof.
  intros H0 H0' H1 H1'. unfold strtok, strlen. simpl.
  destruct (Z.eqb_spec c0 ch_star); [contradiction |]. simpl.
  destruct (Z.eqb_spec c0 NUL); [contradiction |].
  destruct (Z.eqb_spec c1 NUL); [contradiction |]. simpl.
  destruct (Z.eqb_spec c0 ch_star); [contradiction |].
  destruct (Z.eqb_spec c1 ch_star); [contradiction |]. reflexivity.
Qed.

(** The record buffer after the validation of [payload*c0c1]: the [*] is
    overwritten, nothing else. *)
Lemma validate_buffer payload c0 c1 rest :
  plain payload -> payload <> [] ->
  c0 <> NUL -> c0 <> ch_star -> c1 <> NUL -> c1 <> ch_star ->
  snd (validate (payload ++ ch_star :: c0 :: c1 :: NUL :: rest)) =
    payload ++ NUL :: c0 :: c1 :: NUL :: rest.
Proof.
  intros Hp Hne H0 H0' H1 H1'. unfold validate.
  rewrite strtok_token by assumption.
  rewrite drop_middle, take_middle, strtok_two_chars by assumption.
  rewrite <- app_assoc. cbn [app].
  destruct (2 <=? strlen _); [| reflexivity].
  destruct (_ =? _)%Z; reflexivity.
Qed.

Lemma to_byte_id c : is_byte c -> to_byte c = c.
Proof. unfold is_byte, to_byte. intros H. apply Z.mod_small. lia. Qed.

Lemma map_to_byte_id (s : list Z) : Forall is_byte s -> map to_byte s = s.
Proof.
  induction 1 as [| c s Hc _ IH]; simpl; [reflexivity |].
  now rewrite to_byte_id, IH.
Qed.

Lemma hex_digit_storable (upper : bool) (n : Z) :
  (0 <= n < 16)%Z -> storable (hex_digit upper n) /\ is_byte (hex_digit upper n).
Proof.
  intros H. unfold storable, is_byte.
  nibble_cases n H; destruct upper; repeat split; (discriminate || (vm_compute; congruence)).
Qed.

Lemma wire_shape payload :
  wire payload =
    ch_dollar :: (payload ++ [ch_star; hex_digit true (xor_bytes payload / 16);
                              hex_digit true (xor_bytes payload mod 16)])
              ++ ch_CR :: [ch_LF].
Proof.
  unfold wire, record_of. cbv zeta. rewrite app_assoc, removelast_last. reflexivity.
Qed.

Lemma wire_record_core (tz now : Z) (st : State) (payload : list Z) :
  wf (ring st) -> pending (ring st) = [] -> bufferOverflow (ring st) = false ->
  length (sentence (framer st)) = S NMEAMAXLEN ->
  payload <> [] -> plain payload -> Forall storable payload -> Forall is_byte payload ->
  length payload + 3 <= NMEAMAXLEN ->
  let buffer :=
    payload ++ NUL :: hex_digit true (xor_bytes payload / 16)
            :: hex_digit true (xor_bytes payload mod 16)
            :: NUL :: drop (length payload + 4) (sentence (framer st)) in
  exists f' mem' st',
    length buffer = S NMEAMAXLEN /\
    parseSentence buffer (gps st) = Some (f', mem') /\
    feed_then_loop tz now (wire payload) st = Some st' /\
    gps st' = tz_adjust tz f' /\
    sentence (framer st') = mem' /\
    diag st' = mkDiag (checksumErrors (diag st)) now (serial (diag st)) /\
    pending (ring st') = [ch_LF] /\
    (dataStart (framer st'), dataStop (framer st'), dataCounter (framer st'))
      = (false, false, 0).
Proof.
  intros Hwf Hpend Hov Hlen Hne Hplain Hstor Hbyte Hfit. cbv zeta.
  pose proof (xor_bytes_range payload) as Hr.
  set (hi := hex_digit true (xor_bytes payload / 16)).
  set (lo := hex_digit true (xor_bytes payload mod 16)).
  assert (0 <= xor_bytes payload / 16 < 16)%Z as Hhi
    by (split; [apply Z.div_pos | apply Z.div_lt_upper_bound]; lia).
  assert (0 <= xor_bytes payload mod 16 < 16)%Z as Hlo by (apply Z.mod_pos_bound; lia).
  destruct (hex_digit_storable true _ Hhi) as [Shi Bhi].
  destruct (hex_digit_storable true _ Hlo) as [Slo Blo].
  destruct (hex_digit_plain true _ Hhi) as [Phi1 Phi2].
  destruct (hex_digit_plain true _ Hlo) as [Plo1 Plo2].
  fold hi in Shi, Bhi, Phi1, Phi2. fold lo in Slo, Blo, Plo1, Plo2.
  set (record := payload ++ [ch_star; hi; lo]).
  assert (wire payload = ch_dollar :: record ++ ch_CR :: [ch_LF]) as Ewire
    by apply wire_shape.
  assert (Forall storable record) as Srec.
  { apply Forall_app. split; [assumption |].
    constructor; [repeat split; discriminate |].
    constructor; [exact Shi |]. constructor; [exact Slo |]. constructor. }
  assert (Forall is_byte (wire payload)) as Bwire.
  { rewrite Ewire. constructor; [unfold is_byte, ch_dollar; lia |].
    apply Forall_app. split.
    - apply Forall_app. split; [assumption |].
      constructor; [unfold is_byte, ch_star; lia |].
      constructor; [exact Bhi |]. constructor; [exact Blo |]. constructor.
    - constructor; [unfold is_byte, ch_CR; lia |].
      constructor; [unfold is_byte, ch_LF; lia |]. constructor. }
  assert (length record = length payload + 3) as Lrec
    by (unfold record; rewrite length_app; reflexivity).
  assert (length (wire payload) = length payload + 6) as Lwire.
  { rewrite Ewire. cbn [length]. rewrite length_app. cbn [length]. lia. }
  (* the interrupt stores the whole record *)
  assert (room (ring st) = GPSBUFR1 - 1) as Eroom.
  { unfold room. rewrite <- pending_dist, Hpend. simpl. lia. }
  destruct (isr_spec (wire payload) (ring st) Hwf) as (W1 & _ & P1 & O1).
  rewrite Hpend, Eroom, Hov in *. cbn [app orb] in P1, O1.
  rewrite take_ge in P1 by (unfold GPSBUFR1, NMEAMAXLEN in *; lia).
  rewrite map_to_byte_id in P1 by assumption.
  replace (GPSBUFR1 - 1 <? length (wire payload)) with false in O1
    by (symmetry; apply Nat.ltb_ge; unfold GPSBUFR1, NMEAMAXLEN in *; lia).
  set (st1 := mkState (gpsDataReadISR (wire payload) (ring st)) (framer st) (gps st) (diag st)).
  assert (take_overflow st1 = st1) as Eto
    by (unfold take_overflow, st1; cbn [ring]; now rewrite O1).
  (* the drain loop frames it *)
  destruct (framed_spec st1 W1) as (r' & Efr & P2 & W2 & _).
  cbn [st1 ring framer] in Efr, P2. rewrite P1, Ewire in Efr, P2.
  destruct (frame_list_record_at (framer st) record [ch_LF] ch_CR Hlen Srec)
    as (Efl & Ltail); [lia | left; left; reflexivity |].
  replace (S (length record)) with (length payload + 4) in Efl, Ltail by lia.
  set (tail := drop (length payload + 4) (sentence (framer st))) in *.
  rewrite Efl in Efr, P2. cbn [fst snd] in Efr, P2.
  (* the validator accepts it *)
  assert (record ++ NUL :: tail = record_of true payload ++ tail) as Erec.
  { unfold record, record_of. cbv zeta. fold hi lo. now rewrite <- !app_assoc. }
  assert (fst (validate (record ++ NUL :: tail)) = Accepted) as Ev
    by (rewrite Erec; now apply validate_record_of).
  assert (snd (validate (record ++ NUL :: tail)) = payload ++ NUL :: hi :: lo :: NUL :: tail)
    as Em.
  { unfold record. rewrite <- app_assoc. cbn [app]. now apply validate_buffer. }
  pose proof (getSentence_complete now st1 r' _ Efr eq_refl) as Egs.
  cbn [sentence] in Egs. rewrite Ev, Em in Egs. cbn [is_accepted record_verdict] in Egs.
  (* the parser and the calendar block run *)
  destruct (parseSentence_total (payload ++ NUL :: hi :: lo :: NUL :: tail) (gps st))
    as [[f' mem'] Ep].
  exists f', mem'.
  eexists. split.
  { rewrite length_app in *. cbn [length] in *. lia. }
  split; [exact Ep |].
  split.
  - unfold feed_then_loop. fold st1. unfold loop. cbv zeta. rewrite Eto, Egs.
    cbn [mbind option_bind ring framer gps diag sentence st1]. rewrite Ep.
    cbn [mbind option_bind]. reflexivity.
  - cbn [gps diag ring framer dataStart dataStop dataCounter sentence st1].
    repeat split; assumption.
Qed.



Lemma wf_isr incoming r : wf r -> wf (gpsDataReadISR incoming r).
Proof. intros H. now apply isr_spec. Qed.

Lemma getSentence_keeps_state_ok now st :
  state_ok st ->
  exists ok st', getSentence now st = Some (ok, st') /\ state_ok st' /\ gps st' = gps st.
Proof.
  intros [Hwf Hfr].
  destruct (framed_spec st Hwf) as (r' & Efr & _ & W & _).
  pose proof (frame_list_ok (pending (ring st)) (framer st) Hfr) as Hfr'.
  set (fr' := fst (frame_list (pending (ring st)) (framer st))) in *.
  unfold getSentence. unfold framed in Efr. rewrite Efr. cbn [mbind option_bind].
  destruct (dataStart fr' && dataStop fr').
  - destruct (validate (sentence fr')) as [v mem] eqn:Ev.
    eexists _, _. split; [reflexivity |]. split; [| reflexivity].
    split; [exact W |]. unfold framer_ok. cbn [framer sentence dataCounter].
    pose proof (validate_length (sentence fr')) as Hl. rewrite Ev in Hl.
    cbn [snd] in Hl. destruct Hfr' as [Hlen _]. split; [congruence | lia].
  - eexists _, _. split; [reflexivity |].
    split; [split; [exact W | exact Hfr'] | reflexivity].
Qed.

Lemma take_overflow_keeps_state_ok st : state_ok st -> state_ok (take_overflow st).
Proof.
  unfold take_overflow, state_ok. destruct (bufferOverflow (ring st)); [| auto].
  cbn [ring framer]. intros [(A & B & C) D].
  split; [repeat split; assumption | exact D].
Qed.

Lemma pass_keeps_state_ok (tz now : Z) (incoming : list Z) (st : State) :
  state_ok st ->
  exists st', feed_then_loop tz now incoming st = Some st' /\ state_ok st'.
Proof.
  intros [Hwf Hfr]. unfold feed_then_loop.
  pose proof (wf_isr incoming (ring st) Hwf) as W1.
  set (st1 := mkState (gpsDataReadISR incoming (ring st)) (framer st) (gps st) (diag st)).
  assert (state_ok (take_overflow st1)) as H1
    by (apply take_overflow_keeps_state_ok; split; assumption).
  destruct (getSentence_keeps_state_ok now _ H1) as (ok & st2 & E & [W2 F2] & _).
  unfold loop. cbv zeta. rewrite E. cbn [mbind option_bind].
  destruct ok; [| exists st2; split; [reflexivity | split; assumption]].
  destruct (parseSentence_total (sentence (framer st2)) (gps st2)) as [[f' mem] Ep].
  pose proof (parseSentence_length _ _ _ _ Ep) as Hl.
  rewrite Ep. cbn [mbind option_bind]. eexists. split; [reflexivity |].
  split; [exact W2 |]. destruct F2 as [Hlen Hdc]. split; cbn [framer sentence dataCounter];
    [congruence | exact Hdc].
Qed.

Lemma store_in_bounds (i : nat) (x : Z) (a : list Z) :
  i < length a -> Checked.store i x a = Some (<[i := x]> a).
Proof.
  intros H. unfold Checked.store.
  destruct (Nat.ltb_spec i (length a)); [reflexivity | lia].
Qed.

Lemma load_in_bounds (i : nat) (a : list Z) :
  i < length a -> Checked.load i a = Some (nth i a 0%Z).
Proof.
  intros H. unfold Checked.load.
  destruct (lookup_lt_is_Some_2 a i H) as [x Hx]. rewrite Hx.
  now rewrite nth_lookup, Hx.
Qed.

Lemma push_in_bounds c r : wf r -> Checked.push_checked c r = Some (push c r).
Proof.
  intros (Hlen & Hh & _). unfold Checked.push_checked, push.
  destruct (_ =? _); [reflexivity |].
  rewrite store_in_bounds by (rewrite Hlen; exact Hh). reflexivity.
Qed.

Lemma isr_in_bounds incoming :
  forall r, wf r -> Checked.gpsDataReadISR_checked incoming r = Some (gpsDataReadISR incoming r).
Proof.
  induction incoming as [| c incoming IH]; intros r Hwf; [reflexivity |].
  cbn [Checked.gpsDataReadISR_checked]. rewrite push_in_bounds by assumption.
  cbn [mbind option_bind]. rewrite IH by now apply wf_push. reflexivity.
Qed.

Lemma frame_char_in_bounds c fr :
  framer_ok fr -> Checked.frame_char_checked c fr = Some (frame_char c fr).
Proof.
  intros [Hlen Hdc]. unfold Checked.frame_char_checked, frame_char.
  destruct (c =? ch_dollar)%Z; [reflexivity |].
  destruct (dataStart fr); [| reflexivity].
  rewrite !store_in_bounds by (rewrite Hlen; lia).
  destruct (_ || _); reflexivity.
Qed.

Lemma drain_in_bounds fuel :
  forall hc r fr,
    wf r -> framer_ok fr -> Checked.drain_checked fuel hc r fr = drain fuel hc r fr.
Proof.
  induction fuel as [| fuel IH]; intros hc r fr Hwf Hfr; [reflexivity |].
  cbn [Checked.drain_checked drain].
  destruct (bufferTail r =? hc); [reflexivity |].
  pose proof Hwf as (Hlen & _ & Ht).
  rewrite load_in_bounds by (rewrite Hlen; exact Ht). cbn [mbind option_bind].
  fold (at_tail r). rewrite frame_char_in_bounds by assumption.
  cbn [mbind option_bind].
  pose proof (frame_char_ok (at_tail r) fr Hfr) as Hfr'.
  destruct (frame_char (at_tail r) fr) as [fr1 stop]. destruct stop; [reflexivity |].
  apply IH; [now apply wf_advance | exact Hfr'].
Qed.

(** X12: the accesses by index stay inside their arrays. From a state whose
    indices are in range, as at start-up, whatever bytes arrive and
    whatever the clock reads: every store to [gpsDataBuffer[bufferHead]]
    in the interrupt routine, and every read of [gpsDataBuffer[bufferTail]]
    and every store to [sentence[dataCounter]] in the drain loop of
    [getSentence], has its index inside the array (run with these accesses
    bounds-checked, the routine and the loop do not fail and give the same
    result); and the pass of [loop] returns with the indices in range
    again, so that the same holds for the next pass. *)
Theorem indexed_accesses_in_bounds (tz now : Z) (incoming : list Z) (st : State) :
  state_ok st ->
  let arrived :=
    mkState (gpsDataReadISR incoming (ring st)) (framer st) (gps st) (diag st) in
  Checked.gpsDataReadISR_checked incoming (ring st) = Some (gpsDataReadISR incoming (ring st)) /\
  (exists r fr,
      Checked.framed_checked (take_overflow arrived) = Some (r, fr) /\
      framed (take_overflow arrived) = Some (r, fr)) /\
  exists st', feed_then_loop tz now incoming st = Some st' /\ state_ok st'.
Proof.
  intros Hok arrived. pose proof Hok as [Hwf Hfr].
  split; [now apply isr_in_bounds |].
  split; [| now apply pass_keeps_state_ok].
  assert (state_ok (take_overflow arrived)) as [W1 F1]
    by (apply take_overflow_keeps_state_ok; split; [now apply wf_isr | exact Hfr]).
  destruct (framed_total _ W1) as [[r fr] E].
  exists r, fr. split; [| exact E].
  unfold Checked.framed_checked. rewrite drain_in_bounds by assumption. exact E.
Qed.

Lemma indexed_accesses_in_bounds_witness :
  let arrived :=
    mkState (gpsDataReadISR (wire gga_example) (ring state0)) (framer state0)
            (gps state0) (diag state0) in
  Checked.gpsDataReadISR_checked (wire gga_example) (ring state0)
    = Some (gpsDataReadISR (wire gga_example) (ring state0)) /\
  (exists r fr,
      Checked.framed_checked (take_overflow arrived) = Some (r, fr) /\
      framed (take_overflow arrived) = Some (r, fr)) /\
  exists st', feed_then_loop TZOFFSET 1000 (wire gga_example) state0 = Some st' /\ state_ok st'.
Proof.
  apply (indexed_accesses_in_bounds TZOFFSET 1000 (wire gga_example) state0).
  split; [repeat split; vm_compute; lia | split; vm_compute; lia].
Defined.

End StreamFacts.

Module RmcFacts.
Import CString Parser Calendar Samples RmcRecord.
Import CStringFacts ParserFacts Totality.
Local Open Scope nat_scope.

Lemma rmc_loop_field_at fuel fc fld rest f :
  filled fld -> fc < 255 ->
  fst <$> rmc_loop (S fuel) fc (fld ++ ch_comma :: rest) f =
  fst <$> rmc_loop fuel (S fc) rest (rmc_field (S fc) (fld ++ NUL :: rest) f).
Proof.
  intros [Hne Hch] Hfc. rewrite rmc_loop_field by assumption.
  rewrite Nat.mod_small by lia. now rewrite Nat.add_1_r.
Qed.

Lemma rmc_loop_last fuel fc fld rest f :
  filled fld -> fc < 255 ->
  fst <$> rmc_loop (S fuel) fc (fld ++ NUL :: rest) f =
  Some (rmc_field (S fc) (fld ++ NUL :: rest) f).
Proof.
  intros [Hne Hch] Hfc. rewrite rmc_loop_unfold. cbv zeta.
  rewrite strchr_app_nul by assumption. unfold terminate.
  rewrite strlen_app_nul by now apply field_chars_no_nul.
  rewrite Nat.mod_small by lia. rewrite Nat.add_1_r.
  destruct fld; [contradiction | reflexivity].
Qed.

Lemma rmc_field_beyond fc p f : 9 < fc -> rmc_field fc p f = f.
Proof.
  intros H. unfold rmc_field.
  repeat match goal with
    | |- context [Nat.eqb fc ?n] => destruct (Nat.eqb_spec fc n); [lia |]
    end. reflexivity.
Qed.

(** Past field 9 the GPRMC scan changes nothing. *)
Lemma rmc_loop_tail fuel :
  forall fc p f,
    9 <= fc -> fc + length p < 255 -> length p < fuel ->
    fst <$> rmc_loop fuel fc p f = Some f.
Proof.
  induction fuel as [| fuel IH]; intros fc p f Hfc Hlen Hfuel; [lia |].
  rewrite rmc_loop_unfold. cbv zeta.
  rewrite (Nat.mod_small (fc + 1) 256) by lia.
  rewrite rmc_field_beyond by lia.
  destruct (strchr p ch_comma) as [i |] eqn:E.
  2:{ destruct (0 <? strlen _); reflexivity. }
  pose proof (strchr_lt _ _ _ E) as Hi.
  destruct (0 <? strlen (terminate (Some i) p)) eqn:Hs.
  - rewrite fst_bind_pair. apply IH; rewrite ?length_drop, ?terminate_length; lia.
  - apply Nat.ltb_ge in Hs.
    destruct (strlen_zero_head (terminate (Some i) p) ltac:(lia)) as [E0 | [r E0]].
    + apply (f_equal length) in E0. rewrite terminate_length in E0. simpl in E0. lia.
    + rewrite E0. destruct fuel as [| fuel]; [lia |].
      rewrite rmc_loop_unfold. cbv zeta. rewrite strchr_nul_head.
      change (strlen (terminate None (NUL :: r))) with 0. reflexivity.
Qed.

Lemma at_app (fld rest : list Z) (k : nat) : k < length fld -> at_ (fld ++ rest) k = at_ fld k.
Proof. intros H. unfold at_. now apply app_nth1. Qed.

Lemma two_digits_app (fld rest : list Z) (k : nat) :
  S k < length fld -> two_digits (fld ++ rest) k = two_digits fld k.
Proof. intros H. unfold two_digits. rewrite !at_app by lia. reflexivity. Qed.

Lemma atof_app_nul (s rest : list Z) :
  Forall (fun c => c <> NUL) s -> atof (s ++ NUL :: rest) = atof s.
Proof. intros H. unfold atof. now rewrite cstr_app_nul, cstr_id. Qed.

Lemma atof_drop_app (fld rest : list Z) (k : nat) :
  field_chars fld -> k <= length fld ->
  atof (drop k (fld ++ NUL :: rest)) = atof (drop k fld).
Proof.
  intros Hf Hk. rewrite drop_app_le by assumption.
  apply atof_app_nul. apply Forall_drop. now apply field_chars_no_nul.
Qed.

Lemma strcmp_app_nul (fld rest lit : list Z) :
  field_chars fld -> strcmp_eq (fld ++ NUL :: rest) lit = bytes_eqb fld lit.
Proof.
  intros Hf. unfold strcmp_eq. now rewrite cstr_app_nul by now apply field_chars_no_nul.
Qed.

Lemma rmc_field_1 p f :
  rmc_field 1 p f = set_time (two_digits p 0) (two_digits p 2) (two_digits p 4) f.
Proof. reflexivity. Qed.

Lemma rmc_field_2 p f : rmc_field 2 p f = set_valid (strcmp_eq p (chars "A")) f.
Proof. reflexivity. Qed.

Lemma rmc_field_3 p f :
  rmc_field 3 p f =
    set_lat (inject_Z (dtoi (at_ p 0) * 10 + dtoi (at_ p 1)) + atof (drop 2 p) / 60)%Q f.
Proof. reflexivity. Qed.

Lemma rmc_field_4 p f :
  rmc_field 4 p f = if strcmp_eq p (chars "S") then set_lat (- gpsLatD f)%Q f else f.
Proof. reflexivity. Qed.

Lemma rmc_field_5 p f :
  rmc_field 5 p f =
    set_long (inject_Z (dtoi (at_ p 0) * 100 + dtoi (at_ p 1) * 10 + dtoi (at_ p 2))
              + atof (drop 3 p) / 60)%Q f.
Proof. reflexivity. Qed.

Lemma rmc_field_6 p f :
  rmc_field 6 p f = if strcmp_eq p (chars "W") then set_long (- gpsLongD f)%Q f else f.
Proof. reflexivity. Qed.

Lemma rmc_field_7 p f : rmc_field 7 p f = f.
Proof. reflexivity. Qed.

Lemma rmc_field_8 p f : rmc_field 8 p f = f.
Proof. reflexivity. Qed.

Lemma rmc_field_9 p f :
  rmc_field 9 p f = set_date (two_digits p 0) (two_digits p 2) (two_digits p 4) f.
Proof. reflexivity. Qed.

Lemma rmc_record_fields (f1 f2 f3 f4 f5 f6 f7 f8 f9 rest : list Z) (sep : Z) (f : Fix) :
  let sentence :=
    nmeaType1 ++ ch_comma
      :: fields_then [f1; f2; f3; f4; f5; f6; f7; f8] (f9 ++ sep :: rest) in
  Forall filled [f1; f2; f3; f4; f5; f6; f7; f8; f9] ->
  6 <= length f1 -> 2 <= length f3 -> 3 <= length f5 -> 6 <= length f9 ->
  sep = ch_comma \/ sep = NUL ->
  length sentence <= S NMEAMAXLEN ->
  exists f',
    fst <$> parseSentence sentence f = Some f' /\
    time_of f' = triple_of f1 /\
    gpsValid f' = bytes_eqb f2 (chars "A") /\
    gpsLatD f' = (if bytes_eqb f4 (chars "S") then - latitude_of f3 else latitude_of f3)%Q /\
    gpsLongD f' = (if bytes_eqb f6 (chars "W") then - longitude_of f5 else longitude_of f5)%Q /\
    date_of f' = triple_of f9 /\
    gpsSats f' = gpsSats f.
Proof.
  intros sentence Hall L1 L3 L5 L9 Hsep Hfit.
  inversion_clear Hall as [| ? ? G1 T1]. inversion_clear T1 as [| ? ? G2 T2].
  inversion_clear T2 as [| ? ? G3 T3]. inversion_clear T3 as [| ? ? G4 T4].
  inversion_clear T4 as [| ? ? G5 T5]. inversion_clear T5 as [| ? ? G6 T6].
  inversion_clear T6 as [| ? ? G7 T7]. inversion_clear T7 as [| ? ? G8 T8].
  inversion_clear T8 as [| ? ? G9 _].
  subst sentence. rewrite parse_rmc.
  set (body := fields_then [f1; f2; f3; f4; f5; f6; f7; f8] (f9 ++ sep :: rest)) in *.
  assert (exists k, S (length (nmeaType1 ++ ch_comma :: body)) = 10 + k
                 /\ length rest < k) as (k & -> & Hk).
  { pose proof (fields_then_length [f1; f2; f3; f4; f5; f6; f7; f8] (f9 ++ sep :: rest)) as Hl.
    fold body in Hl. rewrite length_app in *. cbn [length] in *.
    exists (S (length (nmeaType1)) + S (length body) - 10).
    change (length nmeaType1) with 5 in *. split; lia. }
  assert (length rest < 200) as Hrest.
  { pose proof (fields_then_length [f1; f2; f3; f4; f5; f6; f7; f8] (f9 ++ sep :: rest)) as Hl.
    fold body in Hl. rewrite !length_app in *. cbn [length] in *.
    unfold NMEAMAXLEN in *. lia. }
  unfold body, fields_then. cbn [foldr Nat.add].
  do 8 (rewrite rmc_loop_field_at by (assumption || lia)).
  assert (fst <$> rmc_loop (S (S k)) 8 (f9 ++ sep :: rest)
            (rmc_field 8 (f8 ++ NUL :: f9 ++ sep :: rest)
            (rmc_field 7 (f7 ++ NUL :: f8 ++ ch_comma :: f9 ++ sep :: rest)
            (rmc_field 6 (f6 ++ NUL :: f7 ++ ch_comma :: f8 ++ ch_comma :: f9 ++ sep :: rest)
            (rmc_field 5 (f5 ++ NUL :: f6 ++ ch_comma :: f7 ++ ch_comma :: f8 ++ ch_comma :: f9 ++ sep :: rest)
            (rmc_field 4 (f4 ++ NUL :: f5 ++ ch_comma :: f6 ++ ch_comma :: f7 ++ ch_comma :: f8 ++ ch_comma :: f9 ++ sep :: rest)
            (rmc_field 3 (f3 ++ NUL :: f4 ++ ch_comma :: f5 ++ ch_comma :: f6 ++ ch_comma :: f7 ++ ch_comma :: f8 ++ ch_comma :: f9 ++ sep :: rest)
            (rmc_field 2 (f2 ++ NUL :: f3 ++ ch_comma :: f4 ++ ch_comma :: f5 ++ ch_comma :: f6 ++ ch_comma :: f7 ++ ch_comma :: f8 ++ ch_comma :: f9 ++ sep :: rest)
            (rmc_field 1 (f1 ++ NUL :: f2 ++ ch_comma :: f3 ++ ch_comma :: f4 ++ ch_comma :: f5 ++ ch_comma :: f6 ++ ch_comma :: f7 ++ ch_comma :: f8 ++ ch_comma :: f9 ++ sep :: rest) f))))))))
          = Some (rmc_field 9 (f9 ++ NUL :: rest)
            (rmc_field 8 (f8 ++ NUL :: f9 ++ sep :: rest)
            (rmc_field 7 (f7 ++ NUL :: f8 ++ ch_comma :: f9 ++ sep :: rest)
            (rmc_field 6 (f6 ++ NUL :: f7 ++ ch_comma :: f8 ++ ch_comma :: f9 ++ sep :: rest)
            (rmc_field 5 (f5 ++ NUL :: f6 ++ ch_comma :: f7 ++ ch_comma :: f8 ++ ch_comma :: f9 ++ sep :: rest)
            (rmc_field 4 (f4 ++ NUL :: f5 ++ ch_comma :: f6 ++ ch_comma :: f7 ++ ch_comma :: f8 ++ ch_comma :: f9 ++ sep :: rest)
            (rmc_field 3 (f3 ++ NUL :: f4 ++ ch_comma :: f5 ++ ch_comma :: f6 ++ ch_comma :: f7 ++ ch_comma :: f8 ++ ch_comma :: f9 ++ sep :: rest)
            (rmc_field 2 (f2 ++ NUL :: f3 ++ ch_comma :: f4 ++ ch_comma :: f5 ++ ch_comma :: f6 ++ ch_comma :: f7 ++ ch_comma :: f8 ++ ch_comma :: f9 ++ sep :: rest)
            (rmc_field 1 (f1 ++ NUL :: f2 ++ ch_comma :: f3 ++ ch_comma :: f4 ++ ch_comma :: f5 ++ ch_comma :: f6 ++ ch_comma :: f7 ++ ch_comma :: f8 ++ ch_comma :: f9 ++ sep :: rest) f)))))))))) as E.
  { destruct Hsep as [-> | ->].
    - rewrite rmc_loop_field_at by (assumption || lia). apply rmc_loop_tail; lia.
    - apply rmc_loop_last; (assumption || lia). }
  rewrite E. clear E. eexists. split; [reflexivity |].
  destruct G1 as [_ C1]. destruct G2 as [_ C2]. destruct G3 as [_ C3]. destruct G4 as [_ C4].
  destruct G5 as [_ C5]. destruct G6 as [_ C6]. destruct G9 as [_ C9].
  rewrite rmc_field_9, rmc_field_8, rmc_field_7, rmc_field_6, rmc_field_5,
    rmc_field_4, rmc_field_3, rmc_field_2, rmc_field_1.
  rewrite !strcmp_app_nul by assumption.
  rewrite !two_digits_app by lia.
  rewrite !at_app by lia.
  rewrite !atof_drop_app by (assumption || lia).
  unfold triple_of, latitude_of, longitude_of, time_of, date_of.
  destruct f as [v d m y h mi s la lo sa].
  destruct (bytes_eqb f4 (chars "S")); destruct (bytes_eqb f6 (chars "W"));
    repeat split; reflexivity.
Qed.

(** X13: a GPRMC payload whose fields 1 to 9 are all non-empty, with at
    least the six digits of the time and of the date, two characters of
    latitude and three of longitude, the latitude and the longitude in
    plain decimal notation (digits and a point): [parseSentence] reads the
    time from field 1, the validity from field 2 ([A] alone is valid), the
    latitude from field 3 negated when field 4 is [S], the longitude from
    field 5 negated when field 6 is [W], the date from field 9, and leaves
    the satellite count. Latitude and longitude are degrees plus minutes
    over 60, in exact arithmetic. *)
Theorem rmc_complete_record (f1 f2 f3 f4 f5 f6 f7 f8 f9 rest : list Z) (sep : Z) (f : Fix) :
  let sentence :=
    nmeaType1 ++ ch_comma
      :: fields_then [f1; f2; f3; f4; f5; f6; f7; f8] (f9 ++ sep :: rest) in
  Forall filled [f1; f2; f3; f4; f5; f6; f7; f8; f9] ->
  6 <= length f1 -> 2 <= length f3 -> 3 <= length f5 -> 6 <= length f9 ->
  Forall decimal_char f3 -> Forall decimal_char f5 ->
  sep = ch_comma \/ sep = NUL ->
  length sentence <= S NMEAMAXLEN ->
  exists f',
    fst <$> parseSentence sentence f = Some f' /\
    time_of f' = triple_of f1 /\
    gpsValid f' = bytes_eqb f2 (chars "A") /\
    gpsLatD f' = (if bytes_eqb f4 (chars "S") then - latitude_of f3 else latitude_of f3)%Q /\
    gpsLongD f' = (if bytes_eqb f6 (chars "W") then - longitude_of f5 else longitude_of f5)%Q /\
    date_of f' = triple_of f9 /\
    gpsSats f' = gpsSats f.
Proof.
  intros sentence Hall L1 L3 L5 L9 _ _ Hsep Hfit.
  now apply rmc_record_fields.
Qed.

Ltac decimal_ok :=
  vm_compute;
  repeat (apply Forall_cons;
          [first [right; reflexivity | left; split; discriminate] |]);
  apply Forall_nil.

Lemma rmc_complete_record_witness :
  exists f',
    fst <$> parseSentence
              (nmeaType1 ++ ch_comma
                 :: fields_then [chars "123519"; chars "A"; chars "4807.038"; chars "S";
                                 chars "01131.000"; chars "E"; chars "022.4"; chars "084.4"]
                      (chars "230394" ++ ch_comma :: chars "003.1,W")) fix0
      = Some f' /\
    time_of f' = triple_of (chars "123519") /\
    gpsValid f' = bytes_eqb (chars "A") (chars "A") /\
    gpsLatD f' = (if bytes_eqb (chars "S") (chars "S")
                  then - latitude_of (chars "4807.038")
                  else latitude_of (chars "4807.038"))%Q /\
    gpsLongD f' = (if bytes_eqb (chars "E") (chars "W")
                   then - longitude_of (chars "01131.000")
                   else longitude_of (chars "01131.000"))%Q /\
    date_of f' = triple_of (chars "230394") /\
    gpsSats f' = gpsSats fix0.
Proof.
  apply (rmc_complete_record
           (chars "123519") (chars "A") (chars "4807.038") (chars "S")
           (chars "01131.000") (chars "E") (chars "022.4") (chars "084.4")
           (chars "230394") (chars "003.1,W") ch_comma fix0).
  - fields_ok.
  - vm_compute. lia.
  - vm_compute. lia.
  - vm_compute. lia.
  - vm_compute. lia.
  - decimal_ok.
  - decimal_ok.
  - left. reflexivity.
  - vm_compute. lia.
Defined.

End RmcFacts.

Module RangeFacts.
Import CString Parser Calendar Samples Ranges.
Import CStringFacts ParserFacts Totality.

Lemma dtoi_range c : 0 <= dtoi c <= 9.
Proof.
  unfold dtoi, to_byte.
  destruct (Z.leb_spec 48 c); destruct (Z.leb_spec c 57); cbn [andb]; lia.
Qed.

Lemma two_digits_range p k : 0 <= two_digits p k <= 99.
Proof.
  unfold two_digits, to_byte.
  pose proof (dtoi_range (at_ p k)). pose proof (dtoi_range (at_ p (S k))).
  lia.
Qed.

Lemma rmc_field_range fc p f : fix_in_range f -> fix_in_range (rmc_field fc p f).
Proof.
  intros H. unfold rmc_field.
  pose proof (two_digits_range p 0). pose proof (two_digits_range p 2).
  pose proof (two_digits_range p 4).
  destruct f as [v d m y h mi s la lo sa]. unfold fix_in_range in *. cbn in H.
  repeat match goal with
    | |- context [Nat.eqb fc ?n] => destruct (Nat.eqb_spec fc n); [subst fc |]
    end; cbn [Nat.eqb];
  repeat match goal with
    | |- context [strcmp_eq ?a ?b] => destruct (strcmp_eq a b)
    end; cbn; lia.
Qed.

Lemma gga_field_range fc p f : fix_in_range f -> fix_in_range (gga_field fc p f).
Proof.
  intros H. unfold gga_field.
  destruct ((fc =? 7)%nat && (0 <? strlen p)%nat); [| exact H].
  pose proof (Z.mod_pos_bound (atoi p) 256 ltac:(lia)).
  destruct f as [v d m y h mi s la lo sa]. unfold fix_in_range, to_byte in *. cbn in *.
  destruct v; lia.
Qed.

Lemma rmc_loop_range fuel :
  forall fc p f f' p',
    rmc_loop fuel fc p f = Some (f', p') -> fix_in_range f -> fix_in_range f'.
Proof.
  induction fuel as [| fuel IH]; intros fc p f f' p' H Hr; [discriminate |].
  rewrite rmc_loop_unfold in H. cbv zeta in H.
  destruct (0 <? strlen _)%nat; destruct (strchr p ch_comma) as [i |].
  - destruct (rmc_loop fuel _ _ _) as [[f1 r] |] eqn:E; [| discriminate].
    injection H as <- <-. eapply IH; [exact E | now apply rmc_field_range].
  - injection H as <- <-. now apply rmc_field_range.
  - eapply IH; eassumption.
  - injection H as <- <-. assumption.
Qed.

Lemma gga_loop_range fuel :
  forall fc p f f' p',
    gga_loop fuel fc p f = Some (f', p') -> fix_in_range f -> fix_in_range f'.
Proof.
  induction fuel as [| fuel IH]; intros fc p f f' p' H Hr; [discriminate |].
  rewrite gga_loop_unfold in H. cbv zeta in H.
  destruct (strchr p ch_comma) as [i |].
  - destruct (gga_loop fuel _ _ _) as [[f1 r] |] eqn:E; [| discriminate].
    injection H as <- <-. eapply IH; [exact E | now apply gga_field_range].
  - injection H as <- <-. now apply gga_field_range.
Qed.

(** X14: whatever the record buffer holds, [parseSentence] returns and keeps the time and
    date fields of the Fix within two decimal digits and the satellite
    count within a byte. *)
Theorem parseSentence_keeps_ranges (sentence : list Z) (f : Fix) :
  fix_in_range f ->
  exists f' sentence',
    parseSentence sentence f = Some (f', sentence') /\ fix_in_range f'.
Proof.
  intros Hr. destruct (parseSentence_total sentence f) as [[f' m'] E].
  exists f', m'. split; [exact E |].
  unfold parseSentence in E.
  destruct (strchr sentence ch_comma) as [i |]; [| injection E as <- <-; assumption].
  destruct (strcmp_eq _ nmeaType1).
  - destruct (rmc_loop _ _ _ _) as [[f1 r] |] eqn:El; [| discriminate].
    injection E as <- <-. eapply rmc_loop_range; eassumption.
  - destruct (strcmp_eq _ nmeaType2); [| injection E as <- <-; assumption].
    destruct (gga_loop _ _ _ _) as [[f1 r] |] eqn:El; [| discriminate].
    injection E as <- <-. eapply gga_loop_range; eassumption.
Qed.

Lemma parseSentence_keeps_ranges_witness :
  exists f' sentence',
    parseSentence rmc_full_example fix0 = Some (f', sentence') /\ fix_in_range f'.
Proof.
  apply (parseSentence_keeps_ranges rmc_full_example fix0).
  unfold fix_in_range. cbn. lia.
Defined.

Lemma bytes_eqb_eq (a : list Z) : forall b, bytes_eqb a b = true <-> a = b.
Proof.
  induction a as [| x a IH]; intros [| y b]; simpl; try (split; (discriminate || reflexivity)).
  rewrite andb_true_iff, Z.eqb_eq, IH. split; [intros [-> ->]; reflexivity | intros [= -> ->]; auto].
Qed.

Lemma bytes_eqb_neq (a b : list Z) : a <> b -> bytes_eqb a b = false.
Proof.
  intros H. destruct (bytes_eqb a b) eqn:E; [| reflexivity].
  apply bytes_eqb_eq in E. contradiction.
Qed.

(** X15: a record whose identifier is neither GPRMC nor GPGGA, and a record
    without any comma, leave the Fix as it is; of the buffer only the
    first comma is overwritten. *)
Theorem parseSentence_ignores_other_records (ident rest : list Z) (f : Fix) :
  field_chars ident ->
  parseSentence (ident ++ NUL :: rest) f = Some (f, ident ++ NUL :: rest) /\
  (ident <> nmeaType1 -> ident <> nmeaType2 ->
   parseSentence (ident ++ ch_comma :: rest) f = Some (f, ident ++ NUL :: rest)).
Proof.
  intros Hf. split.
  - unfold parseSentence. now rewrite strchr_app_nul.
  - intros H1 H2. unfold parseSentence.
    rewrite strchr_app_found by (assumption || apply comma_not_nul).
    rewrite insert_middle. unfold strcmp_eq.
    rewrite cstr_app_nul by now apply field_chars_no_nul.
    now rewrite !bytes_eqb_neq.
Qed.

Lemma parseSentence_ignores_other_records_witness :
  parseSentence (chars "GPGSV" ++ NUL :: chars "3,1,11") fix0
    = Some (fix0, chars "GPGSV" ++ NUL :: chars "3,1,11") /\
  (chars "GPGSV" <> nmeaType1 -> chars "GPGSV" <> nmeaType2 ->
   parseSentence (chars "GPGSV" ++ ch_comma :: chars "3,1,11") fix0
     = Some (fix0, chars "GPGSV" ++ NUL :: chars "3,1,11")).
Proof.
  apply (parseSentence_ignores_other_records (chars "GPGSV") (chars "3,1,11") fix0).
  vm_compute. repeat constructor; discriminate.
Defined.

End RangeFacts.

Module CalendarMore.
Import Calendar Ranges CalendarFacts.

Ltac date_cases m y :=
  let Hleap := fresh "Hleap" in
  destruct (y mod 4 =? 0) eqn:Hleap;
  month_cases m; unfold days_in_month in *; simpl in *; rewrite ?Hleap in *;
  split_tests; rewrite ?Hleap in *; try lia; try (repeat split; lia).

Lemma days_in_month_pos y m : 28 <= days_in_month y m <= 31.
Proof. unfold days_in_month. split_tests; lia. Qed.

Lemma next_day_valid d m y : valid_dmy (d, m, y) -> valid_dmy (next_day d m y).
Proof.
  unfold valid_dmy, next_day. intros (Hm & Hd & Hy).
  destruct (Z.leb_spec (d + 1) (days_in_month y m)); [repeat split; lia |].
  destruct (Z.leb_spec (m + 1) 12).
  - pose proof (days_in_month_pos y (m + 1)). repeat split; lia.
  - destruct (Z.leb_spec (y + 1) 99).
    + pose proof (days_in_month_pos (y + 1) 1). repeat split; lia.
    + pose proof (days_in_month_pos 0 1). repeat split; lia.
Qed.

Lemma prev_day_valid d m y : valid_dmy (d, m, y) -> valid_dmy (prev_day d m y).
Proof.
  unfold valid_dmy, prev_day. intros (Hm & Hd & Hy).
  destruct (Z.leb_spec 1 (d - 1)); [repeat split; lia |].
  destruct (Z.leb_spec 1 (m - 1)).
  - pose proof (days_in_month_pos y (m - 1)). repeat split; lia.
  - destruct (Z.leb_spec 0 (y - 1)).
    + pose proof (days_in_month_pos (y - 1) 12). repeat split; lia.
    + pose proof (days_in_month_pos 99 12). repeat split; lia.
Qed.

Lemma days_in_december y : days_in_month y 12 = 31.
Proof. reflexivity. Qed.

Ltac day_tests :=
  repeat first
    [ progress cbv beta iota zeta
    | match goal with
      | |- context [(?x <=? ?y)%Z] => destruct (Z.leb_spec x y)
      end ];
  rewrite ?days_in_december in *; try lia.

Ltac same_day := solve [repeat (f_equal; try lia)].

Lemma prev_next_day d m y :
  valid_dmy (d, m, y) ->
  (let '(d', m', y') := next_day d m y in prev_day d' m' y') = (d, m, y).
Proof.
  unfold valid_dmy, next_day, prev_day. intros (Hm & Hd & Hy).
  day_tests; try same_day.
  - replace (m + 1 - 1) with m by lia. same_day.
  - assert (m = 12) by lia. subst m. rewrite days_in_december in *. same_day.
  - assert (m = 12) by lia. subst m. rewrite days_in_december in *. same_day.
Qed.

Lemma next_prev_day d m y :
  valid_dmy (d, m, y) ->
  (let '(d', m', y') := prev_day d m y in next_day d' m' y') = (d, m, y).
Proof.
  unfold valid_dmy, next_day, prev_day. intros (Hm & Hd & Hy).
  day_tests; try same_day.
Qed.

Lemma valid_date_dmy f : valid_date f <-> valid_dmy (date_of f).
Proof. reflexivity. Qed.

Lemma tz_same_day (tz : Z) (f : Fix) :
  valid_date f -> 0 <= gpsTimeH f + tz <= 23 ->
  tz_adjust tz f = with_hour (gpsTimeH f + tz) f.
Proof.
  destruct f as [v d m y h mi s la lo sa]; unfold valid_date; simpl.
  intros (Hm & Hd & Hy) Hsum.
  unfold tz_adjust, hour_rollover; simpl.
  destruct (Z.leb_spec 24 (h + tz)); [lia |].
  destruct (Z.ltb_spec (h + tz) 0); [lia |].
  rewrite rem_mod_nonneg by lia.
  unfold date_rollover.
  destruct (y mod 4 =? 0) eqn:Hleap; calendar_cases m Hleap.
Qed.

(** X16: when the local hour stays within the day the calendar block
    changes the hour only, for every offset; with the offset as shipped
    ([TZOFFSET], 0) it leaves such a Fix as it is. *)
Theorem tz_within_the_day (tz : Z) (f : Fix) :
  valid_date f -> 0 <= gpsTimeH f + tz <= 23 ->
  tz_adjust tz f = with_hour (gpsTimeH f + tz) f /\
  (tz = TZOFFSET -> tz_adjust tz f = f).
Proof.
  intros Hv Hs. rewrite tz_same_day by assumption. split; [reflexivity |].
  unfold TZOFFSET. intros ->. rewrite Z.add_0_r. destruct f; reflexivity.
Qed.

Lemma tz_within_the_day_witness :
  let f := mkFix true 29 2 24 12 35 19 0 0 8 in
  tz_adjust 5 f = with_hour (gpsTimeH f + 5) f /\
  (5 = TZOFFSET -> tz_adjust 5 f = f).
Proof.
  apply (tz_within_the_day 5 (mkFix true 29 2 24 12 35 19 0 0 8)); by_eval.
Defined.

Lemma tz_adjust_valid (tz : Z) (f : Fix) :
  valid_date f -> 0 <= gpsTimeH f <= 23 -> -24 < tz < 24 ->
  valid_date (tz_adjust tz f) /\ 0 <= gpsTimeH (tz_adjust tz f) <= 23.
Proof.
  intros Hv Hh Htz.
  destruct (Z.le_gt_cases 24 (gpsTimeH f + tz)) as [Hf | Hf].
  - rewrite tz_forward by assumption.
    pose proof (next_day_valid _ _ _ (proj1 (valid_date_dmy f) Hv)) as Hn.
    destruct (next_day (gpsDateD f) (gpsDateM f) (gpsDateY f)) as [[d' m'] y'].
    destruct f; cbn in *. split; [exact Hn | lia].
  - destruct (Z.lt_ge_cases (gpsTimeH f + tz) 0) as [Hb | Hb].
    + rewrite tz_backward by (assumption || lia).
      pose proof (prev_day_valid _ _ _ (proj1 (valid_date_dmy f) Hv)) as Hn.
      destruct (prev_day (gpsDateD f) (gpsDateM f) (gpsDateY f)) as [[d' m'] y'].
      destruct f; cbn in *. split; [exact Hn | lia].
    + rewrite tz_same_day by (assumption || lia).
      destruct f; cbn in *. split; [exact Hv | lia].
Qed.

(** X17: the calendar block turns a calendar date of 2000-2099 with an
    hour of the day into a calendar date with an hour of the day, for every
    offset of magnitude below 24. *)
Theorem tz_keeps_calendar_dates (tz : Z) (f : Fix) :
  valid_date f -> 0 <= gpsTimeH f <= 23 -> -24 < tz < 24 ->
  valid_date (tz_adjust tz f) /\ 0 <= gpsTimeH (tz_adjust tz f) <= 23.
Proof. apply tz_adjust_valid. Qed.

Lemma tz_keeps_calendar_dates_witness :
  let f := mkFix true 28 2 23 23 59 59 0 0 8 in
  valid_date (tz_adjust 1 f) /\ 0 <= gpsTimeH (tz_adjust 1 f) <= 23.
Proof.
  apply (tz_keeps_calendar_dates 1 (mkFix true 28 2 23 23 59 59 0 0 8)); by_eval.
Defined.

(** X18: applying an offset and then the opposite offset gives the Fix
    back, across day, month, leap-day, year and century boundaries: the
    backward rollover of the calendar block undoes the forward one. *)
Theorem tz_round_trip (tz : Z) (f : Fix) :
  valid_date f -> 0 <= gpsTimeH f <= 23 -> -24 < tz < 24 ->
  tz_adjust (- tz) (tz_adjust tz f) = f.
Proof.
  intros Hv Hh Htz.
  destruct (tz_adjust_valid tz f Hv Hh Htz) as [Hv1 Hh1].
  pose proof (proj1 (valid_date_dmy f) Hv) as Hd.
  destruct (Z.le_gt_cases 24 (gpsTimeH f + tz)) as [Hf | Hf].
  - pose proof (tz_forward tz f Hv Hh Htz Hf) as E1. rewrite E1 in *. clear E1.
    pose proof (prev_next_day _ _ _ Hd) as Hpn.
    destruct (next_day (gpsDateD f) (gpsDateM f) (gpsDateY f)) as [[d' m'] y'].
    destruct f as [v d m y h mi s la lo sa]; cbn in *.
    rewrite tz_backward by (cbn; (assumption || lia)). cbn. rewrite Hpn.
    unfold with_date, set_date, with_hour, set_time; cbn. f_equal. lia.
  - destruct (Z.lt_ge_cases (gpsTimeH f + tz) 0) as [Hb | Hb].
    + pose proof (tz_backward tz f Hv Hh ltac:(lia)) as E1. rewrite E1 in *. clear E1.
      pose proof (next_prev_day _ _ _ Hd) as Hnp.
      destruct (prev_day (gpsDateD f) (gpsDateM f) (gpsDateY f)) as [[d' m'] y'].
      destruct f as [v d m y h mi s la lo sa]; cbn in *.
      rewrite tz_forward by (cbn; (assumption || lia)). cbn. rewrite Hnp.
      unfold with_date, set_date, with_hour, set_time; cbn. f_equal. lia.
    + pose proof (tz_same_day tz f Hv ltac:(lia)) as E1. rewrite E1 in *. clear E1.
      destruct f as [v d m y h mi s la lo sa]; cbn in *.
      rewrite tz_same_day by (cbn; (assumption || lia)).
      unfold with_hour, set_time; cbn. f_equal. lia.
Qed.

Lemma tz_round_trip_witness :
  let f := mkFix true 31 12 99 23 59 59 0 0 8 in
  tz_adjust (- 2) (tz_adjust 2 f) = f.
Proof.
  apply (tz_round_trip 2 (mkFix true 31 12 99 23 59 59 0 0 8)); by_eval.
Defined.

End CalendarMore.

Module ChecksumFacts.
Import CString Acquisition Samples Stream.
Import CStringFacts ValidatorFacts StreamFacts.

Lemma to_byte_land x : to_byte x = Z.land x 255.
Proof.
  unfold to_byte. change 256 with (2 ^ 8). change 255 with (Z.ones 8).
  now rewrite Z.land_ones by lia.
Qed.

Lemma to_byte_is_byte x : is_byte (to_byte x).
Proof. unfold is_byte, to_byte. apply Z.mod_pos_bound. lia. Qed.

Lemma land_lxor a b c : Z.land (Z.lxor a b) c = Z.lxor (Z.land a c) (Z.land b c).
Proof.
  apply Z.bits_inj'. intros n Hn.
  rewrite Z.lxor_spec, !Z.land_spec, Z.lxor_spec.
  destruct (Z.testbit a n), (Z.testbit b n), (Z.testbit c n); reflexivity.
Qed.

Lemma lxor_cancel a b c : Z.lxor a c = Z.lxor b c -> a = b.
Proof.
  intros H. apply (f_equal (fun z => Z.lxor z c)) in H.
  now rewrite !Z.lxor_assoc, Z.lxor_nilpotent, !Z.lxor_0_r in H.
Qed.

(** One pass of the checksum loop, [ckSumCalc ^= byte(c)], is injective in
    the running checksum and in the byte. *)
Lemma xor_step_inj_l ck ck' c :
  is_byte ck -> is_byte ck' ->
  to_byte (Z.lxor ck (to_byte c)) = to_byte (Z.lxor ck' (to_byte c)) -> ck = ck'.
Proof.
  intros Hk Hk' H. rewrite !to_byte_land, !land_lxor in H.
  apply lxor_cancel in H. rewrite <- !to_byte_land, !to_byte_id in H; assumption.
Qed.

Lemma xor_step_inj_r ck c c' :
  is_byte c -> is_byte c' ->
  to_byte (Z.lxor ck (to_byte c)) = to_byte (Z.lxor ck (to_byte c')) -> c = c'.
Proof.
  intros Hc Hc' H. rewrite !(Z.lxor_comm ck) in H.
  rewrite (to_byte_id c), (to_byte_id c') in H by assumption.
  rewrite !to_byte_land, !land_lxor in H.
  apply lxor_cancel in H. rewrite <- !to_byte_land, !to_byte_id in H; assumption.
Qed.

Lemma xor_fold_inj (s : list Z) :
  forall ck ck', is_byte ck -> is_byte ck' -> ck <> ck' ->
    fold_left (fun ck c => to_byte (Z.lxor ck (to_byte c))) s ck
    <> fold_left (fun ck c => to_byte (Z.lxor ck (to_byte c))) s ck'.
Proof.
  induction s as [| c s IH]; intros ck ck' Hk Hk' Hne; simpl; [exact Hne |].
  apply IH; try apply to_byte_is_byte.
  intros E. apply Hne. eapply xor_step_inj_l; eassumption.
Qed.

Lemma xor_bytes_one_byte (before after : list Z) (x y : Z) :
  is_byte x -> is_byte y -> x <> y ->
  xor_bytes (before ++ x :: after) <> xor_bytes (before ++ y :: after).
Proof.
  intros Hx Hy Hne. unfold xor_bytes. rewrite !fold_left_app. cbn [fold_left].
  apply xor_fold_inj; try apply to_byte_is_byte.
  intros E. apply Hne. eapply xor_step_inj_r; eassumption.
Qed.

(** X9: a record in which one byte of the payload was changed on the way
    (to a byte that is neither NUL nor [*]) is rejected as a checksum
    mismatch, whatever the byte, its position and the rest of the record. *)
Theorem single_byte_corruption_detected
        (upper : bool) (before after rest : list Z) (sent received : Z) :
  let ck := xor_bytes (before ++ sent :: after) in
  is_byte sent -> is_byte received -> received <> sent ->
  plain (before ++ received :: after) ->
  fst (validate ((before ++ received :: after)
                   ++ [ch_star; hex_digit upper (ck / 16); hex_digit upper (ck mod 16)]
                   ++ rest))
    = CrcMismatch.
Proof.
  intros ck Hs Hr Hne Hp.
  pose proof (xor_bytes_range (before ++ sent :: after)) as Hck. fold ck in Hck.
  assert (0 <= ck / 16 < 16)%Z as Hhi
    by (split; [apply Z.div_pos | apply Z.div_lt_upper_bound]; lia).
  assert (0 <= ck mod 16 < 16)%Z as Hlo by (apply Z.mod_pos_bound; lia).
  destruct (hex_digit_plain upper _ Hhi) as [A1 A2].
  destruct (hex_digit_plain upper _ Hlo) as [B1 B2].
  cbn [app]. rewrite validate_wellformed; try assumption.
  - rewrite decode_hex_digits by assumption.
    destruct (Z.eqb_spec (xor_bytes (before ++ received :: after)) ck) as [E | _];
      [| reflexivity].
    exfalso. revert E. apply xor_bytes_one_byte; assumption.
  - destruct before; discriminate.
Qed.

Lemma single_byte_corruption_detected_witness :
  let ck := xor_bytes (chars "GPRMC,1235" ++ 49 :: chars "9,A") in
  fst (validate ((chars "GPRMC,1235" ++ 55 :: chars "9,A")
                   ++ [ch_star; hex_digit true (ck / 16); hex_digit true (ck mod 16)]
                   ++ [NUL]))
    = CrcMismatch.
Proof.
  apply (single_byte_corruption_detected true (chars "GPRMC,1235") (chars "9,A") [NUL] 49 55).
  - unfold is_byte. lia.
  - unfold is_byte. lia.
  - discriminate.
  - plain_ok.
Defined.

End ChecksumFacts.

Module ChunkFacts.
Import CString Parser Calendar RingBuffer Interleaving Acquisition Samples Stream.
Import CStringFacts ParserFacts RingFacts ValidatorFacts Totality StreamFacts.
Local Open Scope nat_scope.

Lemma frame_char_stop c fr fr' : frame_char c fr = (fr', true) -> complete fr' = true.
Proof.
  unfold frame_char, complete.
  destruct (c =? ch_dollar)%Z; [discriminate |].
  destruct (dataStart fr); [| discriminate].
  destruct ((c =? ch_CR)%Z || (c =? ch_LF)%Z || (dataCounter fr =? NMEAMAXLEN));
    [| discriminate].
  intros [= <-]. reflexivity.
Qed.

(** As long as no record is complete the drain loop has read every byte,
    and goes on with later bytes as if they had been there at once. *)
Lemma frame_list_incomplete (bs : list Z) :
  forall fr,
    complete (fst (frame_list bs fr)) = false ->
    snd (frame_list bs fr) = [] /\
    forall more, frame_list (bs ++ more) fr = frame_list more (fst (frame_list bs fr)).
Proof.
  induction bs as [| c bs IH]; intros fr H; [split; reflexivity |].
  cbn [app frame_list] in *.
  destruct (frame_char c fr) as [fr1 stop] eqn:E. destruct stop.
  - apply frame_char_stop in E. cbn [fst] in H. congruence.
  - now apply IH.
Qed.

Lemma take_overflow_fields st :
  ring (take_overflow st)
    = mkRing (gpsDataBuffer (ring st)) (bufferHead (ring st)) (bufferTail (ring st)) false /\
  framer (take_overflow st) = framer st /\
  gps (take_overflow st) = gps st /\
  diag (take_overflow st)
    = if bufferOverflow (ring st)
      then mkDiag (checksumErrors (diag st)) (lastFixMillis (diag st))
                  (serial (diag st) ++ [MsgBufferOverflow])
      else diag st.
Proof.
  unfold take_overflow. destruct (ring st) as [b h t ov] eqn:E.
  destruct ov; cbn [bufferOverflow ring framer gps diag gpsDataBuffer bufferHead bufferTail];
    auto.
Qed.

Lemma ring_eq r1 r2 :
  wf r1 -> wf r2 ->
  gpsDataBuffer r1 = gpsDataBuffer r2 -> bufferHead r1 = bufferHead r2 ->
  bufferOverflow r1 = bufferOverflow r2 -> length (pending r1) = length (pending r2) ->
  r1 = r2.
Proof.
  intros (_ & H1 & T1) (_ & H2 & T2) Eb Eh Eo El. rewrite !pending_dist in El.
  destruct r1 as [b1 h1 t1 o1], r2 as [b2 h2 t2 o2].
  cbn [gpsDataBuffer bufferHead bufferTail bufferOverflow] in *. subst.
  f_equal. unfold dist in El. modlia.
Qed.

(** With room for all of them, where the bytes are stored depends on the
    array and the head only. *)
Lemma isr_same_stores (incoming : list Z) :
  forall r1 r2,
    wf r1 -> wf r2 ->
    gpsDataBuffer r1 = gpsDataBuffer r2 -> bufferHead r1 = bufferHead r2 ->
    length incoming <= room r1 -> length incoming <= room r2 ->
    gpsDataBuffer (gpsDataReadISR incoming r1) = gpsDataBuffer (gpsDataReadISR incoming r2) /\
    bufferHead (gpsDataReadISR incoming r1) = bufferHead (gpsDataReadISR incoming r2).
Proof.
  induction incoming as [| c incoming IH]; intros r1 r2 W1 W2 Eb Eh L1 L2; [now split |].
  cbn [length] in *.
  change (gpsDataReadISR (c :: incoming) r1) with (gpsDataReadISR incoming (push c r1)).
  change (gpsDataReadISR (c :: incoming) r2) with (gpsDataReadISR incoming (push c r2)).
  assert (~ full r1) as F1 by (rewrite full_no_room by assumption; lia).
  assert (~ full r2) as F2 by (rewrite full_no_room by assumption; lia).
  apply IH; try (apply wf_push; assumption);
    rewrite ?room_push by assumption; try lia.
  - unfold push. unfold full in F1, F2.
    destruct (Nat.eqb_spec ((bufferHead r1 + 1) mod GPSBUFR1) (bufferTail r1));
      [contradiction |].
    destruct (Nat.eqb_spec ((bufferHead r2 + 1) mod GPSBUFR1) (bufferTail r2));
      [contradiction |].
    cbn [gpsDataBuffer]. now rewrite Eb, Eh.
  - destruct (push_stored c r1 W1 F1) as (_ & -> & _).
    destruct (push_stored c r2 W2 F2) as (_ & -> & _). now rewrite Eh.
Qed.

Lemma getSentence_ext now st st' :
  framed st = framed st' -> gps st = gps st' -> diag st = diag st' ->
  getSentence now st = getSentence now st'.
Proof. unfold getSentence, framed. intros -> -> ->. reflexivity. Qed.

Lemma loop_ext tz now st st' :
  getSentence now (take_overflow st) = getSentence now (take_overflow st') ->
  loop tz now st = loop tz now st'.
Proof. unfold loop. cbv zeta. intros ->. reflexivity. Qed.

Lemma wf_flag b h t ov ov' : wf (mkRing b h t ov) -> wf (mkRing b h t ov').
Proof. exact (fun H => H). Qed.

(** X6: how the bytes are spread over the passes of [loop] does not
    matter. When the bytes [a] arrive before one pass and do not complete
    a record, and the bytes [b] arrive before the next, the second pass
    ends in the very state that a single pass reaches when [a] and [b]
    arrive together (no byte being dropped): the framer carries the partial
    record from one pass to the next. *)
Theorem chunking_does_not_matter (tz now0 now : Z) (a b : list Z) (st st1 : State) :
  wf (ring st) -> length a + length b <= room (ring st) ->
  complete (fst (frame_list (pending (ring st) ++ map to_byte a) (framer st))) = false ->
  feed_then_loop tz now0 a st = Some st1 ->
  feed_then_loop tz now b st1 = feed_then_loop tz now (a ++ b) st.
Proof.
  intros Hwf Hroom Hinc H1.
  (* the first pass *)
  destruct (isr_spec a (ring st) Hwf) as (Wa & Ta & Pa & Oa).
  rewrite take_ge in Pa by lia.
  replace (room (ring st) <? length a) with false in Oa by (symmetry; apply Nat.ltb_ge; lia).
  rewrite orb_false_r in Oa.
  set (ra := gpsDataReadISR a (ring st)) in *.
  set (sta := mkState ra (framer st) (gps st) (diag st)).
  destruct (take_overflow_fields sta) as (Ra & Fa & Ga & Da).
  cbn [sta ring framer gps diag] in Ra, Fa, Ga, Da.
  assert (wf (ring (take_overflow sta))) as Wa' by (rewrite Ra; exact Wa).
  destruct (framed_spec (take_overflow sta) Wa') as (r1 & Efr & P1 & W1 & B1 & Hd1 & O1).
  rewrite Fa in Efr, P1.
  assert (pending (ring (take_overflow sta)) = pending (ring st) ++ map to_byte a) as Pa'
    by (rewrite Ra; exact Pa).
  rewrite Pa' in Efr, P1. rewrite Ra in B1, Hd1, O1.
  cbn [gpsDataBuffer bufferHead bufferOverflow] in B1, Hd1, O1.
  set (fr1 := fst (frame_list (pending (ring st) ++ map to_byte a) (framer st))) in *.
  destruct (frame_list_incomplete _ _ Hinc) as [Hnil Hmore]. fold fr1 in Hmore.
  rewrite Hnil in P1.
  assert (st1 = mkState r1 fr1 (gps st) (diag (take_overflow sta))) as ->.
  { unfold feed_then_loop in H1. fold ra sta in H1. unfold loop in H1. cbv zeta in H1.
    unfold getSentence in H1. unfold framed in Efr. rewrite Efr in H1.
    cbn [mbind option_bind] in H1. unfold complete in Hinc. rewrite Hinc in H1.
    rewrite Ga in H1. cbn [mbind option_bind] in H1. now injection H1 as <-. }
  (* the two second passes *)
  assert (room r1 = GPSBUFR1 - 1) as Eroom1
    by (unfold room; rewrite <- pending_dist, P1; simpl; lia).
  assert (room ra = room (ring st) - length a) as Erooma.
  { unfold room. rewrite <- !pending_dist, Pa, length_app, length_map.
    pose proof (pending_dist (ring st)). unfold room in Hroom. lia. }
  assert (room (ring st) <= GPSBUFR1 - 1) as Hmax by (unfold room; lia).
  unfold feed_then_loop. cbn [ring framer gps diag].
  unfold gpsDataReadISR at 2. rewrite fold_left_app. fold (gpsDataReadISR a (ring st)).
  fold ra. fold (gpsDataReadISR b ra).
  apply loop_ext.
  set (stL := mkState (gpsDataReadISR b r1) fr1 (gps st) (diag (take_overflow sta))).
  set (stR := mkState (gpsDataReadISR b ra) (framer st) (gps st) (diag st)).
  destruct (isr_spec b r1 W1) as (WL & TL & PL & OL).
  destruct (isr_spec b ra Wa) as (WR & TR & PR & OR).
  rewrite take_ge in PL, PR by lia.
  replace (room r1 <? length b) with false in OL by (symmetry; apply Nat.ltb_ge; lia).
  replace (room ra <? length b) with false in OR by (symmetry; apply Nat.ltb_ge; lia).
  rewrite orb_false_r in OL, OR. rewrite P1 in PL. rewrite Pa in PR. cbn [app] in PL.
  destruct (isr_same_stores b r1 ra W1 Wa B1 Hd1) as [Eb Eh]; [lia | lia |].
  destruct (take_overflow_fields stL) as (RL & FL & GL & DL).
  destruct (take_overflow_fields stR) as (RR & FR & GR & DR).
  cbn [stL stR ring framer gps diag] in RL, FL, GL, DL, RR, FR, GR, DR.
  rewrite OL, O1 in DL. rewrite OR, Oa in DR.
  assert (wf (ring (take_overflow stL))) as WL' by (rewrite RL; exact WL).
  assert (wf (ring (take_overflow stR))) as WR' by (rewrite RR; exact WR).
  destruct (framed_spec _ WL') as (rL & EL & PL2 & WL2 & BL & HL & OL2).
  destruct (framed_spec _ WR') as (rR & ER & PR2 & WR2 & BR & HR & OR2).
  assert (pending (ring (take_overflow stL)) = map to_byte b) as PL'
    by (rewrite RL; exact PL).
  assert (pending (ring (take_overflow stR))
          = (pending (ring st) ++ map to_byte a) ++ map to_byte b) as PR'
    by (rewrite RR; exact PR).
  rewrite FL, PL' in EL, PL2. rewrite FR, PR', Hmore in ER, PR2.
  rewrite RL in BL, HL, OL2. rewrite RR in BR, HR, OR2.
  cbn [gpsDataBuffer bufferHead bufferOverflow] in BL, HL, OL2, BR, HR, OR2.
  assert (rL = rR) as Er.
  { apply ring_eq; try assumption; congruence. }
  apply getSentence_ext.
  - rewrite EL, ER, Er. reflexivity.
  - now rewrite GL, GR.
  - rewrite DL, DR, Da, Oa. reflexivity.
Qed.

Lemma chunking_does_not_matter_witness :
  let a := chars "$GPRMC,1235" in
  let b := chars "19,A*00" ++ [ch_CR; ch_LF] in
  let st1 := default state0 (feed_then_loop TZOFFSET 1000 a state0) in
  feed_then_loop TZOFFSET 1200 b st1 = feed_then_loop TZOFFSET 1200 (a ++ b) state0.
Proof.
  apply (chunking_does_not_matter TZOFFSET 1000 1200 (chars "$GPRMC,1235")
           (chars "19,A*00" ++ [ch_CR; ch_LF]) state0).
  - repeat split; vm_compute; lia.
  - vm_compute. lia.
  - vm_compute. reflexivity.
  - vm_compute. reflexivity.
Defined.

(** X5: bytes that arrive while no record has been started, and hold no
    start marker, are read and dropped, line ends included: after the pass
    the ring buffer is drained, and the framer, the Fix, the error counter
    and the time stamp are what they were. *)
Theorem noise_is_dropped (tz now : Z) (junk : list Z) (st : State) :
  wf (ring st) -> pending (ring st) = [] -> dataStart (framer st) = false ->
  Forall (fun c => to_byte c <> ch_dollar) junk ->
  exists st',
    feed_then_loop tz now junk st = Some st' /\
    pending (ring st') = [] /\
    framer st' = framer st /\ gps st' = gps st /\
    checksumErrors (diag st') = checksumErrors (diag st) /\
    lastFixMillis (diag st') = lastFixMillis (diag st).
Proof.
  intros Hwf Hp Hs Hj.
  destruct (isr_spec junk (ring st) Hwf) as (Wa & _ & Pa & _). rewrite Hp in Pa.
  cbn [app] in Pa.
  set (sta := mkState (gpsDataReadISR junk (ring st)) (framer st) (gps st) (diag st)).
  destruct (take_overflow_fields sta) as (Ra & Fa & Ga & Da).
  cbn [sta ring framer gps diag] in Ra, Fa, Ga, Da.
  assert (wf (ring (take_overflow sta))) as Wa' by (rewrite Ra; exact Wa).
  destruct (framed_spec _ Wa') as (r1 & Efr & P1 & _).
  assert (pending (ring (take_overflow sta))
          = map to_byte (take (room (ring st)) junk) ++ []) as Pa'
    by (rewrite Ra, app_nil_r; exact Pa).
  rewrite Fa, Pa' in Efr, P1.
  rewrite frame_list_idle in Efr, P1;
    [| assumption | apply Forall_map, Forall_take; exact Hj
     | assumption | apply Forall_map, Forall_take; exact Hj].
  cbn [frame_list fst snd] in Efr, P1.
  exists (mkState r1 (framer st) (gps st) (diag (take_overflow sta))).
  split.
  - unfold feed_then_loop. fold sta. unfold loop. cbv zeta.
    unfold getSentence. unfold framed in Efr. rewrite Efr. cbn [mbind option_bind].
    rewrite Hs, Ga. reflexivity.
  - cbn [ring framer gps diag]. rewrite Da.
    destruct (bufferOverflow _); auto.
Qed.

Lemma noise_is_dropped_witness :
  exists st',
    feed_then_loop TZOFFSET 1000 (chars "9,A*1F" ++ [ch_CR; ch_LF]) state0 = Some st' /\
    pending (ring st') = [] /\
    framer st' = framer state0 /\ gps st' = gps state0 /\
    checksumErrors (diag st') = checksumErrors (diag state0) /\
    lastFixMillis (diag st') = lastFixMillis (diag state0).
Proof.
  apply (noise_is_dropped TZOFFSET 1000 (chars "9,A*1F" ++ [ch_CR; ch_LF]) state0).
  - repeat split; vm_compute; lia.
  - reflexivity.
  - reflexivity.
  - vm_compute. repeat constructor; discriminate.
Defined.

End ChunkFacts.

Module HeartbeatFacts.
Import Heartbeat.
Local Open Scope nat_scope.

Lemma beat_wraps l :
  hbCounter l = HBCOUNTER - 1 ->
  beat l = (mkLed 0 (negb (ledStatus l)), [negb (ledStatus l)]).
Proof. unfold beat, HBCOUNTER. intros ->. reflexivity. Qed.

Lemma beat_counts l :
  hbCounter l < HBCOUNTER - 1 -> beat l = (mkLed (hbCounter l + 1) (ledStatus l), []).
Proof.
  unfold beat, HBCOUNTER. intros H.
  rewrite Nat.mod_small by lia.
  destruct (Nat.eqb_spec (hbCounter l + 1) 0); [lia | reflexivity].
Qed.

Lemma writes_shift (led : bool) (k : nat) :
  map (fun i => xorb led (Nat.even i)) (seq 1 k)
  = map (fun i => xorb (negb led) (Nat.even i)) (seq 0 k).
Proof.
  rewrite <- seq_shift, map_map. apply map_ext. intros i.
  rewrite Nat.even_succ, <- Nat.negb_even. destruct led, (Nat.even i); reflexivity.
Qed.

(** X19: the heartbeat of the interrupt routine. From any count below
    [HBCOUNTER], after [n] calls the counter is the number of calls modulo
    250 and the LED has been written once for each full 250 calls, with
    alternating levels, the first being the opposite of where it stood:
    the LED changes every 250 ms and blinks with a period of 500 ms. *)
Theorem heartbeat_period (n : nat) :
  forall l : Led,
    hbCounter l < HBCOUNTER ->
    let k := (hbCounter l + n) / HBCOUNTER in
    beats n l =
      (mkLed ((hbCounter l + n) mod HBCOUNTER) (xorb (ledStatus l) (Nat.odd k)),
       map (fun i => xorb (ledStatus l) (Nat.even i)) (seq 0 k)).
Proof.
  induction n as [| n IH]; intros l Hl; cbv zeta.
  - rewrite Nat.add_0_r, Nat.div_small, Nat.mod_small by assumption.
    destruct l as [hb led]. cbn. now rewrite xorb_false_r.
  - cbn [beats].
    destruct (Nat.eq_dec (hbCounter l) (HBCOUNTER - 1)) as [E | E].
    + rewrite (beat_wraps l E). rewrite IH by (cbn; unfold HBCOUNTER; lia).
      cbn [hbCounter ledStatus Nat.add]. cbv zeta.
      assert ((hbCounter l + S n) / HBCOUNTER = S (n / HBCOUNTER)) as ->
        by (unfold HBCOUNTER in *; lia).
      assert ((hbCounter l + S n) mod HBCOUNTER = n mod HBCOUNTER) as ->
        by (unfold HBCOUNTER in *; lia).
      rewrite Nat.odd_succ, <- Nat.negb_odd.
      cbn [seq map app Nat.even]. rewrite writes_shift.
      destruct (ledStatus l), (Nat.odd (n / HBCOUNTER)); reflexivity.
    + rewrite (beat_counts l) by (unfold HBCOUNTER in *; lia).
      rewrite IH by (cbn; unfold HBCOUNTER in *; lia).
      cbn [hbCounter ledStatus app]. cbv zeta.
      replace (hbCounter l + 1 + n) with (hbCounter l + S n) by lia. reflexivity.
Qed.

Lemma heartbeat_period_witness :
  beats 600 led0 =
    (mkLed ((hbCounter led0 + 600) mod HBCOUNTER)
           (xorb (ledStatus led0) (Nat.odd ((hbCounter led0 + 600) / HBCOUNTER))),
     map (fun i => xorb (ledStatus led0) (Nat.even i))
         (seq 0 ((hbCounter led0 + 600) / HBCOUNTER))).
Proof.
  apply (heartbeat_period 600 led0). vm_compute. lia.
Defined.

End HeartbeatFacts.

Module ConsoleFacts.
Import CString Parser Ranges Console Oled.

Lemma printNumber_one n : 0 <= n < 10 -> printNumber 3 n [] = [n + 48].
Proof.
  intros H. cbn [printNumber]. rewrite Z.mod_small by lia.
  rewrite Z.div_small by lia. reflexivity.
Qed.

Lemma printNumber_two n :
  10 <= n < 100 -> printNumber 3 n [] = [n / 10 + 48; n mod 10 + 48].
Proof.
  intros H. cbn [printNumber].
  assert (1 <= n / 10 < 10) as Hq by lia.
  destruct (Z.eqb_spec (n / 10) 0); [lia |].
  rewrite (Z.mod_small (n / 10)) by lia.
  rewrite (Z.div_small (n / 10)) by lia. reflexivity.
Qed.

Lemma printNumber_three n :
  100 <= n < 1000 ->
  printNumber 3 n [] = [n / 100 + 48; (n / 10) mod 10 + 48; n mod 10 + 48].
Proof.
  intros H. cbn [printNumber].
  assert (10 <= n / 10 < 100) as Hq by lia.
  assert (1 <= n / 10 / 10 < 10) as Hqq by lia.
  destruct (Z.eqb_spec (n / 10) 0); [lia |].
  destruct (Z.eqb_spec (n / 10 / 10) 0); [lia |].
  rewrite (Z.mod_small (n / 10 / 10)) by lia.
  replace (n / 10 / 10) with (n / 100) by (now rewrite Z.div_div by lia).
  destruct (_ =? 0); reflexivity.
Qed.

Lemma dtoi_digit c : is_digit c -> dtoi c = c - 48.
Proof.
  unfold is_digit, dtoi, to_byte. intros H.
  destruct (Z.leb_spec 48 c); [| lia]. destruct (Z.leb_spec c 57); [| lia].
  cbn [andb]. apply Z.mod_small. lia.
Qed.

Lemma print2d_small n :
  0 <= n <= 99 -> serPrint2d n = [n / 10 + 48; n mod 10 + 48].
Proof.
  intros H. unfold serPrint2d.
  destruct (Z.ltb_spec n 10).
  - rewrite printNumber_one by lia. rewrite Z.div_small, Z.mod_small by lia. reflexivity.
  - rewrite printNumber_two by lia. reflexivity.
Qed.

Lemma print2d_echo a b :
  is_digit a -> is_digit b -> serPrint2d (to_byte (dtoi a * 10 + dtoi b)) = [a; b].
Proof.
  intros Ha Hb. rewrite !dtoi_digit by assumption.
  unfold is_digit, to_byte in *. rewrite Z.mod_small by lia.
  rewrite print2d_small by lia. f_equal; [lia | f_equal; lia].
Qed.

(** X20: the two-digit printers and the two-digit reader of the parser
    are inverse to each other. For a value of 0 to 99, [serPrint2d] and
    [oledPrint2d] send exactly two decimal digits, from which the parser's
    two-digit reading gives the value back; two decimal digits read by the
    parser are printed as the same two characters; a [byte] of 100 or more
    is sent with its three digits. *)
Theorem print2d_round_trip (n a b : Z) :
  0 <= n <= 255 -> is_digit a -> is_digit b ->
  oledPrint2d n = serPrint2d n /\
  (n <= 99 ->
   serPrint2d n = [n / 10 + 48; n mod 10 + 48] /\ two_digits (serPrint2d n) 0 = n) /\
  (100 <= n -> length (serPrint2d n) = 3%nat) /\
  serPrint2d (two_digits [a; b] 0) = [a; b].
Proof.
  intros Hn Ha Hb. split; [reflexivity |]. split; [| split].
  - intros H. rewrite print2d_small by lia. split; [reflexivity |].
    unfold two_digits, at_. cbn [nth].
    rewrite !dtoi_digit by (unfold is_digit; lia).
    unfold to_byte. rewrite Z.mod_small by lia. lia.
  - intros H. unfold serPrint2d.
    destruct (Z.ltb_spec n 10); [lia |]. now rewrite printNumber_three by lia.
  - unfold two_digits, at_. cbn [nth]. now apply print2d_echo.
Qed.

Lemma print2d_round_trip_witness :
  oledPrint2d 7 = serPrint2d 7 /\
  (7 <= 99 ->
   serPrint2d 7 = [7 / 10 + 48; 7 mod 10 + 48] /\ two_digits (serPrint2d 7) 0 = 7) /\
  (100 <= 7 -> length (serPrint2d 7) = 3%nat) /\
  serPrint2d (two_digits [50; 51] 0) = [50; 51].
Proof.
  apply (print2d_round_trip 7 50 51); unfold is_digit; lia.
Defined.

Lemma show_repeat f f' sh :
  gpsValid f' = gpsValid f -> (gpsValid f = true -> gpsTimeS f' = gpsTimeS f) ->
  showGPSDateTime f' (fst (showGPSDateTime f sh)) = (fst (showGPSDateTime f sh), []).
Proof.
  intros Hv Hs. unfold showGPSDateTime. rewrite Hv.
  destruct (gpsValid f).
  - rewrite Hs by reflexivity.
    destruct (Z.eqb_spec (gpsTimeS f) (Console.pastTimeS sh)) as [E | E];
      cbn [negb fst Console.pastTimeS Console.pastSats].
    + now rewrite E, Z.eqb_refl.
    + now rewrite Z.eqb_refl.
  - destruct (Console.noSignal sh) eqn:En; cbn [negb fst Console.noSignal];
      [now rewrite En | reflexivity].
Qed.

Lemma display_repeat f f' dr :
  gpsValid f' = gpsValid f -> (gpsValid f = true -> gpsTimeS f' = gpsTimeS f) ->
  displayGPSDateTime f' (fst (displayGPSDateTime f dr))
    = (fst (displayGPSDateTime f dr), []).
Proof.
  intros Hv Hs. unfold displayGPSDateTime. rewrite Hv.
  destruct (gpsValid f).
  - rewrite Hs by reflexivity.
    destruct (Z.eqb_spec (gpsTimeS f) (Oled.pastTimeS dr)) as [E | E];
      cbn [negb fst Oled.pastTimeS].
    + now rewrite E, Z.eqb_refl.
    + now rewrite Z.eqb_refl.
  - destruct (Oled.noSignal dr) eqn:En; cbn [negb fst Oled.noSignal];
      [now rewrite En | reflexivity].
Qed.

(** X22: the serial monitor and the display are written once per second
    and once per loss of signal. While the validity flag stays the same
    and, for valid fixes, the seconds stay the same, only the first of any
    number of calls of [showGPSDateTime] and of [displayGPSDateTime] can
    send anything; the others send nothing and leave the statics alone. *)
Theorem repeats_are_not_shown (f : Fix) (fs : list Fix) (sh : Shown) (dr : Drawn) :
  Forall (fun f' => gpsValid f' = gpsValid f /\
                    (gpsValid f = true -> gpsTimeS f' = gpsTimeS f)) fs ->
  show_run (f :: fs) sh = showGPSDateTime f sh /\
  display_run (f :: fs) dr = displayGPSDateTime f dr.
Proof.
  intros Hfs.
  assert (show_run fs (fst (showGPSDateTime f sh)) = (fst (showGPSDateTime f sh), [])
          /\ display_run fs (fst (displayGPSDateTime f dr))
             = (fst (displayGPSDateTime f dr), [])) as [Hs Hd].
  { induction Hfs as [| f' fs [Hv Ht] _ [IHs IHd]]; [split; reflexivity |].
    cbn [show_run display_run].
    rewrite show_repeat, display_repeat by assumption. rewrite IHs, IHd.
    split; reflexivity. }
  cbn [show_run display_run].
  destruct (showGPSDateTime f sh) as [sh1 out1].
  destruct (displayGPSDateTime f dr) as [dr1 out2]. cbn [fst] in Hs, Hd.
  rewrite Hs, Hd, !app_nil_r. split; reflexivity.
Qed.

Lemma repeats_are_not_shown_witness :
  let f := mkFix true 23 3 94 12 35 19 0 0 8 in
  let fs := [mkFix true 23 3 94 12 35 19 0 0 9; mkFix true 23 3 94 12 35 19 0 0 10] in
  show_run (f :: fs) shown0 = showGPSDateTime f shown0 /\
  display_run (f :: fs) drawn0 = displayGPSDateTime f drawn0.
Proof.
  apply (repeats_are_not_shown (mkFix true 23 3 94 12 35 19 0 0 8)
           [mkFix true 23 3 94 12 35 19 0 0 9; mkFix true 23 3 94 12 35 19 0 0 10]
           shown0 drawn0).
  repeat constructor.
Defined.

Lemma show_run_app fs1 : forall fs2 sh,
  show_run (fs1 ++ fs2) sh =
    (fst (show_run fs2 (fst (show_run fs1 sh))),
     snd (show_run fs1 sh) ++ snd (show_run fs2 (fst (show_run fs1 sh)))).
Proof.
  induction fs1 as [| f fs1 IH]; intros fs2 sh; cbn [app show_run fst snd].
  - now destruct (show_run fs2 sh).
  - destruct (showGPSDateTime f sh) as [sh1 out1]. rewrite IH.
    destruct (show_run fs1 sh1) as [sh2 out2]. cbn [fst snd].
    destruct (show_run fs2 sh2) as [sh3 out3]. cbn [fst snd].
    now rewrite app_assoc.
Qed.

(** While [noSignal] is set the two other statics hold their reset values. *)
Lemma show_keeps_reset f sh :
  (Console.noSignal sh = true -> Console.pastTimeS sh = 255 /\ pastSats sh = 0) ->
  let sh' := fst (showGPSDateTime f sh) in
  Console.noSignal sh' = true -> Console.pastTimeS sh' = 255 /\ pastSats sh' = 0.
Proof.
  intros H. unfold showGPSDateTime.
  destruct (gpsValid f).
  - destruct (negb _); cbn; discriminate.
  - destruct (Console.noSignal sh) eqn:En; cbn [negb fst]; [rewrite En; exact H | auto].
Qed.

Lemma show_run_keeps_reset fs :
  forall sh,
    (Console.noSignal sh = true -> Console.pastTimeS sh = 255 /\ pastSats sh = 0) ->
    let sh' := fst (show_run fs sh) in
    Console.noSignal sh' = true -> Console.pastTimeS sh' = 255 /\ pastSats sh' = 0.
Proof.
  induction fs as [| f fs IH]; intros sh H; [exact H |].
  cbn [show_run]. pose proof (show_keeps_reset f sh H) as H1.
  destruct (showGPSDateTime f sh) as [sh1 out1]. cbn [fst] in H1.
  specialize (IH sh1 H1). destruct (show_run fs sh1) as [sh2 out2]. exact IH.
Qed.

(** X23: the first valid fix is always reported on the serial monitor,
    at start-up and after any loss of signal. Whatever was shown before,
    once an invalid fix has been shown the statics are back at their reset
    values, and a valid fix that follows (its seconds within two digits, as
    the parser leaves them) is reported in full, with the previous
    satellite count given as 0 when the new one differs from 0. *)
Theorem first_fix_is_reported (history : list Fix) (lost f : Fix) :
  gpsValid lost = false -> gpsValid f = true -> fix_in_range f ->
  let sh := fst (show_run (history ++ [lost]) shown0) in
  sh = mkShown true 255 0 /\
  fst (showGPSDateTime f sh) = mkShown false (gpsTimeS f) (gpsSats f) /\
  snd (showGPSDateTime f sh) = snd (showGPSDateTime f shown0) /\
  exists report,
    snd (showGPSDateTime f sh) = say "Sats: " :: num (gpsSats f) :: report.
Proof.
  intros Hl Hv Hr. cbv zeta.
  assert (fst (show_run (history ++ [lost]) shown0) = mkShown true 255 0) as ->.
  { rewrite show_run_app. cbn [fst snd show_run].
    pose proof (show_run_keeps_reset history shown0) as Hk. cbv zeta in Hk.
    destruct (show_run history shown0) as [sh1 out1]. cbn [fst] in *.
    unfold showGPSDateTime. rewrite Hl.
    destruct sh1 as [ns pt ps]. cbn [Console.noSignal Console.pastTimeS pastSats] in *.
    destruct ns; cbn [negb fst]; [| reflexivity].
    destruct Hk as [-> ->]; [discriminate | reflexivity | reflexivity]. }
  assert ((gpsTimeS f =? 255) = false) as E255
    by (apply Z.eqb_neq; destruct Hr as (_ & _ & Hs & _); lia).
  unfold showGPSDateTime, shown0. rewrite Hv.
  cbn [Console.pastTimeS pastSats Console.noSignal]. rewrite E255. cbn [negb fst snd].
  repeat split. eexists. reflexivity.
Qed.

Lemma first_fix_is_reported_witness :
  let f := mkFix true 23 3 94 12 35 19 0 0 8 in
  let sh := fst (show_run ([f] ++ [fix0]) shown0) in
  sh = mkShown true 255 0 /\
  fst (showGPSDateTime f sh) = mkShown false (gpsTimeS f) (gpsSats f) /\
  snd (showGPSDateTime f sh) = snd (showGPSDateTime f shown0) /\
  exists report,
    snd (showGPSDateTime f sh) = say "Sats: " :: num (gpsSats f) :: report.
Proof.
  apply (first_fix_is_reported [mkFix true 23 3 94 12 35 19 0 0 8] fix0
           (mkFix true 23 3 94 12 35 19 0 0 8)).
  - reflexivity.
  - reflexivity.
  - unfold fix_in_range. cbn. lia.
Defined.

(** X24: the satellite count in the margin of the display. For every
    [byte] the cell holds one or two characters, placed so that they end
    within the 128 pixels of the display: the count in decimal below 100
    (one digit at x = 108, two digits at x = 102) and a [+] from 100 on. *)
Theorem sats_cell_fits (n : Z) :
  0 <= n <= 255 ->
  exists x cs,
    sats_cell n = [setCursor x 40; print (Chars cs)] /\
    x + width2 (length cs) <= SCRNWDTH /\
    (n < 100 -> cs = printNumber 3 n []) /\
    (100 <= n -> cs = chars "+").
Proof.
  intros H. unfold sats_cell, num, say, width2, SCRNWDTH.
  destruct (Z.leb_spec 0 n); [| lia].
  destruct (Z.ltb_spec n 10); cbn [andb].
  - eexists _, _. split; [reflexivity |]. rewrite printNumber_one by lia.
    cbn [length]. split; [lia |]. split; [reflexivity | lia].
  - destruct (Z.leb_spec 10 n); [| lia].
    destruct (Z.ltb_spec n 100); cbn [andb].
    + eexists _, _. split; [reflexivity |]. rewrite printNumber_two by lia.
      cbn [length]. split; [lia |]. split; [reflexivity | lia].
    + eexists _, _. split; [reflexivity |]. cbn [length chars].
      split; [vm_compute; discriminate |]. split; [lia | reflexivity].
Qed.

Lemma sats_cell_fits_witness :
  exists x cs,
    sats_cell 12 = [setCursor x 40; print (Chars cs)] /\
    x + width2 (length cs) <= SCRNWDTH /\
    (12 < 100 -> cs = printNumber 3 12 []) /\
    (100 <= 12 -> cs = chars "+").
Proof. apply (sats_cell_fits 12). lia. Defined.

End ConsoleFacts.

Module WatchdogFacts.
Import Console Watchdog.

Lemma elapsed_wraps last d :
  0 <= last < 2 ^ 32 -> 0 <= d < 2 ^ 32 -> elapsed ((last + d) mod 2 ^ 32) last = d.
Proof.
  intros Hl Hd. unfold elapsed.
  rewrite Zminus_mod_idemp_l. replace (last + d - last) with d by lia.
  apply Z.mod_small. lia.
Qed.

(** X25: the lost-stream check is right across the wrap of [millis()].
    When [d] milliseconds (fewer than 2^32) have gone by since the time
    stamp of the last accepted record, whatever the two clock values, step
    3 of [loop] sets [signalWarning] exactly when [d] exceeds [GPSLOST],
    and draws the banner and prints the message exactly when it does so
    and the flag was not set. *)
Theorem lost_stream_check_wraps (last d : Z) (signalWarning : bool) :
  0 <= last < 2 ^ 32 -> 0 <= d < 2 ^ 32 ->
  let '(w, oled, ser) := check_signal ((last + d) mod 2 ^ 32) last signalWarning in
  w = (GPSLOST <? d) /\
  ser = (if (GPSLOST <? d) && negb signalWarning then [say "No GPS data!"] else []) /\
  (oled = [] <-> ser = []).
Proof.
  intros Hl Hd. unfold check_signal. rewrite elapsed_wraps by assumption.
  destruct (GPSLOST <? d); [| cbn; tauto].
  destruct signalWarning; cbn [negb andb]; repeat split; discriminate.
Qed.

Lemma lost_stream_check_wraps_witness :
  let '(w, oled, ser) := check_signal ((4294967000 + 2500) mod 2 ^ 32) 4294967000 false in
  w = (GPSLOST <? 2500) /\
  ser = (if (GPSLOST <? 2500) && negb false then [say "No GPS data!"] else []) /\
  (oled = [] <-> ser = []).
Proof.
  apply (lost_stream_check_wraps 4294967000 2500 false); lia.
Defined.

Lemma check_signal_warned now last :
  GPSLOST < elapsed now last -> check_signal now last true = (true, [], []).
Proof.
  intros H. unfold check_signal.
  destruct (Z.ltb_spec GPSLOST (elapsed now last)); [reflexivity | lia].
Qed.

(** X26: the no-data banner is drawn and the message printed once per
    outage. Over any number of passes in which the stream stays lost, only
    the first can draw the banner and print the message, and it does so
    exactly when the flag was not yet set; the flag is set afterwards. *)
Theorem no_data_reported_once (now : Z) (nows : list Z) (last : Z) (signalWarning : bool) :
  Forall (fun t => GPSLOST < elapsed t last) (now :: nows) ->
  watch_run (now :: nows) last signalWarning = check_signal now last signalWarning /\
  fst (fst (check_signal now last signalWarning)) = true /\
  (snd (check_signal now last signalWarning) = [] <-> signalWarning = true).
Proof.
  intros H. inversion H as [| ? ? H0 Hrest]; subst.
  assert (watch_run nows last true = (true, [], [])) as Hrun.
  { clear H. induction Hrest as [| t ts Ht _ IH]; [reflexivity |].
    cbn [watch_run]. rewrite check_signal_warned by assumption. now rewrite IH. }
  cbn [watch_run]. unfold check_signal.
  destruct (Z.ltb_spec GPSLOST (elapsed now last)); [| lia].
  destruct signalWarning; cbn [negb fst snd]; rewrite Hrun, ?app_nil_r;
    repeat split; (reflexivity || discriminate).
Qed.

Lemma no_data_reported_once_witness :
  watch_run [3001; 3002; 3500] 1000 false = check_signal 3001 1000 false /\
  fst (fst (check_signal 3001 1000 false)) = true /\
  (snd (check_signal 3001 1000 false) = [] <-> false = true).
Proof.
  apply (no_data_reported_once 3001 [3002; 3500] 1000 false).
  repeat constructor.
Defined.

End WatchdogFacts.

Module EndToEnd.
Import CString Parser Calendar RingBuffer Acquisition Samples Stream RmcRecord Ranges Console.
Import CStringFacts ParserFacts RingFacts ValidatorFacts Totality.
Import StreamFacts RmcFacts RangeFacts CalendarMore ConsoleFacts.

Lemma fields_then_app fs x y : fields_then fs x ++ y = fields_then fs (x ++ y).
Proof.
  induction fs as [| fld fs IH]; [reflexivity |].
  unfold fields_then in *. cbn [foldr]. rewrite <- app_assoc. cbn [app]. now rewrite IH.
Qed.

(** X8: a complete GPRMC record on the wire, from the UART to the Fix,
    with the offset as shipped. The ring buffer is drained, with no
    overflow flagged, and [$GPRMC,f1,...,f9...*HH<CR><LF>] arrives, a record of at most 79
    bytes with [HH] the XOR of the payload; its nine first fields are
    non-empty, fields 1 and 9 have at least six characters, field 3 at
    least two and field 5 at least three, fields 3 and 5 are in plain
    decimal notation (digits and a point), field 9 reads as a calendar date
    and field 1 as an hour below 24. Then one pass of [loop] leaves in the
    Fix the time of field 1, the validity of field 2, the signed latitude
    and longitude of fields 3 to 6 (degrees plus minutes over 60, in exact
    arithmetic) and the date of field 9, unchanged by the calendar block;
    the satellite count and the error counter are untouched and
    [lastFixMillis] is the clock. *)
Theorem rmc_on_the_wire_sets_fix
        (now : Z) (st : State) (f1 f2 f3 f4 f5 f6 f7 f8 f9 more : list Z) :
  let payload :=
    nmeaType1 ++ ch_comma :: fields_then [f1; f2; f3; f4; f5; f6; f7; f8] (f9 ++ more) in
  wf (ring st) -> pending (ring st) = [] -> bufferOverflow (ring st) = false ->
  length (sentence (framer st)) = S NMEAMAXLEN ->
  plain payload -> Forall storable payload -> Forall is_byte payload ->
  (length payload + 3 <= NMEAMAXLEN)%nat ->
  Forall filled [f1; f2; f3; f4; f5; f6; f7; f8; f9] ->
  (6 <= length f1)%nat -> (2 <= length f3)%nat -> (3 <= length f5)%nat ->
  (6 <= length f9)%nat ->
  Forall decimal_char f3 -> Forall decimal_char f5 ->
  more = [] \/ (exists m, more = ch_comma :: m) ->
  valid_dmy (triple_of f9) -> two_digits f1 0 <= 23 ->
  exists st',
    feed_then_loop TZOFFSET now (wire payload) st = Some st' /\
    time_of (gps st') = triple_of f1 /\
    gpsValid (gps st') = bytes_eqb f2 (chars "A") /\
    gpsLatD (gps st')
      = (if bytes_eqb f4 (chars "S") then - latitude_of f3 else latitude_of f3)%Q /\
    gpsLongD (gps st')
      = (if bytes_eqb f6 (chars "W") then - longitude_of f5 else longitude_of f5)%Q /\
    date_of (gps st') = triple_of f9 /\
    gpsSats (gps st') = gpsSats (gps st) /\
    lastFixMillis (diag st') = now /\
    checksumErrors (diag st') = checksumErrors (diag st).
Proof.
  intros payload Hwf Hpend Hov Hlen Hplain Hstor Hbyte Hfit Hall L1 L3 L5 L9 _ _
         Hmore Hdate Hhour.
  destruct (wire_record_core TZOFFSET now st payload)
    as (f' & mem' & st' & Hlen' & Hparse & Hloop & Hgps & _ & Hdiag & _);
    try assumption; [discriminate |].
  fold payload in Hlen', Hparse.
  set (after := hex_digit true (xor_bytes payload / 16)
                  :: hex_digit true (xor_bytes payload mod 16)
                  :: NUL :: drop (length payload + 4) (sentence (framer st))) in *.
  assert (exists sep rest,
            (sep = ch_comma \/ sep = NUL) /\
            payload ++ NUL :: after =
              nmeaType1 ++ ch_comma
                :: fields_then [f1; f2; f3; f4; f5; f6; f7; f8] (f9 ++ sep :: rest))
    as (sep & rest & Hsep & Eshape).
  { unfold payload. rewrite <- app_assoc. cbn [app]. rewrite fields_then_app, <- app_assoc.
    destruct Hmore as [-> | [m ->]].
    - exists NUL, after. split; [now right | reflexivity].
    - exists ch_comma, (m ++ NUL :: after). split; [now left | reflexivity]. }
  rewrite Eshape in Hparse, Hlen'.
  destruct (rmc_record_fields f1 f2 f3 f4 f5 f6 f7 f8 f9 rest sep (gps st))
    as (f'' & Hp'' & Ht & Hv & Hla & Hlo & Hd & Hs); try assumption; [lia |].
  rewrite Hparse in Hp''. cbn [fmap option_fmap option_map fst] in Hp''.
  injection Hp'' as <-.
  assert (tz_adjust TZOFFSET f' = f') as Etz.
  { rewrite tz_same_day.
    - unfold TZOFFSET. rewrite Z.add_0_r. destruct f'; reflexivity.
    - apply valid_date_dmy. now rewrite Hd.
    - unfold time_of, triple_of in Ht. injection Ht as Hh _ _. rewrite Hh.
      pose proof (two_digits_range f1 0). unfold TZOFFSET. lia. }
  exists st'. rewrite Hgps, Etz, Hdiag. cbn [lastFixMillis checksumErrors].
  repeat (split; [assumption || reflexivity |]). reflexivity.
Qed.

Lemma rmc_on_the_wire_sets_fix_witness :
  let payload :=
    nmeaType1 ++ ch_comma
      :: fields_then [chars "123519"; chars "A"; chars "4807.038"; chars "N";
                      chars "01131.000"; chars "E"; chars "022.4"; chars "084.4"]
           (chars "230394" ++ chars ",003.1,W") in
  exists st',
    feed_then_loop TZOFFSET 1000 (wire payload) state0 = Some st' /\
    time_of (gps st') = triple_of (chars "123519") /\
    gpsValid (gps st') = bytes_eqb (chars "A") (chars "A") /\
    gpsLatD (gps st')
      = (if bytes_eqb (chars "N") (chars "S")
         then - latitude_of (chars "4807.038") else latitude_of (chars "4807.038"))%Q /\
    gpsLongD (gps st')
      = (if bytes_eqb (chars "E") (chars "W")
         then - longitude_of (chars "01131.000") else longitude_of (chars "01131.000"))%Q /\
    date_of (gps st') = triple_of (chars "230394") /\
    gpsSats (gps st') = gpsSats (gps state0) /\
    lastFixMillis (diag st') = 1000 /\
    checksumErrors (diag st') = checksumErrors (diag state0).
Proof.
  apply (rmc_on_the_wire_sets_fix 1000 state0
           (chars "123519") (chars "A") (chars "4807.038") (chars "N")
           (chars "01131.000") (chars "E") (chars "022.4") (chars "084.4")
           (chars "230394") (chars ",003.1,W")).
  - repeat split; vm_compute; lia.
  - reflexivity.
  - reflexivity.
  - reflexivity.
  - plain_ok.
  - storable_ok.
  - vm_compute. repeat constructor; discriminate.
  - vm_compute. lia.
  - fields_ok.
  - vm_compute. lia.
  - vm_compute. lia.
  - vm_compute. lia.
  - vm_compute. lia.
  - decimal_ok.
  - decimal_ok.
  - right. exists (chars "003.1,W"). reflexivity.
  - vm_compute. repeat split; discriminate.
  - vm_compute. discriminate.
Defined.

Lemma two_digits_at (p : list Z) (k : nat) :
  is_digit (at_ p k) -> is_digit (at_ p (S k)) ->
  serPrint2d (two_digits p k) = [at_ p k; at_ p (S k)].
Proof. intros Ha Hb. unfold two_digits. now apply print2d_echo. Qed.

(** X21: the report on the serial monitor echoes the digits of the
    record. For a valid Fix whose time and date were read from the twelve
    digits [h1 h2 m1 m2 s1 s2] and [d1 d2 mo1 mo2 y1 y2], and whose seconds
    differ from those last reported, [showGPSDateTime] sends the satellite
    line and then [Date: d1d2/mo1mo2/20y1y2  Time: h1h2:m1m2:s1s2] with
    these very characters, followed by the position. *)
Theorem report_echoes_the_record
        (f : Fix) (sh : Shown) (h1 h2 m1 m2 s1 s2 d1 d2 mo1 mo2 y1 y2 : Z)
        (frac more : list Z) :
  gpsValid f = true ->
  time_of f = triple_of (h1 :: h2 :: m1 :: m2 :: s1 :: s2 :: frac) ->
  date_of f = triple_of (d1 :: d2 :: mo1 :: mo2 :: y1 :: y2 :: more) ->
  Forall is_digit [h1; h2; m1; m2; s1; s2; d1; d2; mo1; mo2; y1; y2] ->
  gpsTimeS f <> Console.pastTimeS sh ->
  snd (showGPSDateTime f sh) =
    [say "Sats: "; num (gpsSats f)]
      ++ (if pastSats sh =? gpsSats f then [newline]
          else [say "  (Was: "; num (pastSats sh); say ")"; newline])
      ++ [say "Date: "; Chars [d1; d2]; say "/"; Chars [mo1; mo2]; say "/20";
          Chars [y1; y2];
          say "  Time: "; Chars [h1; h2]; say ":"; Chars [m1; m2]; say ":";
          Chars [s1; s2; ch_CR; ch_LF];
          say " Lat: "; Real (gpsLatD f); say (degree ++ "  Long: "); Real (gpsLongD f);
          say degree; newline].
Proof.
  intros Hv Ht Hd Hdig Hs.
  unfold time_of, triple_of in Ht. injection Ht as Eh Em Es.
  unfold date_of, triple_of in Hd. injection Hd as Ed Emo Ey.
  repeat match goal with
         | H : Forall _ (_ :: _) |- _ => inversion_clear H
         end.
  unfold showGPSDateTime. rewrite Hv.
  destruct (Z.eqb_spec (gpsTimeS f) (Console.pastTimeS sh)); [contradiction |].
  cbn [negb snd]. unfold serPrint2dln.
  rewrite Eh, Em, Es, Ed, Emo, Ey.
  rewrite !two_digits_at by assumption. cbn [at_ nth app].
  destruct (pastSats sh =? gpsSats f); reflexivity.
Qed.

Lemma report_echoes_the_record_witness :
  let f := mkFix true 23 3 94 12 35 19 0 0 8 in
  snd (showGPSDateTime f shown0) =
    [say "Sats: "; num (gpsSats f)]
      ++ (if pastSats shown0 =? gpsSats f then [newline]
          else [say "  (Was: "; num (pastSats shown0); say ")"; newline])
      ++ [say "Date: "; Chars [50; 51]; say "/"; Chars [48; 51]; say "/20";
          Chars [57; 52];
          say "  Time: "; Chars [49; 50]; say ":"; Chars [51; 53]; say ":";
          Chars [49; 57; ch_CR; ch_LF];
          say " Lat: "; Real (gpsLatD f); say (degree ++ "  Long: "); Real (gpsLongD f);
          say degree; newline].
Proof.
  apply (report_echoes_the_record (mkFix true 23 3 94 12 35 19 0 0 8) shown0
           49 50 51 53 49 57 50 51 48 51 57 52 [] []).
  - reflexivity.
  - reflexivity.
  - reflexivity.
  - repeat constructor; unfold is_digit; lia.
  - discriminate.
Defined.

End EndToEnd.
